(** * Attribute-driven parameter completion (capsul)

    A shallow embedding of [capsul/attributes/completion_engine.py]
    ([ProcessCompletionEngine], [PathCompletionEngine] and the two default
    factories), of [Process.set_parameter] / [Process.get_parameter] and
    [Process.__call__] / [Process._run_process] from
    [capsul/process/process.py], and of what [environment] and [find_spm]
    of [capsul/study_config/config_utils.py] do with the output of the
    commands they run.

    Python objects live in a store: processes are addressed by an identity
    ([pid]), completion engines by the position at which they were allocated
    ([eid]), and every [Controller] instance carries the identity it was
    created with ([oid]).  The static shape of a pipeline (its [nodes]
    dictionary and the topological order of its workflow graph) is a tree.
    Exceptions are explicit outcomes, and the mutual recursion between
    [complete_parameters] and the [attributes_changed] notification handler
    is driven by a fuel counter.

    A factory registered under ['process_completion'] is code from
    elsewhere: it is known by what its [get_completion_engine] answers.
    The definitions whose name ends in [_registered] are the methods with
    such a factory taken into account; the others are the same methods when
    the default [ProcessCompletionEngineFactory] provides the engines.

    Outside the model: the validation of values by traits, the links that a
    pipeline keeps between its own parameters and those of its nodes, and
    completion engines other than the base [ProcessCompletionEngine]. *)

From Stdlib Require Import ZArith String Ascii List Lia.
From stdpp Require Import base tactics option list gmap strings.

Open Scope string_scope.
Open Scope list_scope.

#[local] Set Warnings "-register-all".

(** ** Python values *)

Inductive value : Type :=
  | VNone
  | VUndefined
  | VStr (s : string)
  | VInt (z : Z)
  | VDict (d : list (string * value)).

(** A Python [dict] with string keys, in iteration order (keys unique). *)
Abbreviation dict := (list (string * value)).

Fixpoint dict_get (k : string) (d : dict) : option value :=
  match d with
  | [] => None
  | (k', v) :: d' => if String.eqb k k' then Some v else dict_get k d'
  end.

(** Python truthiness ([if attributes:]). *)
Definition truthy (v : value) : bool :=
  match v with
  | VNone => false
  | VUndefined => true
  | VStr s => negb (String.eqb s "")
  | VInt z => negb (Z.eqb z 0)
  | VDict d => match d with [] => false | _ => true end
  end.

(** ** Outcomes *)

(** What a call can end in: a normal return, a raised exception, or the
    exhaustion of the fuel that bounds the recursion of the model (which is
    not an exception: no [except] clause catches it). *)
Inductive outcome (A : Type) : Type :=
  | Ok (a : A)
  | Raised
  | OutOfFuel.
Arguments Ok {A} a.
Arguments Raised {A}.
Arguments OutOfFuel {A}.

(** The result of a call that needs no fuel. *)
Inductive result (A : Type) : Type :=
  | Returns (a : A)
  | Raises.
Arguments Returns {A} a.
Arguments Raises {A}.


Definition out_of_fuel {A} (r : outcome A) : bool :=
  match r with OutOfFuel => true | _ => false end.

(** ** Controllers (soma.controller.Controller) *)

Inductive trait_type : Type := File | Directory | Str | Int | Any.

(** Modelled from the spec: [capsul.utils.trait_utils.is_trait_pathname] is
    not part of the sources at hand; the parameters it accepts are those
    "whose trait is a file or directory path". *)
Definition is_trait_pathname (t : trait_type) : bool :=
  match t with File | Directory => true | _ => false end.

Record field : Type := Field { ftrait : trait_type; fvalue : value }.

Definition oid := nat.

(** A [Controller] instance: its identity, its user traits in declaration
    order with their current values, and whether the owning engine's
    [attributes_changed] is plugged on it as an ['anytrait'] handler. *)
Record controller : Type := Controller {
  c_oid : oid;
  c_fields : list (string * field);
  c_observed : bool
}.

Fixpoint lookup_field (k : string) (l : list (string * field)) : option field :=
  match l with
  | [] => None
  | (k', f) :: l' => if String.eqb k k' then Some f else lookup_field k l'
  end.

(** [c.trait(name)]: [None] when no such trait is declared. *)
Definition trait (c : controller) (name : string) : option field :=
  lookup_field name (c_fields c).

Definition getattr (c : controller) (name : string) : option value :=
  fvalue <$> trait c name.

Fixpoint assign_field (k : string) (v : value) (l : list (string * field))
  : list (string * field) :=
  match l with
  | [] => []
  | (k', f) :: l' =>
      if String.eqb k k' then (k', Field (ftrait f) v) :: l'
      else (k', f) :: assign_field k v l'
  end.

(** [setattr(c, name, v)] on the values of the user traits; assigning a name
    that is not a declared trait creates a plain Python attribute, which is
    not a user trait and is not tracked. *)
Definition assign (c : controller) (name : string) (v : value) : controller :=
  Controller (c_oid c) (assign_field name v (c_fields c)) (c_observed c).

(** [c.add_trait(name, t)] followed by [setattr(c, name, v)] for a name that
    is not declared yet: the new trait comes last. *)
Definition add_trait (c : controller) (name : string) (f : field) : controller :=
  Controller (c_oid c) (c_fields c ++ [(name, f)]) (c_observed c).

Definition user_trait_names (c : controller) : list string :=
  map fst (c_fields c).

Definition export_to_dict (c : controller) : dict :=
  map (fun kf => (fst kf, fvalue (snd kf))) (c_fields c).

(** ** Configuration (StudyConfig and the attributes factory) *)

Definition pid := nat.
Definition eid := nat.

(** A registered [ProcessAttributes] subclass: what its constructor builds
    ([None]: the constructor raises). *)
Record attributes_class : Type := AttributesClass {
  ac_new : option (list (string * field))
}.

(** Static description of a process object. *)
Record proc_info : Type := ProcInfo {
  p_id : pid;
  p_name : string;
  p_context_name : option string
}.

(** A path completion engine: [attributes_to_path(process, parameter,
    attributes)], which returns a value ([None] when it resolves nothing)
    or raises. *)
Definition path_completion_engine : Type :=
  proc_info -> string -> controller -> result value.

(** The base class [PathCompletionEngine]. *)
Definition PathCompletionEngine : path_completion_engine :=
  fun _ _ _ => Returns VNone.

(** What [process.get_study_config()] exposes to the completion code:
    - whether ['AttributesConfig'] is among the modules;
    - [factory.get('process_attributes', name)] ([None]: [ValueError]);
    - whether every [factory.get('schema', ...)] of [_get_schemas] succeeds;
    - [factory.get('path_completion', ...)] followed by
      [get_path_completion_engine(process)] ([None]: [ValueError]).
    The ['process_completion'] factory of the configuration is not a field
    of this record: it is the parameter [process_completion] of the
    definitions whose name ends in [_registered]. *)
Record study_config : Type := StudyConfig {
  attributes_config : bool;
  process_attributes : string -> option attributes_class;
  schemas_found : bool;
  path_completion : option path_completion_engine
}.

(** ** Processes and pipelines *)

(** A process is atomic or a pipeline.  A pipeline has its [nodes]
    dictionary (a node carries a process or, like a switch, has no
    [process] attribute) and the result of
    [workflow_graph().topological_sort()]: for each entry the processes of
    the step (a nested pipeline unwrapped to its process). *)
Inductive process : Type :=
  | Atomic (info : proc_info) (cfg : study_config)
  | Pipeline (info : proc_info) (cfg : study_config)
      (nodes : list (string * option process))
      (graph : list (string * list process)).

Definition info_of (p : process) : proc_info :=
  match p with Atomic i _ => i | Pipeline i _ _ _ => i end.

Definition config_of (p : process) : study_config :=
  match p with Atomic _ c => c | Pipeline _ c _ _ => c end.

Definition is_pipeline (p : process) : bool :=
  match p with Atomic _ _ => false | Pipeline _ _ _ _ => true end.

Definition list_max (l : list nat) : nat := fold_right Nat.max 0 l.

(** Nesting depth of a process. *)
Fixpoint height (p : process) : nat :=
  match p with
  | Atomic _ _ => 0
  | Pipeline _ _ nodes graph =>
      S (Nat.max
           (list_max (map (fun n => match snd n with
                                    | Some c => height c
                                    | None => 0
                                    end) nodes))
           (list_max (map (fun g => list_max (map height (snd g))) graph)))
  end.

(** ** The store *)

(** A [ProcessCompletionEngine] instance; [capsul_attributes] is [None]
    until the trait of that name has been added. *)
Record engine : Type := Engine {
  e_name : option string;
  completion_ongoing : bool;
  capsul_attributes : option controller
}.

(** The mutable part of a process object: its own controller (the
    parameters) and the engine attached as [process.completion_engine]. *)
Record proc_state : Type := ProcState {
  p_controller : controller;
  completion_engine : option eid
}.

#[export] Instance engine_inhabited : Inhabited engine :=
  populate (Engine None false None).
#[export] Instance proc_state_inhabited : Inhabited proc_state :=
  populate (ProcState (Controller 0 [] false) None).

Record store : Type := Store {
  procs : gmap pid proc_state;
  engines : list engine;
  next_oid : oid
}.

Definition get_engine (st : store) (e : eid) : engine := engines st !!! e.

Definition set_engine (st : store) (e : eid) (en : engine) : store :=
  Store (procs st) (<[e := en]> (engines st)) (next_oid st).

Definition get_proc (st : store) (p : pid) : proc_state := procs st !!! p.

Definition set_proc (st : store) (p : pid) (ps : proc_state) : store :=
  Store (<[p := ps]> (procs st)) (engines st) (next_oid st).

Definition guard (st : store) (e : eid) : bool :=
  completion_ongoing (get_engine st e).

Definition attributes_of (st : store) (e : eid) : option controller :=
  capsul_attributes (get_engine st e).

Definition parameters_of (st : store) (p : pid) : controller :=
  p_controller (get_proc st p).

(** ** Calls made during a pass *)

(** How a nested [complete_parameters] call was made: from the
    [attributes_changed] handler, as the first attempt on a child of a
    pipeline, or as the second attempt on that child with a fresh engine. *)
Inductive how : Type := Notified | Child | Fallback.

(** A record of one nested [complete_parameters] call: the process and
    engine it ran on, its argument, the calls it made itself, and how it
    ended.  The record is an observation of the run; it changes nothing. *)
Inductive call : Type :=
  | Call (h : how) (target : pid) (eng : eid) (inputs : dict)
      (nested : list call) (result : outcome unit).

Definition call_how (c : call) : how := match c with Call h _ _ _ _ _ => h end.
Definition call_target (c : call) : pid := match c with Call _ t _ _ _ _ => t end.
Definition call_engine (c : call) : eid := match c with Call _ _ e _ _ _ => e end.
Definition call_inputs (c : call) : dict := match c with Call _ _ _ i _ _ => i end.
Definition call_nested (c : call) : list call := match c with Call _ _ _ _ n _ => n end.
Definition call_result (c : call) : outcome unit := match c with Call _ _ _ _ _ r => r end.

Definition how_eqb (a b : how) : bool :=
  match a, b with
  | Notified, Notified | Child, Child | Fallback, Fallback => true
  | _, _ => false
  end.

Definition calls_by (h : how) (l : list call) : list call :=
  filter (fun c => how_eqb (call_how c) h = true) l.

(** ** Computations over the store *)

Definition M (A : Type) : Type := store -> store * list call * outcome A.

Definition ret {A} (a : A) : M A := fun st => (st, [], Ok a).

Definition raise {A} : M A := fun st => (st, [], Raised).

Definition bind {A B} (m : M A) (f : A -> M B) : M B :=
  fun st =>
    let '(st1, l1, r) := m st in
    match r with
    | Ok a => let '(st2, l2, r2) := f a st1 in (st2, l1 ++ l2, r2)
    | Raised => (st1, l1, Raised)
    | OutOfFuel => (st1, l1, OutOfFuel)
    end.

Notation "x <- m ;; k" := (bind m (fun x => k))
  (at level 100, m at next level, right associativity).
Notation "m ;;; k" := (bind m (fun _ => k))
  (at level 100, right associativity).

(** [try: m  except: h] (a bare [except]). *)
Definition try_except {A} (m : M A) (h : M A) : M A :=
  fun st =>
    let '(st1, l1, r) := m st in
    match r with
    | Raised => let '(st2, l2, r2) := h st1 in (st2, l1 ++ l2, r2)
    | _ => (st1, l1, r)
    end.

(** Runs [m] and reports how it ended instead of raising. *)
Definition attempt {A} (m : M A) : M (option A) :=
  try_except (a <- m ;; ret (Some a)) (ret None).

Definition gets {A} (f : store -> A) : M A := fun st => (st, [], Ok (f st)).

Definition modify (f : store -> store) : M unit := fun st => (f st, [], Ok tt).

Definition recorded (h : how) (target : pid) (e : eid) (inputs : dict)
    (m : M unit) : M unit :=
  fun st =>
    let '(st1, l, r) := m st in
    (st1, [Call h target e inputs l r], r).

Definition for_each {A} (l : list A) (body : A -> M unit) : M unit :=
  (fix loop (l : list A) : M unit :=
     match l with
     | [] => ret tt
     | a :: l' => body a ;;; loop l'
     end) l.

(** ** Store primitives *)

(** [Controller()] / a [ProcessAttributes] constructor: a new object. *)
Definition new_controller (fields : list (string * field)) : M controller :=
  fun st =>
    (Store (procs st) (engines st) (S (next_oid st)), [],
     Ok (Controller (next_oid st) fields false)).

(** [ProcessCompletionEngine.__init__(process, name)]. *)
Definition new_engine (name : option string) : M eid :=
  fun st =>
    (Store (procs st) (engines st ++ [Engine name false None]) (next_oid st),
     [], Ok (length (engines st))).

Definition set_attributes (e : eid) (c : controller) : M unit :=
  modify (fun st =>
    let en := get_engine st e in
    set_engine st e (Engine (e_name en) (completion_ongoing en) (Some c))).

Definition set_completion_ongoing (e : eid) (b : bool) : M unit :=
  modify (fun st =>
    let en := get_engine st e in
    set_engine st e (Engine (e_name en) b (capsul_attributes en))).

(** Applies a mutation to the attribute set object of engine [e]. *)
Definition update_attributes (e : eid) (f : controller -> controller) : M unit :=
  modify (fun st =>
    let en := get_engine st e in
    match capsul_attributes en with
    | Some c =>
        set_engine st e (Engine (e_name en) (completion_ongoing en) (Some (f c)))
    | None => st
    end).

(** [setattr(process, name, v)]. *)
Definition process_setattr (p : pid) (name : string) (v : value) : M unit :=
  modify (fun st =>
    let ps := get_proc st p in
    set_proc st p (ProcState (assign (p_controller ps) name v)
                             (completion_engine ps))).

(** Modelled from the spec: [Controller.import_from_dict] belongs to soma
    and is not part of the sources at hand; it "imports the plain
    parameters directly onto the node", one assignment per entry. *)
Definition process_import_from_dict (p : pid) (d : dict) : M unit :=
  for_each d (fun kv => process_setattr p (fst kv) (snd kv)).

(** ** Process.set_parameter and Process.get_parameter *)

(** [is_trait_pathname(self.trait(name))]; the helper is applied to
    [None] when the name is not declared, and fails on it. *)
Definition set_parameter (c : controller) (name : string) (v : value)
  : result controller :=
  match v with
  | VNone =>
      match trait c name with
      | Some f =>
          if is_trait_pathname (ftrait f)
          then Returns (assign c name VUndefined)
          else Returns (assign c name v)
      | None => Raises
      end
  | _ => Returns (assign c name v)
  end.

Definition get_parameter (c : controller) (name : string) : option value :=
  getattr c name.

(** ** Factories *)

(** [ProcessCompletionEngine.get_completion_engine(process, name)] with the
    default [ProcessCompletionEngineFactory], that is when no
    ['process_completion'] factory is registered: the engine already
    attached to the process, else a new one, which is then attached.  On
    this path the call neither raises nor returns [None];
    [get_completion_engine_registered] is the method with the registered
    factory. *)
Definition get_completion_engine (p : process) (name : option string) : M eid :=
  ps <- gets (fun st => get_proc st (p_id (info_of p))) ;;
  match completion_engine ps with
  | Some e => ret e
  | None =>
      e <- new_engine name ;;
      modify (fun st =>
        let ps := get_proc st (p_id (info_of p)) in
        set_proc st (p_id (info_of p)) (ProcState (p_controller ps) (Some e))) ;;;
      ret e
  end.

(** [PathCompletionEngineFactory.get_path_completion_engine]: pure
    virtual, raises [RuntimeError]. *)
Definition PathCompletionEngineFactory_get_path_completion_engine
  : result path_completion_engine := Raises.

(** [ProcessCompletionEngine.get_path_completion_engine]. *)
Definition get_path_completion_engine (p : process)
  : result path_completion_engine :=
  let study_config := config_of p in
  let engine_factory :=
    if attributes_config study_config then path_completion study_config
    else None in
  match engine_factory with
  | Some pe => Returns pe
  | None => PathCompletionEngineFactory_get_path_completion_engine
  end.

(** [ProcessCompletionEngine.attributes_to_path]. *)
Definition attributes_to_path (p : process) (parameter : string)
    (attributes : controller) : result value :=
  match get_path_completion_engine p with
  | Returns pe => pe (info_of p) parameter attributes
  | Raises => Raises
  end.

Fixpoint first_found {A B} (get : A -> option B) (names : list A) : option B :=
  match names with
  | [] => None
  | name :: names' =>
      match get name with
      | Some b => Some b
      | None => first_found get names'
      end
  end.

(** The class selected by the loop over [names] in
    [get_attribute_values]: the first of the context name and the process
    name that is registered; [None] stands for the generic
    [ProcessAttributes]. *)
Definition select_attributes_class (p : process) : option attributes_class :=
  let study_config := config_of p in
  if attributes_config study_config then
    let names :=
      match p_context_name (info_of p) with
      | Some c => [c; p_name (info_of p)]
      | None => [p_name (info_of p)]
      end in
    first_found (process_attributes study_config) names
  else None.

(** ** ProcessCompletionEngine *)

Section Completion.

(** What the constructor of the generic [ProcessAttributes] class declares;
    the class belongs to [capsul.attributes.attributes_schema], which is not
    part of the sources at hand. *)
Variable ProcessAttributes : list (string * field).

(** Whether assigning [new] over [old] on a controller calls its
    ['anytrait'] handlers (the traits library decides this). *)
Variable notifies : value -> value -> bool.

(** The inner loop of the merge: every attribute of the child that the
    parent does not declare yet is added with the child's current value. *)
Definition merge_attributes (e : eid) (sub_attributes : controller) : M unit :=
  for_each (c_fields sub_attributes) (fun af =>
    attributes <- gets (fun st => attributes_of st e) ;;
    match attributes with
    | Some a =>
        match trait a (fst af) with
        | None => update_attributes e (fun a => add_trait a (fst af) (snd af))
        | Some _ => ret tt
        end
    | None => ret tt
    end).

(** The recursion of [get_attribute_values] is open in the next three
    definitions: [values_of] stands for the method itself on a child. *)
Section Merge.

Variable values_of : process -> eid -> M controller.

(** The attribute set of a child: from its own engine, else from a new
    engine of the parent's class, else none (the child is skipped). *)
Definition child_attribute_values (pname : string) (subprocess : process)
  : M (option controller) :=
  subprocess_compl <- get_completion_engine subprocess (Some pname) ;;
  attempt
    (try_except
       (values_of subprocess subprocess_compl)
       (subprocess_compl <- new_engine None ;;
        values_of subprocess subprocess_compl)).

(** The body of the loop over [self.process.nodes]. *)
Definition merge_node (e : eid) (name : string)
    (nn : string * option process) : M unit :=
  if String.eqb (fst nn) "" then ret tt
  else
    match snd nn with
    | Some subprocess =>
        sub <- child_attribute_values (name +:+ "." +:+ fst nn) subprocess ;;
        match sub with
        | Some sub_attributes => merge_attributes e sub_attributes
        | None => ret tt
        end
    | None => ret tt
    end.

(** [get_attribute_values] when the engine has no [capsul_attributes]
    trait yet. *)
Definition build_attribute_values (p : process) (e : eid) : M controller :=
  c0 <- new_controller [] ;;
  set_attributes e c0 ;;;
  (if schemas_found (config_of p) then ret tt else raise) ;;;
  let proc_attr_cls := select_attributes_class p in
  fields <- match proc_attr_cls with
            | Some cls =>
                match ac_new cls with
                | Some fs => ret fs
                | None => raise
                end
            | None => ret ProcessAttributes
            end ;;
  c <- new_controller fields ;;
  set_attributes e c ;;;
  match proc_attr_cls, p with
  | None, Pipeline info _ nodes _ =>
      for_each nodes (merge_node e (p_name info))
  | _, _ => ret tt
  end ;;;
  r <- gets (fun st => attributes_of st e) ;;
  match r with
  | Some c => ret c
  | None => raise
  end.

End Merge.

(** [ProcessCompletionEngine.get_attribute_values], on engine [e] serving
    process [p]. *)
Fixpoint get_attribute_values (p : process) (e : eid) {struct p} : M controller :=
  t <- gets (fun st => attributes_of st e) ;;
  match t with
  | Some c => ret c
  | None => build_attribute_values get_attribute_values p e
  end.

(** The recursion of [complete_parameters] is open here: [complete] stands
    for the method itself in the nested calls (on a child, or from the
    notification handler). *)
Section Pass.

Variable complete : process -> eid -> dict -> M unit.

(** [ProcessCompletionEngine.attributes_changed(obj, name, old, new)]. *)
Definition attributes_changed_with (p : process) (e : eid)
    (name : string) (old new : value) : M unit :=
  ongoing <- gets (fun st => guard st e) ;;
  if negb (String.eqb name "trait_added")
     && negb (String.eqb name "user_traits_changed")
     && negb ongoing
  then
    set_completion_ongoing e true ;;;
    recorded Notified (p_id (info_of p)) e
      [("capsul_attributes", VDict [(name, new)])]
      (complete p e [("capsul_attributes", VDict [(name, new)])]) ;;;
    set_completion_ongoing e false
  else ret tt.

(** [setattr(attributes, name, v)] on the attribute set of engine [e]: the
    assignment, then the handler when it is plugged and the assignment
    notifies. *)
Definition attributes_setattr (p : process) (e : eid) (name : string)
    (v : value) : M unit :=
  attributes <- gets (fun st => attributes_of st e) ;;
  match attributes with
  | Some a =>
      update_attributes e (fun a => assign a name v) ;;;
      match getattr a name with
      | Some old =>
          if c_observed a && notifies old v
          then attributes_changed_with p e name old v
          else ret tt
      | None => ret tt
      end
  | None => ret tt
  end.

(** Modelled from the spec: [Controller.import_from_dict] on the attribute
    set (soma, not part of the sources at hand): one assignment per entry. *)
Definition attributes_import_from_dict (p : process) (e : eid) (d : dict)
  : M unit :=
  for_each d (fun kv => attributes_setattr p e (fst kv) (snd kv)).

(** [ProcessCompletionEngine.set_parameters(process_inputs)]. *)
Definition set_parameters_with (p : process) (e : eid) (process_inputs : dict)
  : M unit :=
  dst_attributes <- get_attribute_values p e ;;
  match dict_get "capsul_attributes" process_inputs with
  | Some attributes =>
      if truthy attributes then
        match attributes with
        | VDict attributes =>
            let avail_attrib := user_trait_names dst_attributes in
            let attributes :=
              filter (fun kv => fst kv ∈ avail_attrib) attributes in
            attributes_import_from_dict p e attributes
        | _ => raise
        end
      else ret tt
  | None => ret tt
  end ;;;
  let process_inputs :=
    filter (fun kv => fst kv ≠ "capsul_attributes") process_inputs in
  process_import_from_dict (p_id (info_of p)) process_inputs.

(** One child of the traversal: the engine of the child, then the
    completion with the parent's values, retried once on a fresh engine. *)
Definition complete_child (name : string) (node_name : string)
    (attrib_values : dict) (subprocess : process) : M unit :=
  let pname := name +:+ "." +:+ node_name in
  subprocess_compl <- get_completion_engine subprocess (Some pname) ;;
  try_except
    (recorded Child (p_id (info_of subprocess)) subprocess_compl
       [("capsul_attributes", VDict attrib_values)]
       (complete subprocess subprocess_compl
          [("capsul_attributes", VDict attrib_values)]))
    (try_except
       (fresh <- new_engine None ;;
        recorded Fallback (p_id (info_of subprocess)) fresh
          [("capsul_attributes", VDict attrib_values)]
          (complete subprocess fresh
             [("capsul_attributes", VDict attrib_values)]))
       (ret tt)).

(** The traversal of a pipeline in topological order. *)
Definition complete_children (p : process) (e : eid) : M unit :=
  match p with
  | Pipeline info _ _ graph =>
      attributes <- get_attribute_values p e ;;
      let attrib_values := export_to_dict attributes in
      for_each graph (fun g =>
        for_each (snd g) (complete_child (p_name info) (fst g) attrib_values))
  | Atomic _ _ => ret tt
  end.

(** The last phase: the parameters of the process itself. *)
Definition complete_own_parameters (p : process) (e : eid) : M unit :=
  attributes <- get_attribute_values p e ;;
  names <- gets (fun st => user_trait_names (parameters_of st (p_id (info_of p)))) ;;
  for_each names (fun pname =>
    match attributes_to_path p pname attributes with
    | Returns VNone => ret tt
    | Returns value => process_setattr (p_id (info_of p)) pname value
    | Raises => ret tt
    end).

(** [ProcessCompletionEngine.complete_parameters(process_inputs)]. *)
Definition complete_parameters_with (p : process) (e : eid)
    (process_inputs : dict) : M unit :=
  set_parameters_with p e process_inputs ;;;
  complete_children p e ;;;
  complete_own_parameters p e.

End Pass.

(** No fuel left: the nested call does not return. *)
Definition diverge : process -> eid -> dict -> M unit :=
  fun _ _ _ st => (st, [], OutOfFuel).

Fixpoint complete_parameters (fuel : nat) : process -> eid -> dict -> M unit :=
  match fuel with
  | O => diverge
  | S fuel' => complete_parameters_with (complete_parameters fuel')
  end.

Definition set_parameters (fuel : nat) := set_parameters_with (complete_parameters fuel).

Definition attributes_changed (fuel : nat) :=
  attributes_changed_with (complete_parameters fuel).

End Completion.

(** ** Completion engines from a registered factory *)

(** What [get_completion_engine(process, name)] of a factory registered
    under ['process_completion'] does, as far as the code that calls it can
    tell: it raises, it returns [None], or it returns an engine.  The
    registered factories are not part of the sources at hand and the model
    has engines of the base class only: the engine of [FactoryEngine] is the
    one that [ProcessCompletionEngineFactory] returns. *)
Inductive factory_answer : Type :=
  | FactoryRaises
  | FactoryNone
  | FactoryEngine.

Definition completion_factory : Type :=
  proc_info -> option string -> factory_answer.

(** [ProcessCompletionEngineFactory.get_completion_engine(process, name)]:
    the engine that the process has, else a new one. *)
Definition ProcessCompletionEngineFactory_get_completion_engine
    (p : process) (name : option string) : M eid :=
  ps <- gets (fun st => get_proc st (p_id (info_of p))) ;;
  match completion_engine ps with
  | Some e => ret e
  | None => new_engine name
  end.

Section Registered.

(** [attributes_factory.get('process_completion',
    study_config.process_completion)] in a study configuration; [None]
    when the lookup raises [ValueError]. *)
Variable process_completion : study_config -> option completion_factory.

Variable ProcessAttributes : list (string * field).
Variable notifies : value -> value -> bool.

(** [ProcessCompletionEngine.get_completion_engine(process, name)], the
    whole of it: the registered factory when there is one, else the
    default one; an engine that is returned is set into the process. *)
Definition get_completion_engine_registered (p : process) (name : option string)
  : M (option eid) :=
  let study_config := config_of p in
  let engine_factory :=
    if attributes_config study_config then process_completion study_config
    else None in
  completion_engine <-
    match engine_factory with
    | Some factory =>
        match factory (info_of p) name with
        | FactoryRaises => raise
        | FactoryNone => ret None
        | FactoryEngine =>
            e <- ProcessCompletionEngineFactory_get_completion_engine p name ;;
            ret (Some e)
        end
    | None =>
        e <- ProcessCompletionEngineFactory_get_completion_engine p name ;;
        ret (Some e)
    end ;;
  match completion_engine with
  | Some e =>
      modify (fun st =>
        let ps := get_proc st (p_id (info_of p)) in
        set_proc st (p_id (info_of p)) (ProcState (p_controller ps) (Some e))) ;;;
      ret (Some e)
  | None => ret None
  end.

Section MergeRegistered.

Variable values_of : process -> eid -> M controller.

(** The attribute set of a child.  The engine of the child is asked for
    before the [try] block; calling [get_attribute_values] on [None]
    raises inside it. *)
Definition child_attribute_values_registered (pname : string)
    (subprocess : process) : M (option controller) :=
  subprocess_compl <- get_completion_engine_registered subprocess (Some pname) ;;
  attempt
    (try_except
       match subprocess_compl with
       | Some ce => values_of subprocess ce
       | None => raise
       end
       (subprocess_compl <- new_engine None ;;
        values_of subprocess subprocess_compl)).

Definition merge_node_registered (e : eid) (name : string)
    (nn : string * option process) : M unit :=
  if String.eqb (fst nn) "" then ret tt
  else
    match snd nn with
    | Some subprocess =>
        sub <- child_attribute_values_registered (name +:+ "." +:+ fst nn)
                 subprocess ;;
        match sub with
        | Some sub_attributes => merge_attributes e sub_attributes
        | None => ret tt
        end
    | None => ret tt
    end.

Definition build_attribute_values_registered (p : process) (e : eid)
  : M controller :=
  c0 <- new_controller [] ;;
  set_attributes e c0 ;;;
  (if schemas_found (config_of p) then ret tt else raise) ;;;
  let proc_attr_cls := select_attributes_class p in
  fields <- match proc_attr_cls with
            | Some cls =>
                match ac_new cls with
                | Some fs => ret fs
                | None => raise
                end
            | None => ret ProcessAttributes
            end ;;
  c <- new_controller fields ;;
  set_attributes e c ;;;
  match proc_attr_cls, p with
  | None, Pipeline info _ nodes _ =>
      for_each nodes (merge_node_registered e (p_name info))
  | _, _ => ret tt
  end ;;;
  r <- gets (fun st => attributes_of st e) ;;
  match r with
  | Some c => ret c
  | None => raise
  end.

End MergeRegistered.

(** [ProcessCompletionEngine.get_attribute_values]. *)
Fixpoint get_attribute_values_registered (p : process) (e : eid) {struct p}
  : M controller :=
  t <- gets (fun st => attributes_of st e) ;;
  match t with
  | Some c => ret c
  | None =>
      build_attribute_values_registered get_attribute_values_registered p e
  end.

Section PassRegistered.

Variable complete : process -> eid -> dict -> M unit.

(** [ProcessCompletionEngine.set_parameters(process_inputs)]. *)
Definition set_parameters_registered_with (p : process) (e : eid)
    (process_inputs : dict) : M unit :=
  dst_attributes <- get_attribute_values_registered p e ;;
  match dict_get "capsul_attributes" process_inputs with
  | Some attributes =>
      if truthy attributes then
        match attributes with
        | VDict attributes =>
            let avail_attrib := user_trait_names dst_attributes in
            let attributes :=
              filter (fun kv => fst kv ∈ avail_attrib) attributes in
            attributes_import_from_dict notifies complete p e attributes
        | _ => raise
        end
      else ret tt
  | None => ret tt
  end ;;;
  let process_inputs :=
    filter (fun kv => fst kv ≠ "capsul_attributes") process_inputs in
  process_import_from_dict (p_id (info_of p)) process_inputs.

(** One child of the traversal.  The engine of the child is asked for
    before the [try] block: when that raises, nothing catches it.  Inside
    the block, the completion on [None] raises, and so does whatever the
    engine makes of it; then the completion is tried once more on a new
    engine of the class of the parent, and what this raises is dropped. *)
Definition complete_child_registered (name : string) (node_name : string)
    (attrib_values : dict) (subprocess : process) : M unit :=
  let pname := name +:+ "." +:+ node_name in
  subprocess_compl <- get_completion_engine_registered subprocess (Some pname) ;;
  try_except
    match subprocess_compl with
    | Some ce =>
        recorded Child (p_id (info_of subprocess)) ce
          [("capsul_attributes", VDict attrib_values)]
          (complete subprocess ce
             [("capsul_attributes", VDict attrib_values)])
    | None => raise
    end
    (try_except
       (fresh <- new_engine None ;;
        recorded Fallback (p_id (info_of subprocess)) fresh
          [("capsul_attributes", VDict attrib_values)]
          (complete subprocess fresh
             [("capsul_attributes", VDict attrib_values)]))
       (ret tt)).

(** The traversal of a pipeline in topological order. *)
Definition complete_children_registered (p : process) (e : eid) : M unit :=
  match p with
  | Pipeline info _ _ graph =>
      attributes <- get_attribute_values_registered p e ;;
      let attrib_values := export_to_dict attributes in
      for_each graph (fun g =>
        for_each (snd g)
          (complete_child_registered (p_name info) (fst g) attrib_values))
  | Atomic _ _ => ret tt
  end.

(** The last phase: the parameters of the process itself. *)
Definition complete_own_parameters_registered (p : process) (e : eid) : M unit :=
  attributes <- get_attribute_values_registered p e ;;
  names <- gets (fun st => user_trait_names (parameters_of st (p_id (info_of p)))) ;;
  for_each names (fun pname =>
    match attributes_to_path p pname attributes with
    | Returns VNone => ret tt
    | Returns value => process_setattr (p_id (info_of p)) pname value
    | Raises => ret tt
    end).

(** [ProcessCompletionEngine.complete_parameters(process_inputs)]. *)
Definition complete_parameters_registered_with (p : process) (e : eid)
    (process_inputs : dict) : M unit :=
  set_parameters_registered_with p e process_inputs ;;;
  complete_children_registered p e ;;;
  complete_own_parameters_registered p e.

End PassRegistered.

Fixpoint complete_parameters_registered (fuel : nat)
  : process -> eid -> dict -> M unit :=
  match fuel with
  | O => diverge
  | S fuel' =>
      complete_parameters_registered_with (complete_parameters_registered fuel')
  end.

Definition set_parameters_registered (fuel : nat) :=
  set_parameters_registered_with (complete_parameters_registered fuel).

(** Whether asking for the engine of [p] under [name] raises: a factory is
    registered in the study configuration of [p] and raises on it. *)
Definition construction_raises (p : process) (name : string) : bool :=
  if attributes_config (config_of p) then
    match process_completion (config_of p) with
    | Some factory =>
        match factory (info_of p) (Some name) with
        | FactoryRaises => true
        | _ => false
        end
    | None => false
    end
  else false.

(** Every registered factory returns engines, as the default one does. *)
Definition factories_return_engines : Prop :=
  forall cfg factory info name,
    process_completion cfg = Some factory ->
    factory info name = FactoryEngine.

End Registered.

(** ** Observations on stores and call records *)

(** [e] is an engine of the store. *)
Definition allocated (st : store) (e : eid) : Prop := e < length (engines st).

(** The number of passes that the [attributes_changed] handler of engine
    [e] started, at any depth of a list of call records. *)
Fixpoint notified_passes (e : eid) (c : call) : nat :=
  match c with
  | Call h _ e' _ nested _ =>
      (match h with
       | Notified => if Nat.eqb e' e then 1 else 0
       | _ => 0
       end)
      + (fix total (l : list call) : nat :=
           match l with
           | [] => 0
           | c' :: l' => notified_passes e c' + total l'
           end) nested
  end.

Fixpoint count_notified (e : eid) (l : list call) : nat :=
  match l with
  | [] => 0
  | c :: l' => notified_passes e c + count_notified e l'
  end.

Definition raised (c : call) : bool :=
  match call_result c with Raised => true | _ => false end.

(** The processes visited by the traversal of a pipeline, in order. *)
Definition children (p : process) : list process :=
  match p with
  | Pipeline _ _ _ graph => concat (map snd graph)
  | Atomic _ _ => []
  end.

(** The merge of a child's attributes into a parent's, as the
    specification words it: every attribute name not already present is
    copied with its current value, in the child's order. *)
Definition merge_first_wins (parent child : list (string * field))
  : list (string * field) :=
  fold_left
    (fun acc af =>
       match lookup_field (fst af) acc with
       | None => acc ++ [af]
       | Some _ => acc
       end)
    child parent.

(** ** Invariants and totality of computations *)

(** [m] keeps the store within [I], and the calls it records satisfy [Q]. *)
Definition preserves (I : store -> Prop) (Q : list call -> Prop)
    {A} (m : M A) : Prop :=
  forall st, I st -> I (m st).1.1 /\ Q (m st).1.2.

(** [m] never runs out of fuel from a store of [I]. *)
Definition total (I : store -> Prop) {A} (m : M A) : Prop :=
  forall st, I st -> (m st).2 <> OutOfFuel.

Definition nodes_of (p : process) : list (string * option process) :=
  match p with
  | Pipeline _ _ nodes _ => nodes
  | Atomic _ _ => []
  end.

(** The store updates made while attribute sets are built: a new object
    identity, a new engine, the attribute set of an engine of [touch], a
    new engine attached to a process that had none.  An invariant closed
    under them is kept by [get_attribute_values]. *)
Record closed_under_building (I : store -> Prop) (touch : eid -> Prop) : Prop := {
  cl_oid : forall st n, I st -> I (Store (procs st) (engines st) n);
  cl_new_engine : forall st en,
    I st -> I (Store (procs st) (engines st ++ [en]) (next_oid st));
  cl_attributes : forall st e c,
    I st -> touch e ->
    I (set_engine st e (Engine (e_name (get_engine st e))
                               (completion_ongoing (get_engine st e)) (Some c)));
  cl_attach : forall st p name,
    I st -> completion_engine (get_proc st p) = None ->
    I (set_proc (Store (procs st) (engines st ++ [Engine name false None])
                       (next_oid st))
                p (ProcState (p_controller (get_proc st p))
                             (Some (length (engines st)))));
  cl_touch : forall st e, I st -> attributes_of st e = None -> touch e
}.

(** The further updates of a completion pass: the guard of an engine of
    [touchg], and an assignment to a parameter of a process. *)
Record closed_under_completion (I : store -> Prop) (touchg : eid -> Prop)
    : Prop := {
  cl_building : closed_under_building I (fun _ => True);
  cl_guard : forall st e b,
    I st -> touchg e ->
    I (set_engine st e (Engine (e_name (get_engine st e)) b
                               (capsul_attributes (get_engine st e))));
  cl_touchg : forall st e, I st -> guard st e = false -> touchg e;
  cl_parameter : forall st p name v,
    I st ->
    I (set_proc st p (ProcState (assign (p_controller (get_proc st p)) name v)
                                (completion_engine (get_proc st p))))
}.

(** A property of call records kept by sequencing and by the calls a pass
    records, a notified one only on an engine of [touchg]. *)
Record closed_calls (Q : list call -> Prop) (touchg : eid -> Prop) : Prop := {
  q_nil : Q [];
  q_app : forall l1 l2, Q l1 -> Q l2 -> Q (l1 ++ l2);
  q_call : forall h t e i l r,
    (h = Notified -> touchg e) -> Q l -> Q [Call h t e i l r]
}.

(** The invariant that holds of every store. *)
Abbreviation anywhere := (fun _ : store => True).

(** The guard of engine [e] is set. *)
Definition guarded (e : eid) (st : store) : Prop :=
  allocated st e /\ guard st e = true.

(** The calls recorded by a traversal that visits the processes [cs] in
    this order, each with [inputs]: one first attempt per process, a second
    attempt exactly for the first attempts that raised, and no notified
    pass of the traversing engine. *)
Definition visits (inputs : dict) (cs : list process) (l : list call) : Prop :=
  map (fun c => (call_target c, call_inputs c)) (calls_by Child l)
    = map (fun c => (p_id (info_of c), inputs)) cs
  /\ map call_target (calls_by Fallback l)
    = map call_target (filter (fun c => raised c = true) (calls_by Child l))
  /\ calls_by Notified l = [].

(** Every call of the list was made by a notification handler. *)
Definition notified_only (l : list call) : Prop :=
  Forall (fun c => call_how c = Notified) l.

(** The attribute set held by the engine of the process of a node; none
    for a node that the merge skips. *)
Definition contribution (st : store) (nn : string * option process)
  : option controller :=
  if String.eqb (fst nn) "" then None
  else
    match snd nn with
    | Some c =>
        match completion_engine (get_proc st (p_id (info_of c))) with
        | Some ce => attributes_of st ce
        | None => None
        end
    | None => None
    end.

Definition contributions (st : store) (nodes : list (string * option process))
  : list controller :=
  omap (contribution st) nodes.

(** Between two stores, only the attribute set of [e] and the counter of
    object identities may differ. *)
Definition only_attributes_changed (e : eid) (st st' : store) : Prop :=
  procs st' = procs st
  /\ length (engines st') = length (engines st)
  /\ forall e', e' <> e -> get_engine st' e' = get_engine st e'.

(** The engine [ce] is the [completion_engine] of process [q]. *)
Definition attached (st : store) (q : pid) (ce : eid) : Prop :=
  completion_engine (get_proc st q) = Some ce.

(** Every engine attached to a process is an engine of the store. *)
Definition well_attached (st : store) : Prop :=
  forall q ce, attached st q ce -> allocated st ce.

(** Whether the attribute set of a process can be built: the schemas are
    found and the constructor of the selected class does not raise. *)
Definition buildable (p : process) : bool :=
  schemas_found (config_of p)
  && match select_attributes_class p with
     | Some cls => match ac_new cls with Some _ => true | None => false end
     | None => true
     end.

(** From [st] to [st']: attachments are kept, none is made to [e], and
    the attribute sets of the engines other than [e] are kept. *)
Definition stable (e : eid) (st st' : store) : Prop :=
  (well_attached st -> well_attached st')
  /\ (forall q ce, attached st q ce -> attached st' q ce)
  /\ (forall ce sub,
        attributes_of st ce = Some sub -> ce <> e ->
        attributes_of st' ce = Some sub)
  /\ (allocated st e -> forall q, attached st' q e -> attached st q e).

(** ** Sample configurations *)

Module Sample.

(** Every assignment notifies. *)
Definition always : value -> value -> bool := fun _ _ => true.

(** A path completion engine in the manner of a file organization model:
    [/data/<subject>/<process>_<parameter>]. *)
Definition subject_paths : path_completion_engine :=
  fun info parameter attributes =>
    match getattr attributes "subject" with
    | Some (VStr s) =>
        Returns (VStr ("/data/" +:+ s +:+ "/" +:+ p_name info
                       +:+ "_" +:+ parameter))
    | _ => Returns VNone
    end.

(** The registered attribute classes: the constructor of the class of
    ["broken"] raises, ["merged"] has no class of its own. *)
Definition classes (name : string) : option attributes_class :=
  if String.eqb name "broken" then Some (AttributesClass None)
  else if String.eqb name "merged" then None
  else if String.eqb name "c0" then
    Some (AttributesClass (Some [("A", Field Int (VInt 0))]))
  else if String.eqb name "c1" then
    Some (AttributesClass (Some [("A", Field Int (VInt 1))]))
  else if String.eqb name "c2" then
    Some (AttributesClass (Some [("A", Field Int (VInt 2))]))
  else Some (AttributesClass (Some [("subject", Field Str (VStr "s0"))])).

Definition config : study_config :=
  StudyConfig true classes true (Some subject_paths).

(** The same with the base path completion engine. *)
Definition base_config : study_config :=
  StudyConfig true classes true (Some PathCompletionEngine).

(** No path completion is configured. *)
Definition bare_config : study_config :=
  StudyConfig true classes true None.

Definition file_parameter (name : string) : string * field :=
  (name, Field File VUndefined).

Definition state (parameters : list (string * field)) (e : option eid)
  : proc_state :=
  ProcState (Controller 0 parameters false) e.

(** A pipeline of three steps; the attribute set of the second cannot be
    built. *)
Definition n1 : process := Atomic (ProcInfo 1 "n1" None) config.
Definition broken : process := Atomic (ProcInfo 2 "broken" None) config.
Definition n3 : process := Atomic (ProcInfo 3 "n3" None) config.

Definition pipe : process :=
  Pipeline (ProcInfo 0 "pipe" None) config
    [("", None); ("a", Some n1); ("b", Some broken); ("c", Some n3)]
    [("a", [n1]); ("b", [broken]); ("c", [n3])].

Definition pipe_store : store :=
  Store (list_to_map
           [(0, state [] (Some 0));
            (1, state [file_parameter "output"] None);
            (2, state [file_parameter "output"] None);
            (3, state [file_parameter "input"] None)])
        [Engine (Some "pipe") false None] 1.

Definition subject_s1 : dict :=
  [("capsul_attributes", VDict [("subject", VStr "s1")])].

(** A pipeline without an attribute class of its own, whose three children
    all declare the attribute [A]. *)
Definition c0 : process := Atomic (ProcInfo 11 "c0" None) config.
Definition c1 : process := Atomic (ProcInfo 12 "c1" None) config.
Definition c2 : process := Atomic (ProcInfo 13 "c2" None) config.

Definition merged_nodes : list (string * option process) :=
  [("", None); ("x", Some c0); ("y", Some c1); ("z", Some c2)].

Definition merged : process :=
  Pipeline (ProcInfo 10 "merged" None) config merged_nodes
    [("x", [c0]); ("y", [c1]); ("z", [c2])].

(** The engine of the pipeline is engine 0; the children have their
    engines and attribute sets, with the values 0, 1 and 2 for [A]. *)
Definition merged_store : store :=
  Store (list_to_map
           [(10, state [] (Some 0));
            (11, state [] (Some 1));
            (12, state [] (Some 2));
            (13, state [] (Some 3))])
        [Engine (Some "merged") false None;
         Engine (Some "merged.x") false
           (Some (Controller 1 [("A", Field Int (VInt 0))] false));
         Engine (Some "merged.y") false
           (Some (Controller 2 [("A", Field Int (VInt 1))] false));
         Engine (Some "merged.z") false
           (Some (Controller 3 [("A", Field Int (VInt 2))] false))]
        4.

(** A single process whose engine has an attribute set under
    observation. *)
Definition solo : process := Atomic (ProcInfo 1 "n1" None) config.
Definition bare_solo : process := Atomic (ProcInfo 1 "n1" None) bare_config.
Definition base_solo : process := Atomic (ProcInfo 1 "n1" None) base_config.

Definition solo_attributes : controller :=
  Controller 1 [("subject", Field Str (VStr "s0"))] true.

Definition solo_store : store :=
  Store (list_to_map [(1, state [file_parameter "output"] (Some 0))])
        [Engine (Some "n1") false (Some solo_attributes)] 2.

(** A process whose attribute class cannot be built, with a new engine. *)
Definition broken_store : store :=
  Store (list_to_map [(2, state [file_parameter "output"] (Some 0))])
        [Engine (Some "broken") false None] 1.

(** A registered ['process_completion'] factory that raises on the process
    of the given name and returns engines for the others. *)
Definition refuses (name : string) : completion_factory :=
  fun info _ =>
    if String.eqb (p_name info) name then FactoryRaises else FactoryEngine.

(** The attributes factory of the study configuration: with a factory
    that refuses ["broken"], and with none. *)
Definition registered : study_config -> option completion_factory :=
  fun _ => Some (refuses "broken").

Definition unregistered : study_config -> option completion_factory :=
  fun _ => None.

End Sample.

(** ** Further observations on passes *)

(** [m'] does what [m] does wherever [m] does not run out of fuel. *)
Definition settles {A} (m m' : M A) : Prop :=
  forall st, (m st).2 <> OutOfFuel -> m' st = m st.

(** The assignments of a dictionary, one after the other. *)
Definition assign_all (c : controller) (d : dict) : controller :=
  fold_left (fun c kv => assign c (fst kv) (snd kv)) d c.

(** The value of [name] after the assignments of [d] in order, [old]
    being its value before: the last value that [d] gives for [name]. *)
Definition assigned (d : dict) (name : string) (old : value) : value :=
  fold_left (fun old kv => if String.eqb name (fst kv) then snd kv else old) d old.

(** The entries of [attrs] that [set_parameters] imports into [c]. *)
Definition declared_in (c : controller) (attrs : dict) : dict :=
  filter (fun kv => fst kv ∈ user_trait_names c) attrs.

(** The plain parameters of the argument of [set_parameters]. *)
Definition plain_parameters (process_inputs : dict) : dict :=
  filter (fun kv => fst kv ≠ "capsul_attributes") process_inputs.

(** The value of parameter [pname] after the last phase of a pass run with
    the attribute set [a], [old] being its value before. *)
Definition resolved (p : process) (a : controller) (pname : string)
    (old : value) : value :=
  match attributes_to_path p pname a with
  | Returns VNone => old
  | Returns v => v
  | Raises => old
  end.

(** From [st] to [st']: only the attribute set of engine [e] and the
    parameters of process [q] may differ. *)
Definition only_completed (e : eid) (q : pid) (st st' : store) : Prop :=
  length (engines st') = length (engines st)
  /\ (forall e', e' <> e -> get_engine st' e' = get_engine st e')
  /\ guard st' e = guard st e
  /\ (forall q', q' <> q -> get_proc st' q' = get_proc st q')
  /\ completion_engine (get_proc st' q) = completion_engine (get_proc st q).

(** A child that a pass of engine [e] on process [q] completes at its
    first attempt: a process that is not a pipeline, other than [q], served
    by an engine other than [e] that holds an attribute set without
    handler. *)
Definition ready (st : store) (e : eid) (q : pid) (c : process) : Prop :=
  is_pipeline c = false
  /\ p_id (info_of c) <> q
  /\ exists ce sc,
       attached st (p_id (info_of c)) ce /\ ce <> e
       /\ attributes_of st ce = Some sc /\ c_observed sc = false.

(** The processes of [cs] are distinct objects served by distinct
    engines. *)
Definition apart (st : store) (cs : list process) : Prop :=
  NoDup (map (fun c => p_id (info_of c)) cs)
  /\ NoDup (map (fun c => completion_engine (get_proc st (p_id (info_of c)))) cs).

(** The steps of the traversal with the name of their graph entry. *)
Definition steps (graph : list (string * list process)) : list (string * process) :=
  concat (map (fun g => map (fun c => (fst g, c)) (snd g)) graph).

(** What the completion of a child with the values [av] leaves: the
    attribute set [sc] of its engine updated with the values it declares,
    and the paths resolved from that. *)
Definition child_completed (av : dict) (c : process) (ce : eid) (sc : controller)
    (st st' : store) : Prop :=
  let sc' := assign_all sc (declared_in sc av) in
  attributes_of st' ce = Some sc'
  /\ forall pname f,
       trait (parameters_of st (p_id (info_of c))) pname = Some f ->
       trait (parameters_of st' (p_id (info_of c))) pname
       = Some (Field (ftrait f) (resolved c sc' pname (fvalue f))).


(** ** capsul/study_config/config_utils.py *)

(** Strings are Python 2 byte strings; [os.linesep] is the POSIX ["\n"]
    (the commands that [environment] runs are POSIX ones). *)
Definition newline : ascii := "010"%char.
Definition escape : ascii := "027"%char.

(** [s.split("\n")]. *)
Fixpoint split_lines (s : string) : list string :=
  match s with
  | EmptyString => [EmptyString]
  | String c s' =>
      if Ascii.eqb c newline then EmptyString :: split_lines s'
      else match split_lines s' with
           | line :: lines => String c line :: lines
           | [] => [String c EmptyString]
           end
  end.

(** [s.replace(old, empty)] for a non-empty [old]: the occurrences of
    [old] are removed from left to right; [skip] counts the characters of the
    occurrence at hand that are still to be dropped. *)
Fixpoint remove_from (old : string) (skip : nat) (s : string) : string :=
  match s with
  | EmptyString => EmptyString
  | String c s' =>
      match skip with
      | S n => remove_from old n s'
      | O =>
          if String.prefix old s
          then remove_from old (String.length old - 1) s'
          else String c (remove_from old 0 s')
      end
  end.

Definition remove_all (old s : string) : string := remove_from old 0 s.

(** The classes [\w] and [\s] of [re] on byte strings, without flags:
    [[a-zA-Z0-9_]] and [[ \t\n\r\f\v]]. *)
Definition is_word (c : ascii) : bool :=
  let n := nat_of_ascii c in
  ((48 <=? n) && (n <=? 57) || (65 <=? n) && (n <=? 90)
   || (97 <=? n) && (n <=? 122) || (n =? 95))%nat.

Definition is_space (c : ascii) : bool :=
  let n := nat_of_ascii c in
  ((n =? 32) || (9 <=? n) && (n <=? 13))%nat.

Fixpoint all_chars (P : ascii -> bool) (s : string) : bool :=
  match s with
  | EmptyString => true
  | String c s' => P c && all_chars P s'
  end.

(** The longest prefix of word characters, and what follows it. *)
Fixpoint word_prefix (s : string) : string * string :=
  match s with
  | EmptyString => (EmptyString, EmptyString)
  | String c s' =>
      if is_word c then
        let '(w, rest) := word_prefix s' in (String c w, rest)
      else (EmptyString, s)
  end.

(** [s] without its last character when that is a newline: where [$]
    matches besides the end of the string. *)
Fixpoint chomp (s : string) : string :=
  match s with
  | EmptyString => EmptyString
  | String c EmptyString => if Ascii.eqb c newline then EmptyString else s
  | String c s' => String c (chomp s')
  end.

(** [re.match] of a line against the pattern of [environment]: the start
    of the line, a first group [\w+], the character [=], a second group
    of any number of [\S], and [$].  The result is the two groups of the
    match, or [None].  No word character is [=], so the first group is the
    longest prefix of word characters. *)
Definition match_assignment (line : string) : option (string * string) :=
  match word_prefix line with
  | (String c w, String sep rest) =>
      if Ascii.eqb sep "="%char && all_chars (fun c => negb (is_space c)) (chomp rest)
      then Some (String c w, chomp rest)
      else None
  | _ => None
  end.

(** The body of the loop of [environment] over the lines of the output. *)
Definition parse_line (environment : gmap string string) (line : string)
  : gmap string string :=
  let line :=
    if String.prefix "export" line
    then remove_all "'" (remove_all "export " line)
    else line in
  match match_assignment line with
  | Some (name, value) =>
      if String.eqb name "PWD" then environment
      else <[name := value]> environment
  | None => environment
  end.

(** [environment(sh_file)], given what the shell that sourced the file and
    printed its environment returned: its return code and its output. *)
Definition environment (returncode : Z) (stdout : string)
  : result (gmap string string) :=
  if negb (Z.eqb returncode 0) then Raises
  else Returns (fold_left parse_line (split_lines stdout) ∅).

(** [s[:s.index(c)]] when [c] is in [s], else [s]. *)
Fixpoint before (c : ascii) (s : string) : string :=
  match s with
  | EmptyString => EmptyString
  | String c' s' => if Ascii.eqb c' c then EmptyString else String c' (before c s')
  end.

(** [find_spm(matlab, matlab_path)], given the output of MATLAB; [None]:
    the executable could not be started ([OSError]). *)
Definition find_spm (launched : option string) : result string :=
  match launched with
  | None => Raises
  | Some stdout =>
      let last_line := default EmptyString (last (split_lines stdout)) in
      let last_line := before escape last_line in
      if String.eqb last_line "" then Raises else Returns last_line
  end.

(** The output of [printenv] for the variables [vars]. *)
Definition printenv (vars : list (string * string)) : string :=
  fold_right (fun nv out => fst nv +:+ "=" +:+ snd nv +:+ String newline out)
    EmptyString vars.

(** A name that the pattern accepts: word characters, at least one. *)
Definition is_name (s : string) : bool :=
  negb (String.eqb s "") && all_chars is_word s.

(** A string without whitespace. *)
Definition is_token (s : string) : bool :=
  all_chars (fun c => negb (is_space c)) s.

(** The line that [printenv] prints for a variable. *)
Definition printed (nv : string * string) : string := fst nv +:+ "=" +:+ snd nv.

(** The value under which the loop stores a variable printed as
    [name=value]: a line that begins with [export] loses its quotes. *)
Definition read_back (name value : string) : string :=
  if String.prefix "export" (name +:+ "=" +:+ value)
  then remove_all "'" value
  else value.

(** What [environment] can return. *)
Definition well_read (env : gmap string string) : Prop :=
  env !! "PWD" = None
  /\ forall name value,
       env !! name = Some value -> is_name name = true /\ is_token value = true.


(** ** capsul/process/process.py: Process.__call__ *)

(** The exceptions that [__call__] and [_run_process] can end in;
    [Failure] stands for what the processing itself raises. *)
Inductive exception : Type :=
  | TypeError
  | AttributeError
  | NotImplementedError
  | Failure.

(** A call that ends in a value or in an exception of a known class. *)
Inductive ending (A : Type) : Type :=
  | Done (a : A)
  | Raise (e : exception).
Arguments Done {A} a.
Arguments Raise {A} e.

(** What a class derived from [Process] redefines: [get_commandline], and
    [_run_process], which may change the parameters of the instance. *)
Record process_class : Type := ProcessClass {
  get_commandline : option (controller -> list string);
  run_process : option (controller -> controller * ending value)
}.

(** [ProcessResult]; its field [process] holds the class. *)
Record process_result : Type := ProcessResult {
  pr_process : process_class;
  pr_runtime : dict;
  pr_returncode : value;
  pr_inputs : dict;
  pr_outputs : dict
}.

(** What [__call__] reads from the system and from the instance: the two
    readings of the clock, the working directory, the environment, the
    host name, [self.versions], the [output] metadata of the traits
    ([None]: a trait without it), and what [subprocess.check_call] does
    ([false]: it raises). *)
Record call_context : Type := CallContext {
  start_time : string;
  end_time : string;
  cwd : string;
  environ : dict;
  hostname : string;
  versions : dict;
  trait_output : string -> option bool;
  check_call : list string -> bool
}.

(** [d[k] = v]. *)
Fixpoint dict_set (k : string) (v : value) (d : dict) : dict :=
  match d with
  | [] => [(k, v)]
  | (k', v') :: d' =>
      if String.eqb k k' then (k, v) :: d' else (k', v') :: dict_set k v d'
  end.

(** The message of the [TypeError] of [__call__]: the source asks the
    string for its attribute [foramt], which [str] does not have. *)
Definition unexpected_keyword_message (arg_name : string) : ending string :=
  Raise AttributeError.

(** The loop of [__call__] over its keyword arguments, in their iteration
    order. *)
Fixpoint set_keywords (c : controller) (kwargs : dict) : controller * ending unit :=
  match kwargs with
  | [] => (c, Done tt)
  | (arg_name, arg_val) :: kwargs' =>
      if decide (arg_name ∈ user_trait_names c)
      then set_keywords (assign c arg_name arg_val) kwargs'
      else
        match unexpected_keyword_message arg_name with
        | Done _ => (c, Raise TypeError)
        | Raise e => (c, Raise e)
        end
  end.

(** [Process._run_process], or the method that the class redefines. *)
Definition _run_process (ctx : call_context) (cls : process_class) (c : controller)
  : controller * ending value :=
  match run_process cls with
  | Some run => run c
  | None =>
      match get_commandline cls with
      | Some commandline =>
          if check_call ctx (commandline c) then (c, Done VNone)
          else (c, Raise Failure)
      | None => (c, Raise NotImplementedError)
      end
  end.

(** [self.traits(output=b)] with the current values. *)
Definition traits_with_output (ctx : call_context) (b : bool) (c : controller)
  : dict :=
  map (fun kf => (fst kf, fvalue (snd kf)))
    (filter (fun kf => trait_output ctx (fst kf) = Some b) (c_fields c)).

Definition get_inputs (ctx : call_context) (c : controller) : dict :=
  traits_with_output ctx false c.

Definition get_outputs (ctx : call_context) (c : controller) : dict :=
  traits_with_output ctx true c.

(** [Process.__call__] with the keyword arguments [kwargs]: the instance
    after the call, and the result or the exception. *)
Definition __call__ (ctx : call_context) (cls : process_class) (c : controller)
    (kwargs : dict) : controller * ending process_result :=
  let runtime :=
    [("start_time", VStr (start_time ctx)); ("cwd", VStr (cwd ctx));
     ("returncode", VNone); ("environ", VDict (environ ctx));
     ("end_time", VNone); ("hostname", VStr (hostname ctx))] in
  match set_keywords c kwargs with
  | (c1, Raise e) => (c1, Raise e)
  | (c1, Done _) =>
      match _run_process ctx cls c1 with
      | (c2, Raise e) => (c2, Raise e)
      | (c2, Done returncode) =>
          let runtime := dict_set "end_time" (VStr (end_time ctx)) runtime in
          let runtime := dict_set "versions" (VDict (versions ctx)) runtime in
          (c2, Done (ProcessResult cls runtime returncode
                       (get_inputs ctx c2) (get_outputs ctx c2)))
      end
  end.


(** ** A one-level pipeline *)

Module Study.

(** A pipeline of two processes; every engine holds an attribute set that
    no handler observes. *)
Definition segment : process := Atomic (ProcInfo 21 "segment" None) Sample.config.
Definition smooth : process := Atomic (ProcInfo 22 "smooth" None) Sample.config.

Definition flow_info : proc_info := ProcInfo 20 "flow" None.

Definition flow_nodes : list (string * option process) :=
  [("", None); ("seg", Some segment); ("smo", Some smooth)].

Definition flow_graph : list (string * list process) :=
  [("seg", [segment]); ("smo", [smooth])].

Definition flow : process := Pipeline flow_info Sample.config flow_nodes flow_graph.

Definition flow_attributes : controller :=
  Controller 1 [("subject", Field Str (VStr "s0"))] false.

Definition segment_attributes : controller :=
  Controller 2 [("subject", Field Str (VStr "s0"));
                ("session", Field Str (VStr "a"))] false.

Definition smooth_attributes : controller :=
  Controller 3 [("subject", Field Str (VStr "s0"))] false.

Definition flow_store : store :=
  Store (list_to_map
           [(20, Sample.state [Sample.file_parameter "report"] (Some 0));
            (21, Sample.state [Sample.file_parameter "output"] (Some 1));
            (22, Sample.state [Sample.file_parameter "input"] (Some 2))])
        [Engine (Some "flow") false (Some flow_attributes);
         Engine (Some "flow.seg") false (Some segment_attributes);
         Engine (Some "flow.smo") false (Some smooth_attributes)]
        4.

(** The argument of a pass: a subject, an attribute that no set declares,
    and a value for the parameter [report]. *)
Definition flow_inputs : dict :=
  [("capsul_attributes", VDict [("subject", VStr "s1"); ("unknown", VInt 1)]);
   ("report", VStr "/tmp/report")].

(** The store left by the handler of a process whose attribute set cannot
    be built: the pass raised. *)
Definition stuck_store : store :=
  (attributes_changed [] Sample.always 1 Sample.broken 0 "subject"
     (VStr "s0") (VStr "s2") Sample.broken_store).1.1.

(** An instance of a process class that redefines nothing, and the system
    around it. *)
Definition plain_class : process_class := ProcessClass None None.

Definition threshold : controller :=
  Controller 0 [("image", Field File VUndefined);
                ("threshold", Field Int (VInt 3))] false.

Definition context : call_context :=
  CallContext "2015-01-01T00:00:00" "2015-01-01T00:00:01" "/tmp" [] "host" []
    (fun _ => Some false) (fun _ => true).

End Study.

(** * Properties *)

(** ** Controllers *)

Lemma lookup_assign_field_eq k v l f :
  lookup_field k l = Some f ->
  lookup_field k (assign_field k v l) = Some (Field (ftrait f) v).
Proof.
  induction l as [|[k' f'] l IH]; simpl; [discriminate|].
  destruct (String.eqb k k') eqn:E; simpl; rewrite E; [congruence | exact IH].
Qed.

Lemma lookup_assign_field_ne k k0 v l :
  k0 <> k -> lookup_field k0 (assign_field k v l) = lookup_field k0 l.
Proof.
  intros Hne. induction l as [|[k' f'] l IH]; simpl; [reflexivity|].
  destruct (String.eqb k k') eqn:E; simpl.
  - apply String.eqb_eq in E. subst k'.
    apply String.eqb_neq in Hne. rewrite Hne. reflexivity.
  - rewrite IH. reflexivity.
Qed.

Lemma assign_field_names k v l : map fst (assign_field k v l) = map fst l.
Proof.
  induction l as [|[k' f'] l IH]; simpl; [reflexivity|].
  destruct (String.eqb k k'); simpl; congruence.
Qed.

Lemma assign_field_undeclared k v l :
  lookup_field k l = None -> assign_field k v l = l.
Proof.
  induction l as [|[k' f'] l IH]; simpl; [reflexivity|].
  destruct (String.eqb k k'); [discriminate|]. intros H. rewrite IH; auto.
Qed.

Lemma lookup_field_None k l : lookup_field k l = None <-> k ∉ map fst l.
Proof.
  induction l as [|[k' f'] l IH]; simpl.
  - split; [intros _ H; inversion H | reflexivity].
  - destruct (String.eqb k k') eqn:E.
    + apply String.eqb_eq in E. subst. split; [discriminate|].
      intros H. exfalso. apply H. left.
    + apply String.eqb_neq in E. rewrite IH. rewrite not_elem_of_cons. tauto.
Qed.

Lemma getattr_assign c name v f :
  trait c name = Some f -> getattr (assign c name v) name = Some v.
Proof.
  unfold getattr, trait, assign. simpl. intros H.
  rewrite (lookup_assign_field_eq _ _ _ _ H). reflexivity.
Qed.

Lemma getattr_assign_ne c name name0 v :
  name0 <> name -> getattr (assign c name v) name0 = getattr c name0.
Proof.
  unfold getattr, trait, assign. simpl. intros H.
  rewrite lookup_assign_field_ne by assumption. reflexivity.
Qed.

(** ** Process.set_parameter *)

(** C10.  On a declared parameter, [set_parameter(name, None)] stores
    [Undefined] when the trait is a file or directory path; for a trait of
    another kind, or for a value other than [None], it stores the value it
    was given.  No other parameter is touched. *)
Theorem set_parameter_coerces_none_on_paths
    (c : controller) (name : string) (f : field) (v : value)
    (Hdeclared : trait c name = Some f) :
  (is_trait_pathname (ftrait f) = true ->
     set_parameter c name VNone = Returns (assign c name VUndefined)
     /\ get_parameter (assign c name VUndefined) name = Some VUndefined)
  /\ (is_trait_pathname (ftrait f) = false \/ v <> VNone ->
     set_parameter c name v = Returns (assign c name v)
     /\ get_parameter (assign c name v) name = Some v)
  /\ (forall other w, other <> name ->
     get_parameter (assign c name w) other = get_parameter c other).
Proof.
  unfold set_parameter, get_parameter. repeat split.
  - rewrite Hdeclared, H. reflexivity.
  - eapply getattr_assign; eassumption.
  - destruct v; try reflexivity.
    destruct H as [H|H]; [|congruence]. rewrite Hdeclared, H. reflexivity.
  - eapply getattr_assign; eassumption.
  - intros other w Hne. apply getattr_assign_ne; assumption.
Qed.

Lemma set_parameter_coerces_none_on_paths_witness :
  let c := Controller 0 [("image", Field File (VStr "/tmp/a.nii"));
                         ("threshold", Field Int (VInt 3))] false in
  set_parameter c "image" VNone = Returns (assign c "image" VUndefined)
  /\ get_parameter (assign c "image" VUndefined) "image" = Some VUndefined.
Proof.
  intros c.
  apply (set_parameter_coerces_none_on_paths c "image"
           (Field File (VStr "/tmp/a.nii")) VNone); reflexivity.
Defined.

(** ** Reasoning about computations *)

Lemma for_each_nil {A} (body : A -> M unit) : for_each [] body = ret tt.
Proof. reflexivity. Qed.

Lemma for_each_cons {A} (a : A) l (body : A -> M unit) :
  for_each (a :: l) body = (body a ;;; for_each l body).
Proof. reflexivity. Qed.

Lemma bind_ok_inv {A B} (m : M A) (k : A -> M B) st st' l b :
  bind m k st = (st', l, Ok b) ->
  exists a st1 l1 l2,
    m st = (st1, l1, Ok a) /\ k a st1 = (st', l2, Ok b) /\ l = l1 ++ l2.
Proof.
  unfold bind. destruct (m st) as [[st1 l1] [a| |]]; try discriminate.
  destruct (k a st1) as [[st2 l2] r2] eqn:E. intros [= <- <- ->].
  exists a, st1, l1, l2. auto.
Qed.

Lemma bind_run {A B} (m : M A) (k : A -> M B) st st1 l1 a :
  m st = (st1, l1, Ok a) ->
  bind m k st = (let '(st2, l2, r2) := k a st1 in (st2, l1 ++ l2, r2)).
Proof. intros E. unfold bind. rewrite E. reflexivity. Qed.

Lemma bind_gets {A B} (f : store -> A) (k : A -> M B) st :
  bind (gets f) k st = k (f st) st.
Proof. unfold bind, gets. destruct (k (f st) st) as [[st2 l2] r2]. reflexivity. Qed.

Lemma bind_ret {A B} (a : A) (k : A -> M B) st : bind (ret a) k st = k a st.
Proof. unfold bind, ret. destruct (k a st) as [[st2 l2] r2]. reflexivity. Qed.

Lemma bind_modify {B} (f : store -> store) (k : unit -> M B) st :
  bind (modify f) k st = k tt (f st).
Proof. unfold bind, modify. destruct (k tt (f st)) as [[st2 l2] r2]. reflexivity. Qed.

Lemma bind_raise {A B} (k : A -> M B) st : bind raise k st = (st, [], Raised).
Proof. reflexivity. Qed.

(** Invariants of the store, with a property of the calls recorded. *)
Section Invariants.

Variable I : store -> Prop.
Variable Q : list call -> Prop.
Hypothesis Q_nil : Q [].
Hypothesis Q_app : forall l1 l2, Q l1 -> Q l2 -> Q (l1 ++ l2).

Local Abbreviation pres := (preserves I Q) (only parsing).

Lemma preserves_ret {A} (a : A) : pres (ret a).
Proof. intros st H. simpl. auto. Qed.

Lemma preserves_raise {A} : pres (@raise A).
Proof. intros st H. simpl. auto. Qed.

Lemma preserves_gets {A} (f : store -> A) : pres (gets f).
Proof. intros st H. simpl. auto. Qed.

Lemma preserves_modify (f : store -> store) :
  (forall st, I st -> I (f st)) -> pres (modify f).
Proof. intros Hf st H. simpl. auto. Qed.

Lemma preserves_bind {A B} (m : M A) (k : A -> M B) :
  pres m -> (forall a, pres (k a)) -> pres (bind m k).
Proof.
  intros Hm Hk st HI. specialize (Hm st HI). unfold bind.
  destruct (m st) as [[st1 l1] [a| |]]; simpl in *; auto.
  destruct Hm as [HI1 HQ1]. specialize (Hk a st1 HI1).
  destruct (k a st1) as [[st2 l2] r2]; simpl in *. intuition.
Qed.

(** A continuation may rely on what was read from the store. *)
Lemma preserves_gets_bind {A B} (f : store -> A) (k : A -> M B) :
  (forall st, I st -> I (k (f st) st).1.1 /\ Q (k (f st) st).1.2) ->
  pres (bind (gets f) k).
Proof. intros H st HI. rewrite bind_gets. auto. Qed.

Lemma preserves_try_except {A} (m h : M A) :
  pres m -> pres h -> pres (try_except m h).
Proof.
  intros Hm Hh st HI. specialize (Hm st HI). unfold try_except.
  destruct (m st) as [[st1 l1] [a| |]]; simpl in *; auto.
  destruct Hm as [HI1 HQ1]. specialize (Hh st1 HI1).
  destruct (h st1) as [[st2 l2] r2]; simpl in *. intuition.
Qed.

Lemma preserves_attempt {A} (m : M A) : pres m -> pres (attempt m).
Proof.
  intros Hm. apply preserves_try_except.
  - apply preserves_bind; [assumption | intros; apply preserves_ret].
  - apply preserves_ret.
Qed.

Lemma preserves_for_each {A} (l : list A) (body : A -> M unit) :
  (forall a, a ∈ l -> pres (body a)) -> pres (for_each l body).
Proof.
  induction l as [|a l IH]; intros Hb.
  - apply preserves_ret.
  - rewrite for_each_cons. apply preserves_bind.
    + apply Hb. left.
    + intros _. apply IH. intros b Hin. apply Hb. right. assumption.
Qed.

Lemma preserves_recorded h t e i (m : M unit) :
  (forall l r, Q l -> Q [Call h t e i l r]) ->
  pres m -> pres (recorded h t e i m).
Proof.
  intros HQ Hm st HI. specialize (Hm st HI). unfold recorded.
  destruct (m st) as [[st1 l1] r]; simpl in *. intuition.
Qed.

End Invariants.

(** Computations that never run out of fuel from the stores of [I]. *)
Section Totality.

Variable I : store -> Prop.

Local Abbreviation tot := (total I) (only parsing).
Local Abbreviation inv := (preserves I (fun _ => True)) (only parsing).

Lemma total_ret {A} (a : A) : tot (ret a).
Proof. intros st _. discriminate. Qed.

Lemma total_raise {A} : tot (@raise A).
Proof. intros st _. discriminate. Qed.

Lemma total_gets {A} (f : store -> A) : tot (gets f).
Proof. intros st _. discriminate. Qed.

Lemma total_modify (f : store -> store) : tot (modify f).
Proof. intros st _. discriminate. Qed.

Lemma total_bind {A B} (m : M A) (k : A -> M B) :
  inv m -> tot m -> (forall a, tot (k a)) -> tot (bind m k).
Proof.
  intros Hi Hm Hk st HI. specialize (Hm st HI). specialize (Hi st HI).
  unfold bind. destruct (m st) as [[st1 l1] [a| |]]; simpl in *; try congruence.
  destruct Hi as [HI1 _]. specialize (Hk a st1 HI1).
  destruct (k a st1) as [[st2 l2] r2]; simpl in *. assumption.
Qed.

Lemma total_gets_bind {A B} (f : store -> A) (k : A -> M B) :
  (forall st, I st -> (k (f st) st).2 <> OutOfFuel) -> tot (bind (gets f) k).
Proof. intros H st HI. rewrite bind_gets. auto. Qed.

Lemma total_try_except {A} (m h : M A) :
  inv m -> tot m -> tot h -> tot (try_except m h).
Proof.
  intros Hi Hm Hh st HI. specialize (Hm st HI). specialize (Hi st HI).
  unfold try_except. destruct (m st) as [[st1 l1] [a| |]]; simpl in *; try congruence.
  destruct Hi as [HI1 _]. specialize (Hh st1 HI1).
  destruct (h st1) as [[st2 l2] r2]; simpl in *. assumption.
Qed.

Lemma total_for_each {A} (l : list A) (body : A -> M unit) :
  (forall a, a ∈ l -> inv (body a)) ->
  (forall a, a ∈ l -> tot (body a)) -> tot (for_each l body).
Proof.
  induction l as [|a l IH]; intros Hi Hb.
  - apply total_ret.
  - rewrite for_each_cons. apply total_bind.
    + apply Hi. left.
    + apply Hb. left.
    + intros _. apply IH; intros b Hin; [apply Hi | apply Hb]; right; assumption.
Qed.

Lemma total_recorded h t e i (m : M unit) : tot m -> tot (recorded h t e i m).
Proof.
  intros Hm st HI. specialize (Hm st HI). unfold recorded.
  destruct (m st) as [[st1 l1] r]; simpl in *. assumption.
Qed.

End Totality.

(** ** Structure of processes *)

Lemma list_max_elem (x : nat) (l : list nat) : x ∈ l -> x <= list_max l.
Proof.
  induction l as [|y l IH]; intros H; inversion H; subst; simpl.
  - lia.
  - specialize (IH ltac:(assumption)). lia.
Qed.

Lemma elem_of_concat {A} (x : A) (ls : list (list A)) :
  x ∈ concat ls <-> exists l, x ∈ l /\ l ∈ ls.
Proof.
  induction ls as [|l ls IH]; simpl.
  - split; [intros H; inversion H | intros [l [_ H]]; inversion H].
  - rewrite elem_of_app, IH. split.
    + intros [H|[l' [H1 H2]]]; [exists l | exists l']; split; auto;
        [left | right; assumption].
    + intros [l' [H1 H2]]. apply elem_of_cons in H2. destruct H2 as [->|H2];
        [left; assumption | right; exists l'; auto].
Qed.

Lemma height_node info cfg nodes graph name (c : process) :
  (name, Some c) ∈ nodes -> height c < height (Pipeline info cfg nodes graph).
Proof.
  intros Hin. simpl.
  assert (height c <= list_max (map (fun n : string * option process =>
            match snd n with Some c => height c | None => 0 end) nodes)).
  { apply list_max_elem.
    change (height c) with ((fun n : string * option process =>
      match snd n with Some c => height c | None => 0 end) (name, Some c)).
    apply list_elem_of_fmap_2. assumption. }
  lia.
Qed.

Lemma height_child (p c : process) : c ∈ children p -> height c < height p.
Proof.
  destruct p as [info cfg|info cfg nodes graph]; simpl; intros Hin.
  - inversion Hin.
  - apply elem_of_concat in Hin. destruct Hin as [cs [Hc Hcs]].
    apply list_elem_of_fmap in Hcs. destruct Hcs as [g [-> Hg]].
    assert (height c <= list_max (map height (snd g))).
    { apply list_max_elem. apply list_elem_of_fmap_2. assumption. }
    assert (list_max (map height (snd g))
            <= list_max (map (fun g : string * list process =>
                                list_max (map height (snd g))) graph)).
    { apply list_max_elem.
      change (list_max (map height (snd g))) with
        ((fun g : string * list process => list_max (map height (snd g))) g).
      apply list_elem_of_fmap_2. assumption. }
    lia.
Qed.

(** Induction on the nesting of pipelines. *)
Lemma process_nesting_ind (P : process -> Prop) :
  (forall info cfg, P (Atomic info cfg)) ->
  (forall info cfg nodes graph,
     (forall name c, (name, Some c) ∈ nodes -> P c) ->
     (forall c, c ∈ children (Pipeline info cfg nodes graph) -> P c) ->
     P (Pipeline info cfg nodes graph)) ->
  forall p, P p.
Proof.
  intros Ha Hp p. remember (height p) as n eqn:Hn. revert p Hn.
  induction n as [n IH] using lt_wf_ind. intros p ->.
  destruct p as [info cfg|info cfg nodes graph]; [apply Ha|].
  apply Hp.
  - intros name c Hin. eapply IH; [|reflexivity]. eapply height_node; eassumption.
  - intros c Hin. eapply IH; [|reflexivity]. apply height_child; assumption.
Qed.

(** ** The store *)

Lemma attributes_allocated st e c : attributes_of st e = Some c -> allocated st e.
Proof.
  unfold attributes_of, get_engine, allocated. intros H.
  destruct (decide (e < length (engines st))) as [|Hge]; [assumption|].
  rewrite list_lookup_total_alt, lookup_ge_None_2 in H by lia. discriminate.
Qed.

Lemma guard_allocated st e : guard st e = true -> allocated st e.
Proof.
  unfold guard, get_engine, allocated. intros H.
  destruct (decide (e < length (engines st))) as [|Hge]; [assumption|].
  rewrite list_lookup_total_alt, lookup_ge_None_2 in H by lia. discriminate.
Qed.

Lemma get_engine_set_eq st e en :
  allocated st e -> get_engine (set_engine st e en) e = en.
Proof.
  unfold get_engine, set_engine, allocated. simpl. intros H.
  apply list_lookup_total_insert_eq. assumption.
Qed.

Lemma get_engine_set_ne st e e' en :
  e <> e' -> get_engine (set_engine st e en) e' = get_engine st e'.
Proof.
  unfold get_engine, set_engine. simpl. intros H.
  apply list_lookup_total_insert_ne. assumption.
Qed.

Lemma get_engine_set_unallocated st e e' en :
  ~ allocated st e -> get_engine (set_engine st e en) e' = get_engine st e'.
Proof.
  unfold get_engine, set_engine, allocated. simpl. intros H.
  rewrite list_insert_ge by lia. reflexivity.
Qed.

Lemma allocated_set_engine st e e' en :
  allocated (set_engine st e en) e' <-> allocated st e'.
Proof. unfold allocated, set_engine. simpl. rewrite length_insert. tauto. Qed.

Lemma get_engine_app st e l n :
  allocated st e ->
  get_engine (Store (procs st) (engines st ++ l) n) e = get_engine st e.
Proof.
  unfold get_engine, allocated. simpl. intros H.
  apply lookup_total_app_l. assumption.
Qed.

(** ** Invariants of get_attribute_values *)

Lemma get_attribute_values_unfold PA p e :
  get_attribute_values PA p e =
  (t <- gets (fun st => attributes_of st e) ;;
   match t with
   | Some c => ret c
   | None => build_attribute_values PA (get_attribute_values PA) p e
   end).
Proof. destruct p; reflexivity. Qed.

Ltac calls_closed :=
  first [ assumption | eapply q_nil; eassumption | eapply q_app; eassumption ].

Ltac pres_each :=
  apply preserves_for_each; [calls_closed | calls_closed | intros ? _ ].

Ltac pres_step :=
  match goal with
  | |- preserves _ _ (ret _) => apply preserves_ret; calls_closed
  | |- preserves _ _ raise => apply preserves_raise; calls_closed
  | |- preserves _ _ (gets _) => apply preserves_gets; calls_closed
  | |- preserves _ _ (bind _ _) => apply preserves_bind; [calls_closed | | intro ]
  | |- preserves _ _ (try_except _ _) =>
      apply preserves_try_except; [calls_closed | | ]
  | |- preserves _ _ (attempt _) =>
      apply preserves_attempt; [calls_closed | calls_closed | ]
  | |- preserves _ _ (match ?x with _ => _ end) => destruct x
  | |- preserves _ _ (let _ := _ in _) => cbv zeta
  | |- preserves _ _ _ => assumption
  end.

Section Building.

Variable PA : list (string * field).
Variable I : store -> Prop.
Variable touch : eid -> Prop.
Variable Q : list call -> Prop.
Hypothesis HI : closed_under_building I touch.
Hypothesis Q_nil : Q [].
Hypothesis Q_app : forall l1 l2, Q l1 -> Q l2 -> Q (l1 ++ l2).

Lemma preserves_new_controller fs : preserves I Q (new_controller fs).
Proof. intros st H. simpl. split; [apply HI; assumption | assumption]. Qed.

Lemma preserves_new_engine name : preserves I Q (new_engine name).
Proof. intros st H. simpl. split; [apply HI; assumption | assumption]. Qed.

Lemma preserves_set_attributes e c : touch e -> preserves I Q (set_attributes e c).
Proof.
  intros Ht. apply preserves_modify; [assumption|].
  intros st H. apply HI; assumption.
Qed.

Lemma preserves_update_attributes e f :
  touch e -> preserves I Q (update_attributes e f).
Proof.
  intros Ht. apply preserves_modify; [assumption|].
  intros st H. cbv zeta.
  destruct (capsul_attributes (get_engine st e)); [|assumption].
  apply HI; assumption.
Qed.

Lemma preserves_get_completion_engine p name :
  preserves I Q (get_completion_engine p name).
Proof.
  unfold get_completion_engine. apply preserves_gets_bind. intros st H.
  destruct (completion_engine (get_proc st (p_id (info_of p)))) eqn:E.
  - simpl. auto.
  - unfold bind, new_engine, modify, ret. simpl.
    split; [|exact Q_nil].
    exact (cl_attach _ _ HI st (p_id (info_of p)) name H E).
Qed.

Lemma preserves_merge_attributes e sub :
  touch e -> preserves I Q (merge_attributes e sub).
Proof.
  intros Ht. unfold merge_attributes. apply preserves_for_each; [assumption..|].
  intros af _. repeat pres_step. apply preserves_update_attributes. assumption.
Qed.

Lemma preserves_child_attribute_values rec pname c :
  (forall e, preserves I Q (rec c e)) ->
  preserves I Q (child_attribute_values rec pname c).
Proof.
  intros Hrec. unfold child_attribute_values. repeat pres_step.
  - apply preserves_get_completion_engine.
  - apply Hrec.
  - apply preserves_new_engine.
  - apply Hrec.
Qed.

Lemma preserves_merge_node rec e name nn :
  touch e ->
  (forall c e', snd nn = Some c -> preserves I Q (rec c e')) ->
  preserves I Q (merge_node rec e name nn).
Proof.
  intros Ht Hrec. unfold merge_node.
  destruct (String.eqb (fst nn) ""); [apply preserves_ret; assumption|].
  destruct (snd nn) as [c|]; [|apply preserves_ret; assumption].
  repeat pres_step.
  - apply preserves_child_attribute_values. intros e'. apply Hrec. reflexivity.
  - apply preserves_merge_attributes. assumption.
Qed.

Lemma preserves_build_attribute_values rec p e :
  touch e ->
  (forall name c e', (name, Some c) ∈ nodes_of p -> preserves I Q (rec c e')) ->
  preserves I Q (build_attribute_values PA rec p e).
Proof.
  intros Ht Hrec. unfold build_attribute_values.
  repeat first
    [ apply preserves_new_controller
    | apply preserves_set_attributes; assumption
    | pres_step ].
  all: try (apply preserves_set_attributes; assumption).
  all: try apply preserves_new_controller.
  all: repeat pres_step.
  apply preserves_for_each; [assumption..|].
  intros [name [c|]] Hin; apply preserves_merge_node; try assumption;
    simpl; intros c' e' [= <-] || intros c' e' [=].
  eapply Hrec. simpl. eassumption.
Qed.

Theorem get_attribute_values_preserves p e :
  preserves I Q (get_attribute_values PA p e).
Proof.
  revert e. induction p as [info cfg|info cfg nodes graph IHn _]
    using process_nesting_ind; intros e;
    rewrite get_attribute_values_unfold;
    apply preserves_gets_bind; intros st Hst;
    destruct (attributes_of st e) as [c|] eqn:E;
    try (simpl; auto; fail);
    apply preserves_build_attribute_values;
    try (eapply cl_touch; eassumption); try assumption.
  - simpl. intros name c e' Hin. inversion Hin.
  - simpl. intros name c e' Hin. eapply IHn. eassumption.
Qed.

End Building.

(** ** Particular invariants *)

Lemma get_engine_set_engine st e e0 en :
  get_engine (set_engine st e en) e0 = en /\ e = e0 /\ allocated st e
  \/ get_engine (set_engine st e en) e0 = get_engine st e0
     /\ (e <> e0 \/ ~ allocated st e).
Proof.
  destruct (decide (e = e0)) as [->|Hne].
  - destruct (decide (e0 < length (engines st))) as [Ha|Ha].
    + left. rewrite get_engine_set_eq by assumption. auto.
    + right. rewrite get_engine_set_unallocated by assumption. auto.
  - right. rewrite get_engine_set_ne by assumption. auto.
Qed.

Lemma get_engine_set_proc st p ps e : get_engine (set_proc st p ps) e = get_engine st e.
Proof. reflexivity. Qed.

Lemma parameters_of_set_engine st e en q :
  parameters_of (set_engine st e en) q = parameters_of st q.
Proof. reflexivity. Qed.

Lemma get_proc_set_proc st p ps q :
  get_proc (set_proc st p ps) q = if decide (p = q) then ps else get_proc st q.
Proof.
  unfold get_proc, set_proc. simpl. destruct (decide (p = q)) as [->|Hne].
  - apply lookup_total_insert_eq.
  - apply lookup_total_insert_ne. assumption.
Qed.

(** The trivial invariant: [get_attribute_values] records no call. *)
Lemma closed_trivial : closed_under_building (fun _ => True) (fun _ => True).
Proof. split; auto. Qed.

(** An engine of the store stays one. *)
Lemma closed_allocated e0 :
  closed_under_building (fun st => allocated st e0) (fun _ => True).
Proof.
  split; auto; unfold allocated; simpl; intros.
  - rewrite length_app. lia.
  - rewrite length_insert. assumption.
  - rewrite length_app. lia.
Qed.

(** Building attribute sets leaves the guard of every engine alone. *)
Lemma closed_guard e0 b :
  closed_under_building
    (fun st => allocated st e0 /\ guard st e0 = b) (fun _ => True).
Proof.
  split; auto; unfold guard; intros.
  - destruct H as [Ha Hg]. split; [unfold allocated in *; simpl; rewrite length_app; lia|].
    rewrite get_engine_app; assumption.
  - destruct H as [Ha Hg]. split; [apply allocated_set_engine; assumption|].
    destruct (get_engine_set_engine st e e0
                (Engine (e_name (get_engine st e))
                        (completion_ongoing (get_engine st e)) (Some c)))
      as [[-> [-> _]]|[-> _]]; [simpl|]; assumption.
  - destruct H as [Ha Hg]. split; [unfold allocated in *; simpl; rewrite length_app; lia|].
    rewrite get_engine_set_proc, get_engine_app; assumption.
Qed.

(** Building attribute sets assigns no parameter of any process. *)
Lemma closed_parameters (st0 : store) :
  closed_under_building
    (fun st => forall q, parameters_of st q = parameters_of st0 q) (fun _ => True).
Proof.
  split; auto; intros.
  unfold parameters_of. rewrite get_proc_set_proc.
  destruct (decide (p = q)) as [->|]; [simpl|]; apply H.
Qed.

(** An engine that has an attribute set keeps one. *)
Lemma closed_attributes_exist e0 :
  closed_under_building
    (fun st => exists c, attributes_of st e0 = Some c) (fun _ => True).
Proof.
  split; auto; unfold attributes_of; intros.
  - destruct H as [c Hc]. exists c. rewrite get_engine_app; [assumption|].
    eapply attributes_allocated. eassumption.
  - destruct H as [c' Hc].
    destruct (get_engine_set_engine st e e0
                (Engine (e_name (get_engine st e))
                        (completion_ongoing (get_engine st e)) (Some c)))
      as [[-> _]|[-> _]]; simpl; eauto.
  - destruct H as [c Hc]. exists c.
    rewrite get_engine_set_proc, get_engine_app; [assumption|].
    eapply attributes_allocated. eassumption.
Qed.

(** The attribute set of [e0] is only changed through [e0]. *)
Lemma closed_attributes_fixed e0 a :
  closed_under_building
    (fun st => attributes_of st e0 = Some a) (fun e => e <> e0).
Proof.
  split; unfold attributes_of; intros; auto.
  - rewrite get_engine_app; [assumption|].
    eapply attributes_allocated. eassumption.
  - rewrite get_engine_set_ne; assumption.
  - rewrite get_engine_set_proc, get_engine_app; [assumption|].
    eapply attributes_allocated. eassumption.
  - intros ->. unfold attributes_of in *. congruence.
Qed.

Section BuildingFacts.

Variable PA : list (string * field).

Lemma get_attribute_values_keeps I touch p e st :
  closed_under_building I touch ->
  I st -> I (get_attribute_values PA p e st).1.1.
Proof.
  intros HI Hst.
  apply (get_attribute_values_preserves PA I touch (fun _ => True) HI Logic.I
           ltac:(auto) p e st Hst).
Qed.

(** [get_attribute_values] makes no nested completion call. *)
Lemma get_attribute_values_no_call p e st :
  (get_attribute_values PA p e st).1.2 = [].
Proof.
  apply (get_attribute_values_preserves PA (fun _ => True) (fun _ => True)
           (fun l => l = []) closed_trivial eq_refl
           ltac:(intros ? ? -> ->; reflexivity) p e st Logic.I).
Qed.

End BuildingFacts.

(** ** get_attribute_values: caching *)

Section Caching.

Variable PA : list (string * field).

Lemma get_attribute_values_cached p e st c :
  attributes_of st e = Some c ->
  get_attribute_values PA p e st = (st, [], Ok c).
Proof.
  intros H. rewrite get_attribute_values_unfold, bind_gets, H. reflexivity.
Qed.

Lemma build_attribute_values_returns rec p e st st1 l c :
  build_attribute_values PA rec p e st = (st1, l, Ok c) ->
  attributes_of st1 e = Some c.
Proof.
  unfold build_attribute_values. intros H.
  do 7 (apply bind_ok_inv in H;
        destruct H as (? & ? & ? & ? & _ & H & _)).
  rewrite bind_gets in H.
  destruct (attributes_of _ e) as [c'|] eqn:E; [|discriminate].
  unfold ret in H. injection H as <- _ <-. assumption.
Qed.

Lemma get_attribute_values_returns p e st st1 l c :
  get_attribute_values PA p e st = (st1, l, Ok c) ->
  attributes_of st1 e = Some c.
Proof.
  rewrite get_attribute_values_unfold, bind_gets.
  destruct (attributes_of st e) as [c'|] eqn:E.
  - unfold ret. intros [= <- _ <-]. assumption.
  - apply build_attribute_values_returns.
Qed.

(** C7.  A call of [get_attribute_values] that returns leaves the object
    it returns cached on the engine, and every later call on that engine
    returns the cached object as it then is, without changing the store or
    calling anything. *)
Theorem get_attribute_values_idempotent p e st st1 l c
    (Hfirst : get_attribute_values PA p e st = (st1, l, Ok c)) :
  attributes_of st1 e = Some c
  /\ get_attribute_values PA p e st1 = (st1, [], Ok c)
  /\ (forall st2 c2, attributes_of st2 e = Some c2 ->
        get_attribute_values PA p e st2 = (st2, [], Ok c2)).
Proof.
  pose proof (get_attribute_values_returns _ _ _ _ _ _ Hfirst) as H.
  repeat split.
  - assumption.
  - apply get_attribute_values_cached. assumption.
  - intros st2 c2. apply get_attribute_values_cached.
Qed.

End Caching.

(** ** Invariants of a completion pass *)

Section Completing.

Variable PA : list (string * field).
Variable notifies : value -> value -> bool.
Variable I : store -> Prop.
Variable touchg : eid -> Prop.
Variable Q : list call -> Prop.
Hypothesis HI : closed_under_completion I touchg.
Hypothesis HQ : closed_calls Q touchg.

Local Lemma building_closed : closed_under_building I (fun _ => True).
Proof. apply HI. Qed.

Lemma preserves_get_attribute_values p e :
  preserves I Q (get_attribute_values PA p e).
Proof.
  apply (get_attribute_values_preserves PA I (fun _ => True) Q building_closed);
    calls_closed.
Qed.

Lemma preserves_set_completion_ongoing e b :
  touchg e -> preserves I Q (set_completion_ongoing e b).
Proof.
  intros Ht. apply preserves_modify; [calls_closed|].
  intros st H. cbv zeta. apply HI; assumption.
Qed.

Lemma preserves_process_setattr p name v : preserves I Q (process_setattr p name v).
Proof.
  apply preserves_modify; [calls_closed|].
  intros st H. cbv zeta. apply HI; assumption.
Qed.

Lemma preserves_process_import_from_dict p d :
  preserves I Q (process_import_from_dict p d).
Proof.
  unfold process_import_from_dict. pres_each. apply preserves_process_setattr.
Qed.

Section Pass.

Variable complete : process -> eid -> dict -> M unit.
Hypothesis Hcomplete : forall p e i, preserves I Q (complete p e i).

Lemma preserves_notified_pass p e name new :
  touchg e ->
  preserves I Q
    (set_completion_ongoing e true ;;;
     recorded Notified (p_id (info_of p)) e
       [("capsul_attributes", VDict [(name, new)])]
       (complete p e [("capsul_attributes", VDict [(name, new)])]) ;;;
     set_completion_ongoing e false).
Proof.
  intros Ht. repeat pres_step.
  - apply preserves_set_completion_ongoing; assumption.
  - apply preserves_recorded; [|apply Hcomplete].
    intros l r Hl. apply HQ; auto.
  - apply preserves_set_completion_ongoing; assumption.
Qed.

Lemma preserves_attributes_changed p e name old new :
  preserves I Q (attributes_changed_with complete p e name old new).
Proof.
  unfold attributes_changed_with. apply preserves_gets_bind. intros st Hst.
  destruct (guard st e) eqn:Hg.
  - rewrite !andb_false_r. simpl. split; [assumption | calls_closed].
  - destruct (negb (name =? "trait_added")
              && negb (name =? "user_traits_changed") && negb false).
    + apply preserves_notified_pass; [|assumption].
      eapply cl_touchg; eassumption.
    + simpl. split; [assumption | calls_closed].
Qed.

Lemma preserves_attributes_setattr p e name v :
  preserves I Q (attributes_setattr notifies complete p e name v).
Proof.
  unfold attributes_setattr. repeat pres_step.
  - apply (preserves_update_attributes I (fun _ => True) Q building_closed);
      [calls_closed | exact Logic.I].
  - apply preserves_attributes_changed.
Qed.

Lemma preserves_set_parameters p e inputs :
  preserves I Q (set_parameters_with PA notifies complete p e inputs).
Proof.
  unfold set_parameters_with, attributes_import_from_dict. repeat pres_step.
  - apply preserves_get_attribute_values.
  - pres_each. apply preserves_attributes_setattr.
  - apply preserves_process_import_from_dict.
Qed.

Lemma preserves_complete_child name node_name attrib_values c :
  preserves I Q (complete_child complete name node_name attrib_values c).
Proof.
  unfold complete_child. repeat pres_step.
  - apply (preserves_get_completion_engine I (fun _ => True) Q building_closed); calls_closed.
  - apply preserves_recorded; [|apply Hcomplete].
    intros l r Hl. apply HQ; [discriminate | assumption].
  - apply (preserves_new_engine I (fun _ => True) Q building_closed); calls_closed.
  - apply preserves_recorded; [|apply Hcomplete].
    intros l r Hl. apply HQ; [discriminate | assumption].
Qed.

Lemma preserves_complete_children p e :
  preserves I Q (complete_children PA complete p e).
Proof.
  unfold complete_children. repeat pres_step.
  - apply preserves_get_attribute_values.
  - pres_each. pres_each. apply preserves_complete_child.
Qed.

Lemma preserves_complete_own_parameters p e :
  preserves I Q (complete_own_parameters PA p e).
Proof.
  unfold complete_own_parameters. repeat pres_step.
  - apply preserves_get_attribute_values.
  - pres_each. repeat pres_step; apply preserves_process_setattr.
Qed.

Lemma preserves_complete_parameters_with p e inputs :
  preserves I Q (complete_parameters_with PA notifies complete p e inputs).
Proof.
  unfold complete_parameters_with. repeat pres_step.
  - apply preserves_set_parameters.
  - apply preserves_complete_children.
  - apply preserves_complete_own_parameters.
Qed.

End Pass.

Theorem complete_parameters_preserves fuel p e inputs :
  preserves I Q (complete_parameters PA notifies fuel p e inputs).
Proof.
  revert p e inputs. induction fuel as [|fuel IH]; intros p e inputs.
  - intros st Hst. simpl. split; [assumption | calls_closed].
  - simpl. apply preserves_complete_parameters_with. assumption.
Qed.

End Completing.

(** ** Counting notified passes *)

Lemma notified_passes_call e h t e' i l r :
  notified_passes e (Call h t e' i l r) =
  (match h with Notified => if Nat.eqb e' e then 1 else 0 | _ => 0 end)
  + count_notified e l.
Proof.
  simpl. f_equal. induction l as [|c l IH]; simpl; [reflexivity|].
  rewrite IH. reflexivity.
Qed.

Lemma count_notified_app e l1 l2 :
  count_notified e (l1 ++ l2) = count_notified e l1 + count_notified e l2.
Proof. induction l1 as [|c l1 IH]; simpl; [reflexivity|]. rewrite IH. lia. Qed.

Lemma closed_calls_trivial touchg : closed_calls (fun _ => True) touchg.
Proof. split; auto. Qed.

(** No pass was started by the handler of [e0]. *)
Lemma closed_calls_unnotified e0 :
  closed_calls (fun l => count_notified e0 l = 0) (fun e => e <> e0).
Proof.
  split.
  - reflexivity.
  - intros l1 l2 H1 H2. rewrite count_notified_app. lia.
  - intros h t e i l r Ht Hl.
    change (notified_passes e0 (Call h t e i l r) + 0 = 0).
    rewrite notified_passes_call, Hl.
    destruct h; try reflexivity.
    specialize (Ht eq_refl). apply Nat.eqb_neq in Ht. rewrite Ht. reflexivity.
Qed.

(** ** Invariants of a pass, instantiated *)

(** While the guard of [e0] is set, nothing clears it. *)
Lemma closed_guarded e0 :
  closed_under_completion
    (fun st => allocated st e0 /\ guard st e0 = true) (fun e => e <> e0).
Proof.
  split.
  - apply closed_guard.
  - intros st e b [Ha Hg] Hne. split; [apply allocated_set_engine; assumption|].
    unfold guard. rewrite get_engine_set_ne by assumption. assumption.
  - intros st e [Ha Hg] He ->. congruence.
  - intros st p name v H. exact H.
Qed.

Lemma closed_completion_allocated e0 :
  closed_under_completion (fun st => allocated st e0) (fun _ => True).
Proof.
  split; auto.
  - apply closed_allocated.
  - intros st e b Ha _. apply allocated_set_engine. assumption.
Qed.

Lemma closed_completion_attributes_exist e0 :
  closed_under_completion
    (fun st => exists c, attributes_of st e0 = Some c) (fun _ => True).
Proof.
  split; auto.
  - apply closed_attributes_exist.
  - intros st e b [c Hc] _. unfold attributes_of in *.
    destruct (get_engine_set_engine st e e0
                (Engine (e_name (get_engine st e)) b
                        (capsul_attributes (get_engine st e))))
      as [[-> [-> _]]|[-> _]]; simpl; eauto.
Qed.

(** ** Termination: enough fuel *)

Lemma preserves_trivial {A} (m : M A) : preserves (fun _ => True) (fun _ => True) m.
Proof. intros st _. auto. Qed.

Lemma total_weaken (I J : store -> Prop) {A} (m : M A) :
  (forall st, I st -> J st) -> total J m -> total I m.
Proof. intros HIJ Hm st HI. apply Hm, HIJ, HI. Qed.

Ltac tot_step :=
  match goal with
  | |- total _ (ret _) => apply total_ret
  | |- total _ raise => apply total_raise
  | |- total _ (gets _) => apply total_gets
  | |- total _ (modify _) => apply total_modify
  | |- total _ (new_controller _) => intros ? _; discriminate
  | |- total _ (new_engine _) => intros ? _; discriminate
  | |- total _ (set_attributes _ _) => apply total_modify
  | |- total _ (update_attributes _ _) => apply total_modify
  | |- total _ (set_completion_ongoing _ _) => apply total_modify
  | |- total _ (process_setattr _ _ _) => apply total_modify
  | |- total (fun _ => True) (bind _ _) =>
      apply total_bind; [apply preserves_trivial | | intro ]
  | |- total (fun _ => True) (try_except _ _) =>
      apply total_try_except; [apply preserves_trivial | | ]
  | |- total (fun _ => True) (for_each _ _) =>
      apply total_for_each; [intros; apply preserves_trivial | intros ? ? ]
  | |- total _ (recorded _ _ _ _ _) => apply total_recorded
  | |- total _ (match ?x with _ => _ end) => destruct x
  | |- total _ (let _ := _ in _) => cbv zeta
  | |- total _ _ => assumption
  end.

Section BuildingTerminates.

Variable PA : list (string * field).

Lemma total_get_completion_engine p name :
  total anywhere (get_completion_engine p name).
Proof. unfold get_completion_engine. repeat tot_step. Qed.

Lemma total_merge_attributes e sub : total anywhere (merge_attributes e sub).
Proof. unfold merge_attributes. repeat tot_step. Qed.

Lemma total_build_attribute_values rec p e :
  (forall name c e', (name, Some c) ∈ nodes_of p -> total anywhere (rec c e')) ->
  total anywhere (build_attribute_values PA rec p e).
Proof.
  intros Hrec. unfold build_attribute_values. repeat tot_step.
  unfold merge_node. destruct a5 as [name [c|]]; simpl in *; repeat tot_step.
  - unfold child_attribute_values, attempt. repeat tot_step.
    + apply total_get_completion_engine.
    + eapply Hrec; eassumption.
    + eapply Hrec; eassumption.
  - apply total_merge_attributes.
Qed.

(** [get_attribute_values] needs no fuel. *)
Theorem get_attribute_values_total p e :
  total anywhere (get_attribute_values PA p e).
Proof.
  revert e. induction p as [info cfg|info cfg nodes graph IHn _]
    using process_nesting_ind; intros e;
    rewrite get_attribute_values_unfold; repeat tot_step;
    apply total_build_attribute_values; simpl; intros name c' e' Hin.
  - inversion Hin.
  - eapply IHn. eassumption.
Qed.

End BuildingTerminates.

Section PassTerminates.

Variable PA : list (string * field).
Variable notifies : value -> value -> bool.

Abbreviation cp := (complete_parameters PA notifies).

Lemma preserves_guarded e0 fuel p e inputs :
  preserves (guarded e0) (fun _ => True) (cp fuel p e inputs).
Proof.
  apply (complete_parameters_preserves PA notifies _ (fun e => e <> e0)).
  - apply closed_guarded.
  - apply closed_calls_trivial.
Qed.

Lemma total_complete_child fuel c name node_name attrib_values :
  (forall e i, total anywhere (cp fuel c e i)) ->
  total anywhere (complete_child (cp fuel) name node_name attrib_values c).
Proof.
  intros Hc. unfold complete_child. repeat tot_step.
  - apply total_get_completion_engine.
  - apply Hc.
  - apply Hc.
Qed.

Lemma total_complete_children fuel p e :
  (forall c e i, c ∈ children p -> total anywhere (cp fuel c e i)) ->
  total anywhere (complete_children PA (cp fuel) p e).
Proof.
  intros Hchildren. unfold complete_children.
  destruct p as [info cfg|info cfg nodes graph]; repeat tot_step.
  - apply get_attribute_values_total.
  - apply total_complete_child. intros e' i. apply Hchildren. simpl.
    apply elem_of_concat. exists (snd a0). split; [assumption|].
    apply list_elem_of_fmap_2. assumption.
Qed.

Lemma total_complete_own_parameters p e :
  total anywhere (complete_own_parameters PA p e).
Proof.
  unfold complete_own_parameters. repeat tot_step.
  apply get_attribute_values_total.
Qed.

(** Under the guard the handler returns at once. *)
Lemma guarded_attributes_changed complete p e name old new st :
  guarded e st ->
  attributes_changed_with complete p e name old new st = (st, [], Ok tt).
Proof.
  intros [_ Hg]. unfold attributes_changed_with. rewrite bind_gets, Hg.
  rewrite !andb_false_r. reflexivity.
Qed.

Lemma update_attributes_guarded e0 e f st :
  guarded e0 st -> guarded e0 (update_attributes e f st).1.1.
Proof.
  intros H.
  apply (preserves_update_attributes _ (fun _ => True) (fun _ => True)
           (closed_guard e0 true) Logic.I e f Logic.I st H).
Qed.

Lemma bind_update_attributes {B} e f (k : unit -> M B) st :
  bind (update_attributes e f) k st = k tt (update_attributes e f st).1.1.
Proof. unfold update_attributes. rewrite bind_modify. reflexivity. Qed.

Lemma guarded_attributes_setattr complete p e name v st :
  guarded e st ->
  exists st', attributes_setattr notifies complete p e name v st = (st', [], Ok tt)
              /\ guarded e st'.
Proof.
  intros Hg. unfold attributes_setattr. rewrite bind_gets.
  destruct (attributes_of st e) as [a|]; [|exists st; auto].
  rewrite bind_update_attributes.
  pose proof (update_attributes_guarded e e (fun a => assign a name v) st Hg)
    as Hg'.
  eexists. split; [|exact Hg'].
  destruct (getattr a name) as [old|]; [|reflexivity].
  destruct (c_observed a && notifies old v); [|reflexivity].
  apply guarded_attributes_changed. assumption.
Qed.

Lemma guarded_attributes_import complete p e d st :
  guarded e st ->
  exists st', attributes_import_from_dict notifies complete p e d st = (st', [], Ok tt)
              /\ guarded e st'.
Proof.
  revert st. unfold attributes_import_from_dict.
  induction d as [|kv d IH]; intros st Hg.
  - exists st. auto.
  - rewrite for_each_cons.
    destruct (guarded_attributes_setattr complete p e (fst kv) (snd kv) st Hg)
      as (st1 & E1 & Hg1).
    destruct (IH st1 Hg1) as (st2 & E2 & Hg2).
    exists st2. split; [|assumption].
    rewrite (bind_run _ _ _ _ _ _ E1), E2. reflexivity.
Qed.

Lemma total_process_import q d : total anywhere (process_import_from_dict q d).
Proof. unfold process_import_from_dict. repeat tot_step. Qed.

Lemma guarded_attributes_part complete p e dst inputs st :
  guarded e st ->
  let m := match dict_get "capsul_attributes" inputs with
           | Some attributes =>
               if truthy attributes then
                 match attributes with
                 | VDict attributes =>
                     attributes_import_from_dict notifies complete p e
                       (filter (fun kv => fst kv ∈ user_trait_names dst) attributes)
                 | _ => raise
                 end
               else ret tt
           | None => ret tt
           end in
  guarded e (m st).1.1 /\ (m st).2 <> OutOfFuel.
Proof.
  intros Hg. cbv zeta.
  destruct (dict_get "capsul_attributes" inputs) as [v|]; [|simpl; auto].
  destruct (truthy v); [|simpl; auto].
  destruct v; try (simpl; auto; fail).
  destruct (guarded_attributes_import complete p e
              (filter (fun kv => fst kv ∈ user_trait_names dst) d) st Hg)
    as (st' & E & Hg').
  rewrite E. simpl. auto.
Qed.

Lemma total_guarded_set_parameters complete p e inputs :
  total (guarded e) (set_parameters_with PA notifies complete p e inputs).
Proof.
  unfold set_parameters_with. apply total_bind.
  - apply (get_attribute_values_preserves PA _ (fun _ => True) (fun _ => True)
             (closed_guard e true)); auto.
  - eapply total_weaken; [|apply get_attribute_values_total].
    intros; exact Logic.I.
  - intros dst. apply total_bind.
    + intros st Hg. split; [|exact Logic.I].
      apply (guarded_attributes_part complete p e dst inputs st Hg).
    + intros st Hg.
      apply (guarded_attributes_part complete p e dst inputs st Hg).
    + intros _. eapply total_weaken; [|apply total_process_import].
      intros; exact Logic.I.
Qed.

(** A pass that runs under the guard of its engine. *)
Lemma total_guarded_pass fuel p e inputs :
  (forall c e i, c ∈ children p -> total anywhere (cp fuel c e i)) ->
  total (guarded e) (complete_parameters_with PA notifies (cp fuel) p e inputs).
Proof.
  intros Hchildren. unfold complete_parameters_with. apply total_bind.
  - apply (preserves_set_parameters PA notifies _ (fun e' => e' <> e)).
    + apply closed_guarded.
    + apply closed_calls_trivial.
    + intros. apply preserves_guarded.
  - apply total_guarded_set_parameters.
  - intros _. eapply total_weaken with (J := anywhere);
      [intros; exact Logic.I|].
    repeat tot_step.
    + apply total_complete_children. assumption.
    + apply total_complete_own_parameters.
Qed.

Lemma total_attributes_setattr complete p e name v :
  (forall i, total (guarded e) (complete p e i)) ->
  total anywhere (attributes_setattr notifies complete p e name v).
Proof.
  intros Hc st _. unfold attributes_setattr. rewrite bind_gets.
  destruct (attributes_of st e) as [a|] eqn:E; [|discriminate].
  apply attributes_allocated in E.
  rewrite bind_update_attributes.
  assert (Ha : allocated (update_attributes e (fun a => assign a name v) st).1.1 e).
  { apply (preserves_update_attributes _ (fun _ => True) (fun _ => True)
             (closed_allocated e) Logic.I e _ Logic.I st E). }
  revert Ha. generalize (update_attributes e (fun a => assign a name v) st).1.1.
  intros st1 Ha.
  destruct (getattr a name) as [old|]; [|discriminate].
  destruct (c_observed a && notifies old v); [|discriminate].
  unfold attributes_changed_with. rewrite bind_gets.
  destruct (negb (name =? "trait_added")
            && negb (name =? "user_traits_changed") && negb (guard st1 e));
    [|discriminate].
  unfold set_completion_ongoing at 1. rewrite bind_modify.
  match goal with |- context [bind (recorded _ _ _ _ _) _ ?s] =>
    assert (Hg : guarded e s) by
      (split; [apply allocated_set_engine; assumption
              | unfold guard; rewrite get_engine_set_eq by assumption;
                reflexivity]);
    revert Hg; generalize s end.
  intros st2 Hg. specialize (Hc [("capsul_attributes", VDict [(name, v)])] st2 Hg).
  unfold bind, recorded.
  destruct (complete p e [("capsul_attributes", VDict [(name, v)])] st2)
    as [[st3 l3] [[]| |]]; simpl in *; congruence.
Qed.

(** A pass that starts outside the guard of its engine. *)
Lemma total_pass fuel p e inputs :
  (forall c e i, c ∈ children p -> total anywhere (cp fuel c e i)) ->
  (forall i, total (guarded e) (cp fuel p e i)) ->
  total anywhere (complete_parameters_with PA notifies (cp fuel) p e inputs).
Proof.
  intros Hchildren Hguarded.
  unfold complete_parameters_with, set_parameters_with,
    attributes_import_from_dict.
  repeat tot_step.
  - apply get_attribute_values_total.
  - apply total_attributes_setattr. assumption.
  - apply total_process_import.
  - apply total_complete_children. assumption.
  - apply total_complete_own_parameters.
Qed.

(** Fuel proportional to the nesting depth suffices: a pass on a process
    of depth [h] makes nested calls to depth [2 * h + 1] at most. *)
Lemma complete_parameters_total_both p :
  (forall fuel e i, 2 * height p + 1 <= fuel -> total (guarded e) (cp fuel p e i))
  /\ (forall fuel e i, 2 * height p + 2 <= fuel -> total anywhere (cp fuel p e i)).
Proof.
  induction p as [p IH] using (induction_ltof1 _ height). unfold ltof in IH.
  assert (Hg : forall fuel e i,
            2 * height p + 1 <= fuel -> total (guarded e) (cp fuel p e i)).
  { intros [|fuel] e i Hf; [lia|]. simpl. apply total_guarded_pass.
    intros c e' i' Hin. apply height_child in Hin as Hlt.
    apply (IH c Hlt). lia. }
  split; [exact Hg|].
  intros [|fuel] e i Hf; [lia|]. simpl. apply total_pass.
  - intros c e' i' Hin. apply height_child in Hin as Hlt.
    apply (IH c Hlt). lia.
  - intros i'. apply Hg. lia.
Qed.

Theorem complete_parameters_total fuel p e inputs st :
  2 * height p + 2 <= fuel ->
  (cp fuel p e inputs st).2 <> OutOfFuel.
Proof.
  intros Hf. apply (proj2 (complete_parameters_total_both p) fuel e inputs Hf).
  exact Logic.I.
Qed.

End PassTerminates.

(** ** The last phase of a pass *)

Lemma for_each_skips {A} (l : list A) (body : A -> M unit) st :
  (forall a, a ∈ l -> body a = ret tt) -> for_each l body st = (st, [], Ok tt).
Proof.
  induction l as [|a l IH]; intros H; [reflexivity|].
  rewrite for_each_cons, (H a) by left. rewrite bind_ret. apply IH.
  intros b Hb. apply H. right. assumption.
Qed.

Section LastPhase.

Variable PA : list (string * field).

Lemma get_attribute_values_parameters p e st q :
  parameters_of (get_attribute_values PA p e st).1.1 q = parameters_of st q.
Proof.
  apply (get_attribute_values_keeps PA _ _ p e st (closed_parameters st)).
  reflexivity.
Qed.

(** When no parameter resolves to a path, the last phase is the look-up
    of the attribute set and nothing more. *)
Lemma complete_own_parameters_unresolved p e st :
  (forall parameter attributes,
     attributes_to_path p parameter attributes = Returns VNone
     \/ attributes_to_path p parameter attributes = Raises) ->
  complete_own_parameters PA p e st =
  (let '(st1, l1, r1) := get_attribute_values PA p e st in
   (st1, l1 ++ [], match r1 with
                   | Ok _ => Ok tt
                   | Raised => Raised
                   | OutOfFuel => OutOfFuel
                   end)).
Proof.
  intros Hnone. unfold complete_own_parameters.
  destruct (get_attribute_values PA p e st) as [[st1 l1] r1] eqn:E.
  unfold bind at 1. rewrite E.
  destruct r1 as [a| |]; try (rewrite app_nil_r; reflexivity).
  rewrite bind_gets, for_each_skips; [reflexivity|].
  intros pname _. destruct (Hnone pname a) as [-> | ->]; reflexivity.
Qed.

(** C9.  The base [PathCompletionEngine] returns [None] whatever it is
    asked, and a last phase that resolves paths through it assigns nothing:
    every parameter of every process keeps its value. *)
Theorem base_path_completion_resolves_nothing p e st
    (Hbase : get_path_completion_engine p = Returns PathCompletionEngine) :
  (forall info parameter attributes,
     PathCompletionEngine info parameter attributes = Returns VNone)
  /\ (forall parameter attributes,
        attributes_to_path p parameter attributes = Returns VNone)
  /\ (forall q,
        parameters_of (complete_own_parameters PA p e st).1.1 q
        = parameters_of st q).
Proof.
  assert (Hnone : forall parameter attributes,
            attributes_to_path p parameter attributes = Returns VNone).
  { intros. unfold attributes_to_path. rewrite Hbase. reflexivity. }
  repeat split; auto.
  intros q. rewrite complete_own_parameters_unresolved by auto.
  pose proof (get_attribute_values_parameters p e st q) as H.
  destruct (get_attribute_values PA p e st) as [[st1 l1] r1]. exact H.
Qed.

End LastPhase.

(** ** The traversal of the children *)

Lemma calls_by_app h l1 l2 : calls_by h (l1 ++ l2) = calls_by h l1 ++ calls_by h l2.
Proof. apply filter_app. Qed.

Lemma visits_nil inputs : visits inputs [] [].
Proof. repeat split. Qed.

Lemma visits_app inputs cs1 cs2 l1 l2 :
  visits inputs cs1 l1 -> visits inputs cs2 l2 ->
  visits inputs (cs1 ++ cs2) (l1 ++ l2).
Proof.
  intros (A1 & B1 & C1) (A2 & B2 & C2). unfold visits.
  rewrite !calls_by_app, filter_app, !map_app, A1, A2, B1, B2, C1, C2.
  auto.
Qed.

Lemma get_completion_engine_returns p name st :
  exists st' e, get_completion_engine p name st = (st', [], Ok e).
Proof.
  unfold get_completion_engine. rewrite bind_gets.
  destruct (completion_engine (get_proc st (p_id (info_of p)))); eauto.
Qed.

Section Traversal.

Variable PA : list (string * field).
Variable complete : process -> eid -> dict -> M unit.

(** One child: whether its completion raises or not, the traversal goes
    on. *)
Lemma complete_child_run name node_name attrib_values c st :
  (forall e i st0, (complete c e i st0).2 <> OutOfFuel) ->
  exists st' l,
    complete_child complete name node_name attrib_values c st = (st', l, Ok tt)
    /\ visits [("capsul_attributes", VDict attrib_values)] [c] l.
Proof.
  intros Htotal. unfold complete_child.
  destruct (get_completion_engine_returns c (Some (name +:+ "." +:+ node_name)) st)
    as (st1 & ce & E1).
  rewrite (bind_run _ _ _ _ _ _ E1). unfold try_except, recorded, bind, new_engine.
  pose proof (Htotal ce [("capsul_attributes", VDict attrib_values)] st1) as H1.
  destruct (complete c ce [("capsul_attributes", VDict attrib_values)] st1)
    as [[st2 l2] [[]| |]]; simpl in *; try congruence.
  - eexists _, _. split; [reflexivity|]. repeat split.
  - match goal with |- context [complete c ?f ?i ?s] =>
      pose proof (Htotal f i s) as H2; destruct (complete c f i s)
        as [[st3 l3] [[]| |]] end; simpl in *; try congruence;
      (eexists _, _; split; [reflexivity|]; repeat split).
Qed.

Lemma for_each_visits {A} (l : list A) (body : A -> M unit)
    (visited : A -> list process) inputs st :
  (forall a st0, a ∈ l ->
     exists st' lg, body a st0 = (st', lg, Ok tt) /\ visits inputs (visited a) lg) ->
  exists st' lg,
    for_each l body st = (st', lg, Ok tt)
    /\ visits inputs (concat (map visited l)) lg.
Proof.
  revert st. induction l as [|a l IH]; intros st Hbody.
  - exists st, []. split; [reflexivity | apply visits_nil].
  - rewrite for_each_cons.
    destruct (Hbody a st ltac:(left)) as (st1 & l1 & E1 & V1).
    rewrite (bind_run _ _ _ _ _ _ E1).
    destruct (IH st1) as (st2 & l2 & E2 & V2).
    { intros b st0 Hb. apply Hbody. right. assumption. }
    rewrite E2. eexists _, _. split; [reflexivity|].
    simpl. apply visits_app; assumption.
Qed.

Lemma concat_singletons {A} (l : list A) : concat (map (fun a => [a]) l) = l.
Proof. induction l as [|a l IH]; simpl; congruence. Qed.

(** The traversal of a pipeline whose engine has its attribute set [a]. *)
Lemma complete_children_run p e a st :
  attributes_of st e = Some a ->
  (forall c e i st0, c ∈ children p -> (complete c e i st0).2 <> OutOfFuel) ->
  exists st' l,
    complete_children PA complete p e st = (st', l, Ok tt)
    /\ visits [("capsul_attributes", VDict (export_to_dict a))] (children p) l.
Proof.
  intros Ha Htotal. unfold complete_children.
  destruct p as [info cfg|info cfg nodes graph].
  - exists st, []. split; [reflexivity | apply visits_nil].
  - rewrite (bind_run _ _ _ _ _ _ (get_attribute_values_cached PA _ e st a Ha)).
    destruct (for_each_visits graph
                (fun g => for_each (snd g)
                   (complete_child complete (p_name info) (fst g) (export_to_dict a)))
                snd [("capsul_attributes", VDict (export_to_dict a))] st)
      as (st' & l & E & V).
    { intros g st0 Hg.
      destruct (for_each_visits (snd g)
                  (complete_child complete (p_name info) (fst g) (export_to_dict a))
                  (fun c => [c])
                  [("capsul_attributes", VDict (export_to_dict a))] st0)
        as (st' & l & E & V).
      - intros c st1 Hc. apply complete_child_run.
        intros e' i st2. apply Htotal. simpl. apply elem_of_concat.
        exists (snd g). split; [assumption|].
        apply list_elem_of_fmap_2. assumption.
      - rewrite concat_singletons in V. eauto. }
    rewrite E. eauto.
Qed.

End Traversal.

(** ** The shape of a pass *)

Lemma for_each_quiet {A} (l : list A) (body : A -> M unit) st :
  (forall a st0, a ∈ l -> exists st', body a st0 = (st', [], Ok tt)) ->
  exists st', for_each l body st = (st', [], Ok tt).
Proof.
  revert st. induction l as [|a l IH]; intros st Hbody.
  - exists st. reflexivity.
  - rewrite for_each_cons.
    destruct (Hbody a st ltac:(left)) as (st1 & E1).
    rewrite (bind_run _ _ _ _ _ _ E1).
    destruct (IH st1) as (st2 & E2).
    { intros b st0 Hb. apply Hbody. right. assumption. }
    rewrite E2. eauto.
Qed.

Lemma notified_only_calls l :
  notified_only l -> calls_by Child l = [] /\ calls_by Fallback l = [].
Proof.
  induction 1 as [|c l Hc _ [IH1 IH2]]; [split; reflexivity|].
  unfold calls_by in *. rewrite !filter_cons, IH1, IH2, Hc. simpl.
  repeat (destruct (decide _) as [?|?]; [discriminate|]). auto.
Qed.

Section Shape.

Variable PA : list (string * field).
Variable notifies : value -> value -> bool.
Variable complete : process -> eid -> dict -> M unit.

Abbreviation quiet := (preserves anywhere notified_only).

Lemma notified_only_app l1 l2 :
  notified_only l1 -> notified_only l2 -> notified_only (l1 ++ l2).
Proof. intros H1 H2. apply Forall_app. auto. Qed.

Lemma quiet_modify f : quiet (modify f).
Proof. intros st _. split; [exact Logic.I | constructor]. Qed.

Lemma quiet_attributes_changed p e name old new :
  quiet (attributes_changed_with complete p e name old new).
Proof.
  intros st _. split; [exact Logic.I|].
  unfold attributes_changed_with. rewrite bind_gets.
  destruct (negb (name =? "trait_added")
            && negb (name =? "user_traits_changed") && negb (guard st e));
    [|constructor].
  unfold set_completion_ongoing, recorded, bind, modify.
  destruct (complete p e _ _) as [[s l] [[]| |]]; simpl;
    repeat constructor.
Qed.

Lemma quiet_set_parameters p e inputs :
  quiet (set_parameters_with PA notifies complete p e inputs).
Proof.
  pose proof notified_only_app as Happ.
  assert (Hnil : notified_only []) by constructor.
  unfold set_parameters_with, attributes_import_from_dict. repeat pres_step.
  - intros st _. split; [exact Logic.I|].
    rewrite get_attribute_values_no_call. constructor.
  - pres_each. unfold attributes_setattr. repeat pres_step.
    + apply quiet_modify.
    + apply quiet_attributes_changed.
  - unfold process_import_from_dict. pres_each. apply quiet_modify.
Qed.

Lemma complete_own_parameters_run p e a st :
  attributes_of st e = Some a ->
  exists st', complete_own_parameters PA p e st = (st', [], Ok tt).
Proof.
  intros Ha. unfold complete_own_parameters.
  rewrite (bind_run _ _ _ _ _ _ (get_attribute_values_cached PA _ e st a Ha)).
  rewrite bind_gets.
  destruct (for_each_quiet
    (user_trait_names (parameters_of st (p_id (info_of p))))
    (fun pname =>
       match attributes_to_path p pname a with
       | Returns VNone => ret tt
       | Returns value => process_setattr (p_id (info_of p)) pname value
       | Raises => ret tt
       end) st) as (st' & E).
  { intros pname st0 _. destruct (attributes_to_path p pname a) as [[]|]; eauto. }
  rewrite E. eauto.
Qed.

End Shape.

Section PassShape.

Variable PA : list (string * field).
Variable notifies : value -> value -> bool.

Lemma set_parameters_keeps_attributes fuel p e inputs st st1 l1 :
  set_parameters PA notifies fuel p e inputs st = (st1, l1, Ok tt) ->
  exists a, attributes_of st1 e = Some a.
Proof.
  unfold set_parameters. intros H.
  destruct (get_attribute_values PA p e st) as [[st0 l0] r0] eqn:E0.
  destruct r0 as [dst| |];
    [|unfold set_parameters_with, bind in H; rewrite E0 in H; discriminate..].
  pose proof (get_attribute_values_returns PA _ _ _ _ _ _ E0) as Hdst.
  pose proof (preserves_set_parameters PA notifies _ _ (fun _ => True)
                (closed_completion_attributes_exist e)
                (closed_calls_trivial _) (complete_parameters PA notifies fuel)
                ltac:(intros;
                      apply (complete_parameters_preserves PA notifies _
                               (fun _ => True));
                      [apply closed_completion_attributes_exist
                      |apply closed_calls_trivial])
                p e inputs st0 (ex_intro _ dst Hdst)) as [Hkeep _].
  unfold set_parameters_with in H, Hkeep.
  rewrite (bind_run _ _ _ _ _ _ E0) in H.
  rewrite (bind_run _ _ _ _ _ _
             (get_attribute_values_cached PA p e st0 dst Hdst)) in Hkeep.
  match type of H with
  | context [match ?k with pair _ _ => _ end] => destruct k as [[s2 l2] r2]
  end.
  simpl in Hkeep. injection H as <- _ _. exact Hkeep.
Qed.

(** A pass whose [set_parameters] step returns: the traversal visits every
    child with the values exported by the parent, the last phase follows,
    and the pass returns. *)
Lemma complete_parameters_run fuel p e inputs st st1 l1 :
  2 * height p + 2 <= S fuel ->
  set_parameters PA notifies fuel p e inputs st = (st1, l1, Ok tt) ->
  exists a st2 l2 st3,
    attributes_of st1 e = Some a
    /\ complete_children PA (complete_parameters PA notifies fuel) p e st1 = (st2, l2, Ok tt)
    /\ visits [("capsul_attributes", VDict (export_to_dict a))] (children p) l2
    /\ complete_own_parameters PA p e st2 = (st3, [], Ok tt)
    /\ complete_parameters PA notifies (S fuel) p e inputs st = (st3, l1 ++ l2 ++ [], Ok tt).
Proof.
  intros Hfuel Hset.
  destruct (set_parameters_keeps_attributes _ _ _ _ _ _ _ Hset) as [a Ha].
  destruct (complete_children_run PA (complete_parameters PA notifies fuel) p e a st1 Ha)
    as (st2 & l2 & E2 & V2).
  { intros c e' i st0 Hin. apply complete_parameters_total.
    apply height_child in Hin. lia. }
  assert (Ha2 : exists a2, attributes_of st2 e = Some a2).
  { pose proof (preserves_complete_children PA _ _ (fun _ => True)
                  (closed_completion_attributes_exist e)
                  (closed_calls_trivial _) (complete_parameters PA notifies fuel)
                  ltac:(intros;
                        apply (complete_parameters_preserves PA notifies _
                                 (fun _ => True));
                        [apply closed_completion_attributes_exist
                        |apply closed_calls_trivial])
                  p e st1 (ex_intro _ a Ha)) as [Hkeep _].
    rewrite E2 in Hkeep. exact Hkeep. }
  destruct Ha2 as [a2 Ha2].
  destruct (complete_own_parameters_run PA p e a2 st2 Ha2) as (st3 & E3).
  exists a, st2, l2, st3. do 4 (split; [assumption|]).
  change (complete_parameters PA notifies (S fuel))
    with (complete_parameters_with PA notifies (complete_parameters PA notifies fuel)).
  unfold complete_parameters_with.
  unfold set_parameters in Hset.
  rewrite (bind_run _ _ _ _ _ _ Hset), (bind_run _ _ _ _ _ _ E2), E3.
  reflexivity.
Qed.

End PassShape.

(** ** complete_parameters on a pipeline *)

Section Pipelines.

Variable PA : list (string * field).
Variable notifies : value -> value -> bool.

Lemma pass_calls fuel p e inputs st st1 l1 :
  2 * height p + 2 <= S fuel ->
  set_parameters PA notifies fuel p e inputs st = (st1, l1, Ok tt) ->
  exists a l2,
    attributes_of st1 e = Some a
    /\ visits [("capsul_attributes", VDict (export_to_dict a))] (children p) l2
    /\ (complete_parameters PA notifies (S fuel) p e inputs st).2 = Ok tt
    /\ calls_by Child (complete_parameters PA notifies (S fuel) p e inputs st).1.2
       = calls_by Child l2
    /\ calls_by Fallback (complete_parameters PA notifies (S fuel) p e inputs st).1.2
       = calls_by Fallback l2.
Proof.
  intros Hfuel Hset.
  destruct (complete_parameters_run PA notifies _ _ _ _ _ _ _ Hfuel Hset)
    as (a & st2 & l2 & st3 & Ha & _ & V & _ & ->).
  exists a, l2. do 2 (split; [assumption|]). split; [reflexivity|].
  pose proof (quiet_set_parameters PA notifies
                (complete_parameters PA notifies fuel) p e inputs st Logic.I)
    as [_ Hq].
  unfold set_parameters in Hset. rewrite Hset in Hq. simpl in Hq.
  apply notified_only_calls in Hq. destruct Hq as [Hc Hf].
  cbn [fst snd]. rewrite !calls_by_app, Hc, Hf, !app_nil_r. auto.
Qed.

(** C2.  A pass on a pipeline calls [complete_parameters] on the children
    in the topological order of the workflow graph, each on the process
    under the graph entry, and each with one argument: the attribute
    values exported by the parent after its own [set_parameters] step,
    under the key ['capsul_attributes']. *)
Theorem children_completed_in_topological_order fuel p e inputs st st1 l1 a
    (Hfuel : 2 * height p + 2 <= S fuel)
    (Hset : set_parameters PA notifies fuel p e inputs st = (st1, l1, Ok tt))
    (Hattributes : attributes_of st1 e = Some a) :
  map (fun c => (call_target c, call_inputs c))
      (calls_by Child (complete_parameters PA notifies (S fuel) p e inputs st).1.2)
  = map (fun c => (p_id (info_of c),
                   [("capsul_attributes", VDict (export_to_dict a))]))
        (children p).
Proof.
  destruct (pass_calls _ _ _ _ _ _ _ Hfuel Hset)
    as (a' & l2 & Ha' & (V & _ & _) & _ & -> & _).
  assert (a' = a) by congruence. subst a'. exact V.
Qed.

(** C6, as the code has it.  Once the [set_parameters] step of a pass has
    returned, the pass returns: neither a parameter whose resolution raises
    nor the pure-virtual [PathCompletionEngineFactory] aborts it.  The
    factory does raise where it is called, in [attributes_to_path]; the
    last phase catches that for each parameter and assigns nothing. *)
Theorem parameter_failures_never_abort_the_pass fuel p e inputs st st1 l1
    (Hfuel : 2 * height p + 2 <= S fuel)
    (Hset : set_parameters PA notifies fuel p e inputs st = (st1, l1, Ok tt)) :
  (complete_parameters PA notifies (S fuel) p e inputs st).2 = Ok tt
  /\ (get_path_completion_engine p = Raises ->
      (forall parameter attributes,
         attributes_to_path p parameter attributes = Raises)
      /\ (forall e' st' q,
            parameters_of (complete_own_parameters PA p e' st').1.1 q
            = parameters_of st' q)).
Proof.
  split.
  - destruct (pass_calls _ _ _ _ _ _ _ Hfuel Hset) as (a & l2 & _ & _ & -> & _).
    reflexivity.
  - intros Hmisuse.
    assert (Hraises : forall parameter attributes,
              attributes_to_path p parameter attributes = Raises).
    { intros. unfold attributes_to_path. rewrite Hmisuse. reflexivity. }
    split; [exact Hraises|]. intros e' st' q.
    rewrite complete_own_parameters_unresolved by auto.
    pose proof (get_attribute_values_parameters PA p e' st' q) as H.
    destruct (get_attribute_values PA p e' st') as [[s l] r]. exact H.
Qed.

End Pipelines.

(** ** The notification handler *)

Section Handler.

Variable PA : list (string * field).
Variable notifies : value -> value -> bool.

(** C4.  Called outside a pass for the change of an attribute (not for
    ['trait_added'] or ['user_traits_changed']), [attributes_changed] sets
    the guard and runs one [complete_parameters] pass whose argument holds
    the changed attribute alone.  Nothing that happens during that pass, at
    any depth, makes the handler of this engine start another pass: the
    pass is the only one recorded for the engine.  When the pass returns
    the guard is cleared. *)
Theorem attributes_changed_runs_one_pass fuel p e name old new st
    (Hname1 : name <> "trait_added")
    (Hname2 : name <> "user_traits_changed")
    (Hidle : guard st e = false)
    (Hengine : allocated st e)
    (Hfuel : 2 * height p + 1 <= fuel) :
  exists st' nested r,
    attributes_changed PA notifies fuel p e name old new st
    = (st', [Call Notified (p_id (info_of p)) e
                  [("capsul_attributes", VDict [(name, new)])] nested r], r)
    /\ r <> OutOfFuel
    /\ count_notified e nested = 0
    /\ count_notified e (attributes_changed PA notifies fuel p e name old new st).1.2
       = 1
    /\ (r = Ok tt -> guard st' e = false).
Proof.
  assert (Hrun : exists st' nested r,
    attributes_changed PA notifies fuel p e name old new st
    = (st', [Call Notified (p_id (info_of p)) e
                  [("capsul_attributes", VDict [(name, new)])] nested r], r)
    /\ r <> OutOfFuel
    /\ count_notified e nested = 0
    /\ (r = Ok tt -> guard st' e = false)).
  { unfold attributes_changed, attributes_changed_with. rewrite bind_gets, Hidle.
    apply String.eqb_neq in Hname1, Hname2. rewrite Hname1, Hname2.
    change (negb false && negb false && negb false) with true. cbv iota.
    unfold set_completion_ongoing at 1. rewrite bind_modify.
    match goal with |- context [bind (recorded _ _ _ _ _) _ ?s] =>
      assert (Hg : guarded e s) by
        (split; [apply allocated_set_engine; assumption
                | unfold guard; rewrite get_engine_set_eq by assumption;
                  reflexivity]);
      revert Hg; generalize s end.
    intros st2 Hg.
    pose proof (proj1 (complete_parameters_total_both PA notifies p) fuel e
                  [("capsul_attributes", VDict [(name, new)])] Hfuel st2 Hg)
      as Htot.
    pose proof (complete_parameters_preserves PA notifies _ _ _
                  (closed_guarded e) (closed_calls_unnotified e) fuel p e
                  [("capsul_attributes", VDict [(name, new)])] st2 Hg)
      as [[Ha3 Hg3] Hq3].
    unfold bind, recorded, set_completion_ongoing, modify.
    destruct (complete_parameters PA notifies fuel p e
                [("capsul_attributes", VDict [(name, new)])] st2)
      as [[st3 l3] [[]| |]]; simpl in *; try congruence.
    - eexists _, l3, (Ok tt). split; [reflexivity|].
      split; [discriminate|]. split; [assumption|].
      intros _. unfold guard. rewrite get_engine_set_eq by assumption.
      reflexivity.
    - eexists _, l3, Raised. split; [reflexivity|].
      split; [discriminate|]. split; [assumption|]. discriminate. }
  destruct Hrun as (st' & nested & r & E & Hr & Hn & Hc).
  exists st', nested, r. rewrite E. repeat split; try assumption.
  cbn [fst snd count_notified]. rewrite notified_passes_call, Hn, Nat.eqb_refl.
  reflexivity.
Qed.

End Handler.

(** ** set_parameters *)

Lemma process_import_from_dict_run q d st :
  exists st',
    process_import_from_dict q d st = (st', [], Ok tt)
    /\ engines st' = engines st
    /\ parameters_of st' q
       = fold_left (fun c kv => assign c (fst kv) (snd kv)) d (parameters_of st q)
    /\ (forall q', q' <> q -> parameters_of st' q' = parameters_of st q').
Proof.
  revert st. unfold process_import_from_dict.
  induction d as [|kv d IH]; intros st.
  - exists st. repeat split.
  - rewrite for_each_cons. unfold process_setattr at 1. rewrite bind_modify.
    match goal with |- context [for_each d _ ?s] =>
      destruct (IH s) as (st' & E & He & Hp & Ho) end.
    exists st'. split; [exact E|]. split; [rewrite He; reflexivity|]. split.
    + rewrite Hp. simpl. f_equal. unfold parameters_of at 1.
      rewrite get_proc_set_proc. rewrite decide_True by reflexivity. reflexivity.
    + intros q' Hne. rewrite (Ho q' Hne). unfold parameters_of.
      rewrite get_proc_set_proc. rewrite decide_False by congruence. reflexivity.
Qed.

Lemma filter_filter_same {A} (P : A -> Prop) `{!forall x, Decision (P x)}
    (l : list A) : filter P (filter P l) = filter P l.
Proof.
  induction l as [|a l IH]; [reflexivity|].
  rewrite filter_cons. destruct (decide (P a)) as [Ha|Ha]; [|exact IH].
  rewrite filter_cons, decide_True by assumption. rewrite IH. reflexivity.
Qed.

Lemma filter_none {A} (P : A -> Prop) `{!forall x, Decision (P x)} (l : list A) :
  (forall a, a ∈ l -> ~ P a) -> filter P l = [].
Proof.
  induction l as [|a l IH]; intros Hl; [reflexivity|].
  rewrite filter_cons, decide_False by (apply Hl; left).
  apply IH. intros b Hb. apply Hl. right. assumption.
Qed.

Section SetParameters.

Variable PA : list (string * field).
Variable notifies : value -> value -> bool.

(** With the attribute set [c] in place, [set_parameters] is the import
    of the declared attributes followed by the import of the parameters. *)
Lemma set_parameters_cached fuel p e c inputs st :
  attributes_of st e = Some c ->
  set_parameters PA notifies fuel p e inputs st =
  (match dict_get "capsul_attributes" inputs with
   | Some attributes =>
       if truthy attributes then
         match attributes with
         | VDict attributes =>
             attributes_import_from_dict notifies
               (complete_parameters PA notifies fuel) p e
               (filter (fun kv => fst kv ∈ user_trait_names c) attributes)
         | _ => raise
         end
       else ret tt
   | None => ret tt
   end ;;;
   process_import_from_dict (p_id (info_of p))
     (filter (fun kv => fst kv ≠ "capsul_attributes") inputs)) st.
Proof.
  intros Hc. unfold set_parameters, set_parameters_with.
  rewrite (bind_run _ _ _ _ _ _ (get_attribute_values_cached PA p e st c Hc)).
  match goal with |- context [match ?k with pair _ _ => _ end] =>
    destruct k as [[s l] r] end.
  reflexivity.
Qed.

(** C8.  Only the attributes that the attribute set already declares are
    imported: the other entries of the ['capsul_attributes'] dictionary
    could as well be absent.  When none of its names is declared, the
    attribute set and the engines are left as they were, no pass is
    started, and the other entries of the argument are assigned to the
    process one by one. *)
Theorem set_parameters_drops_unknown_attributes fuel p e st c attrs rest inputs
    (Hattributes : attributes_of st e = Some c) :
  set_parameters PA notifies fuel p e (("capsul_attributes", VDict attrs) :: rest) st
  = set_parameters PA notifies fuel p e
      (("capsul_attributes",
        VDict (filter (fun kv => fst kv ∈ user_trait_names c) attrs)) :: rest) st
  /\ (dict_get "capsul_attributes" inputs = Some (VDict attrs) ->
      (forall kv, kv ∈ attrs -> fst kv ∉ user_trait_names c) ->
      let run := set_parameters PA notifies fuel p e inputs st in
      run.2 = Ok tt
      /\ run.1.2 = []
      /\ attributes_of run.1.1 e = Some c
      /\ engines run.1.1 = engines st
      /\ parameters_of run.1.1 (p_id (info_of p))
         = fold_left (fun c kv => assign c (fst kv) (snd kv))
             (filter (fun kv => fst kv ≠ "capsul_attributes") inputs)
             (parameters_of st (p_id (info_of p)))).
Proof.
  split.
  - rewrite !(set_parameters_cached fuel p e c _ st Hattributes).
    cbn [dict_get String.eqb Ascii.eqb Bool.eqb]. cbv iota.
    rewrite filter_filter_same.
    rewrite !filter_cons, !decide_False by (intros H; apply H; reflexivity).
    destruct attrs as [|kv attrs]; [reflexivity|].
    destruct (filter (fun kv0 => fst kv0 ∈ user_trait_names c) (kv :: attrs))
      as [|kv' l] eqn:E; reflexivity.
  - intros Hget Hunknown. cbv zeta.
    rewrite (set_parameters_cached fuel p e c _ st Hattributes), Hget.
    rewrite (filter_none _ attrs) by assumption.
    destruct (process_import_from_dict_run (p_id (info_of p))
                (filter (fun kv => fst kv ≠ "capsul_attributes") inputs) st)
      as (st' & E & He & Hp & _).
    assert (Hrun : (if truthy (VDict attrs)
                    then attributes_import_from_dict notifies
                           (complete_parameters PA notifies fuel) p e []
                    else ret tt) = ret tt) by (destruct attrs; reflexivity).
    rewrite Hrun, bind_ret, E. cbn [fst snd].
    repeat split; try assumption.
    unfold attributes_of, get_engine. rewrite He. exact Hattributes.
Qed.

End SetParameters.

(** ** The merge of the children's attributes *)

Lemma lookup_field_app k l1 l2 :
  lookup_field k (l1 ++ l2) =
  match lookup_field k l1 with
  | Some f => Some f
  | None => lookup_field k l2
  end.
Proof.
  induction l1 as [|[k' f'] l1 IH]; simpl; [reflexivity|].
  destruct (String.eqb k k'); [reflexivity | exact IH].
Qed.

Lemma lookup_merge_parent k f parent child :
  lookup_field k parent = Some f ->
  lookup_field k (merge_first_wins parent child) = Some f.
Proof.
  unfold merge_first_wins. revert parent.
  induction child as [|af child IH]; intros parent H; simpl; [exact H|].
  apply IH. destruct (lookup_field (fst af) parent); [exact H|].
  rewrite lookup_field_app, H. reflexivity.
Qed.

Lemma lookup_merge_child k parent child :
  lookup_field k parent = None ->
  lookup_field k (merge_first_wins parent child) = lookup_field k child.
Proof.
  unfold merge_first_wins. revert parent.
  induction child as [|[k' f'] child IH]; intros parent H; simpl; [exact H|].
  destruct (String.eqb k k') eqn:E.
  - apply String.eqb_eq in E. subst k'. rewrite H.
    apply (lookup_merge_parent k f' (parent ++ [(k, f')]) child).
    rewrite lookup_field_app, H. simpl. rewrite String.eqb_refl. reflexivity.
  - apply IH. destruct (lookup_field k' parent); [exact H|].
    rewrite lookup_field_app, H. simpl. rewrite E. reflexivity.
Qed.

Lemma lookup_merged_declared k f (subs : list (list (string * field))) parent :
  lookup_field k parent = Some f ->
  lookup_field k (fold_left merge_first_wins subs parent) = Some f.
Proof.
  revert parent. induction subs as [|sub subs IH]; intros parent H; simpl;
    [exact H|].
  apply IH, lookup_merge_parent, H.
Qed.

(** The first set that declares a name decides its value. *)
Lemma lookup_merged_first k f before sub after parent :
  lookup_field k parent = None ->
  (forall s, s ∈ before -> lookup_field k s = None) ->
  lookup_field k sub = Some f ->
  lookup_field k (fold_left merge_first_wins (before ++ sub :: after) parent)
  = Some f.
Proof.
  revert parent. induction before as [|s before IH]; intros parent Hp Hb Hs; simpl.
  - apply lookup_merged_declared. rewrite lookup_merge_child by assumption.
    exact Hs.
  - apply IH; [|intros s' Hs'; apply Hb; right; assumption | assumption].
    rewrite lookup_merge_child by assumption. apply Hb. left.
Qed.

Lemma only_attributes_changed_refl e st : only_attributes_changed e st st.
Proof. repeat split. Qed.

Lemma only_attributes_changed_trans e st1 st2 st3 :
  only_attributes_changed e st1 st2 -> only_attributes_changed e st2 st3 ->
  only_attributes_changed e st1 st3.
Proof.
  intros (P1 & L1 & E1) (P2 & L2 & E2). repeat split; try congruence.
  intros e' Hne. rewrite E2, E1 by assumption. reflexivity.
Qed.

Lemma set_attributes_only e c st :
  allocated st e ->
  attributes_of (set_attributes e c st).1.1 e = Some c
  /\ only_attributes_changed e st (set_attributes e c st).1.1.
Proof.
  intros Ha. unfold set_attributes, modify, attributes_of. simpl. split.
  - rewrite get_engine_set_eq by assumption. reflexivity.
  - repeat split.
    + unfold set_engine. simpl. rewrite length_insert. reflexivity.
    + intros e' Hne. apply get_engine_set_ne. congruence.
Qed.

Lemma update_attributes_only e f a st :
  attributes_of st e = Some a ->
  update_attributes e f st
  = (set_engine st e (Engine (e_name (get_engine st e))
                             (completion_ongoing (get_engine st e)) (Some (f a))),
     [], Ok tt)
  /\ attributes_of (update_attributes e f st).1.1 e = Some (f a)
  /\ only_attributes_changed e st (update_attributes e f st).1.1.
Proof.
  intros Ha. pose proof (attributes_allocated _ _ _ Ha) as Hal.
  unfold update_attributes, modify, attributes_of in *. simpl. rewrite Ha.
  split; [reflexivity|]. split.
  - simpl. rewrite get_engine_set_eq by assumption. reflexivity.
  - repeat split; simpl.
    + unfold set_engine. simpl. rewrite length_insert. reflexivity.
    + intros e' Hne. apply get_engine_set_ne. congruence.
Qed.

(** The inner loop computes the merge of the specification on the
    attribute set of the parent and changes nothing else. *)
Lemma merge_attributes_run e sub st a :
  attributes_of st e = Some a ->
  exists st',
    merge_attributes e sub st = (st', [], Ok tt)
    /\ attributes_of st' e
       = Some (Controller (c_oid a)
                 (merge_first_wins (c_fields a) (c_fields sub)) (c_observed a))
    /\ only_attributes_changed e st st'.
Proof.
  unfold merge_attributes, merge_first_wins.
  generalize (c_fields sub) as fields. intros fields. revert st a.
  induction fields as [|af fields IH]; intros st a Ha.
  - exists st. destruct a. simpl. auto using only_attributes_changed_refl.
  - assert (Hstep : exists st1,
      (attributes <- gets (fun st0 => attributes_of st0 e) ;;
       match attributes with
       | Some a0 =>
           match trait a0 (fst af) with
           | Some _ => ret tt
           | None => update_attributes e (fun a1 => add_trait a1 (fst af) (snd af))
           end
       | None => ret tt
       end) st = (st1, [], Ok tt)
      /\ attributes_of st1 e
         = Some (Controller (c_oid a)
                   (match lookup_field (fst af) (c_fields a) with
                    | Some _ => c_fields a
                    | None => c_fields a ++ [af]
                    end) (c_observed a))
      /\ only_attributes_changed e st st1).
    { rewrite bind_gets, Ha. unfold trait.
      destruct (lookup_field (fst af) (c_fields a)) as [f|] eqn:E.
      - exists st. destruct a. simpl. auto using only_attributes_changed_refl.
      - destruct (update_attributes_only e
                    (fun a => add_trait a (fst af) (snd af)) a st Ha)
          as (Ev & Hv & Hch).
        rewrite Ev in Hv, Hch. simpl in Hv, Hch.
        eexists. split; [exact Ev|]. split; [|exact Hch].
        rewrite Hv. destruct af. reflexivity. }
    destruct Hstep as (st1 & E1 & Ha1 & Hch1).
    rewrite for_each_cons, (bind_run _ _ _ _ _ _ E1).
    destruct (IH _ _ Ha1) as (st' & E' & Ha' & Hch').
    rewrite E'. exists st'. split; [reflexivity|]. split.
    + rewrite Ha'. reflexivity.
    + eapply only_attributes_changed_trans; eassumption.
Qed.

Lemma bind_new_controller {B} fs (k : controller -> M B) st :
  bind (new_controller fs) k st
  = k (Controller (next_oid st) fs false)
      (Store (procs st) (engines st) (S (next_oid st))).
Proof.
  unfold bind, new_controller. destruct (k _ _) as [[s l] r]. reflexivity.
Qed.

Lemma bind_set_attributes {B} e c (k : unit -> M B) st :
  bind (set_attributes e c) k st = k tt (set_attributes e c st).1.1.
Proof. unfold set_attributes. rewrite bind_modify. reflexivity. Qed.

Lemma only_attributes_changed_oid e st n :
  only_attributes_changed e st (Store (procs st) (engines st) n).
Proof. repeat split. Qed.


(** ** The merge when the children's sets are still to be built *)

Lemma closed_attached q ce :
  closed_under_building (fun st => attached st q ce) (fun _ => True).
Proof.
  split; auto; unfold attached; intros st p name H Hnone.
  rewrite get_proc_set_proc. destruct (decide (p = q)) as [->|_]; [|exact H].
  congruence.
Qed.

Lemma closed_well_attached :
  closed_under_building well_attached (fun _ => True).
Proof.
  split; auto; unfold well_attached, attached, allocated.
  - intros st en H q ce Hq. simpl. rewrite length_app. apply H in Hq. lia.
  - intros st e c H _ q ce Hq. simpl. rewrite length_insert.
    apply (H q ce Hq).
  - intros st p name H Hnone q ce. rewrite get_proc_set_proc. simpl.
    rewrite length_app. simpl.
    destruct (decide (p = q)) as [->|_].
    + simpl. intros [= <-]. lia.
    + intros Hq. apply H in Hq. lia.
Qed.

Lemma closed_unserved q e :
  closed_under_building
    (fun st => allocated st e /\ ~ attached st q e) (fun _ => True).
Proof.
  split; auto; unfold attached, allocated.
  - intros st en [Ha H]. simpl. rewrite length_app. split; [lia | exact H].
  - intros st e' c [Ha H] _. simpl. rewrite length_insert. auto.
  - intros st p name [Ha H] Hnone. simpl. rewrite length_app.
    split; [lia|]. rewrite get_proc_set_proc.
    destruct (decide (p = q)) as [->|_]; [|exact H].
    simpl. intros [= Heq]. lia.
Qed.

Lemma stable_refl e st : stable e st st.
Proof. repeat split; auto. Qed.

Lemma stable_trans e st1 st2 st3 :
  (allocated st1 e -> allocated st2 e) ->
  stable e st1 st2 -> stable e st2 st3 -> stable e st1 st3.
Proof.
  intros Ha (W1 & A1 & S1 & U1) (W2 & A2 & S2 & U2). repeat split; auto.
Qed.

Lemma only_attributes_changed_stable e st st' :
  only_attributes_changed e st st' -> stable e st st'.
Proof.
  intros (P & L & E).
  unfold stable, well_attached, attached, allocated, attributes_of, get_proc.
  rewrite P, L. repeat split; auto.
  intros ce sub H Hne. rewrite E by assumption. exact H.
Qed.

Section GeneralMerge.

Variable PA : list (string * field).

Lemma merge_attributes_returns e sub st :
  exists st', merge_attributes e sub st = (st', [], Ok tt).
Proof.
  unfold merge_attributes. apply for_each_quiet. intros af st0 _.
  rewrite bind_gets. destruct (attributes_of st0 e) as [a|]; [|eauto].
  destruct (trait a (fst af)); eauto.
Qed.

(** The attribute set of an unbuildable process: the constructor, or the
    look-up of the schemas, raises whatever the engine. *)
Lemma get_attribute_values_unbuildable p e st :
  buildable p = false -> attributes_of st e = None ->
  (get_attribute_values PA p e st).2 = Raised.
Proof.
  intros Hb Hnone. rewrite get_attribute_values_unfold, bind_gets, Hnone.
  unfold build_attribute_values. rewrite bind_new_controller, bind_set_attributes.
  unfold buildable in Hb.
  destruct (schemas_found (config_of p)); [|reflexivity].
  rewrite bind_ret. simpl in Hb.
  destruct (select_attributes_class p) as [[[fs|]]|]; try discriminate.
  reflexivity.
Qed.

(** What [get_attribute_values] gives, as a triple with no call. *)
Lemma get_attribute_values_run p e st :
  exists st1 r,
    get_attribute_values PA p e st = (st1, [], r) /\ r <> OutOfFuel.
Proof.
  pose proof (get_attribute_values_no_call PA p e st) as Hl.
  pose proof (get_attribute_values_total PA p e st Logic.I) as Ht.
  destruct (get_attribute_values PA p e st) as [[st1 l] r]. simpl in *.
  subst l. eauto.
Qed.

Lemma child_attribute_values_returns pname c st :
  exists st1 osub,
    child_attribute_values (get_attribute_values PA) pname c st
    = (st1, [], Ok osub).
Proof.
  unfold child_attribute_values.
  destruct (get_completion_engine_returns c (Some pname) st) as (sa & ce & Ea).
  rewrite (bind_run _ _ _ _ _ _ Ea).
  unfold attempt, try_except, bind, new_engine.
  destruct (get_attribute_values_run c ce sa) as (sb & r & Eb & Hr).
  rewrite Eb. destruct r as [a| |]; [eauto | | congruence].
  match goal with |- context [get_attribute_values PA c ?f ?s] =>
    destruct (get_attribute_values_run c f s) as (sc & r' & Ec & Hr');
    rewrite Ec end.
  destruct r' as [a| |]; [eauto | eauto | congruence].
Qed.

Lemma merge_node_returns e name nn st :
  exists st', merge_node (get_attribute_values PA) e name nn st = (st', [], Ok tt).
Proof.
  unfold merge_node. destruct (String.eqb (fst nn) ""); [eauto|].
  destruct (snd nn) as [c|]; [|eauto].
  destruct (child_attribute_values_returns (name +:+ "." +:+ fst nn) c st)
    as (st1 & osub & E).
  rewrite (bind_run _ _ _ _ _ _ E).
  destruct osub as [sub|]; [|eauto].
  destruct (merge_attributes_returns e sub st1) as (st' & E').
  rewrite E'. eauto.
Qed.

Lemma merge_nodes_returns e name nodes st :
  exists st',
    for_each nodes (merge_node (get_attribute_values PA) e name) st
    = (st', [], Ok tt).
Proof. apply for_each_quiet. intros nn st0 _. apply merge_node_returns. Qed.

Lemma merge_nodes_keep I touch e name nodes st :
  closed_under_building I touch -> touch e ->
  I st ->
  I (for_each nodes (merge_node (get_attribute_values PA) e name) st).1.1.
Proof.
  intros HI Ht Hst.
  apply (preserves_for_each I (fun _ => True) Logic.I ltac:(auto)
           nodes (merge_node (get_attribute_values PA) e name)); [|exact Hst].
  intros nn _.
  apply (preserves_merge_node I touch (fun _ => True) HI Logic.I ltac:(auto));
    [exact Ht|].
  intros c e' _.
  apply (get_attribute_values_preserves PA I touch (fun _ => True) HI Logic.I
           ltac:(auto)).
Qed.

(** A buildable process gets its attribute set. *)
Lemma get_attribute_values_built p e st :
  attributes_of st e = None -> allocated st e -> buildable p = true ->
  exists st1 a, get_attribute_values PA p e st = (st1, [], Ok a).
Proof.
  intros Hnone Ha Hb.
  destruct (get_attribute_values_run p e st) as (st1 & r & E & Hr).
  destruct r as [a| |]; [eauto | exfalso | congruence].
  revert E. rewrite get_attribute_values_unfold, bind_gets, Hnone.
  unfold build_attribute_values. rewrite bind_new_controller, bind_set_attributes.
  unfold buildable in Hb. apply andb_prop in Hb. destruct Hb as [Hs Hc].
  rewrite Hs, bind_ret.
  assert (Hfields : exists fs,
    match select_attributes_class p with
    | Some cls => match ac_new cls with
                  | Some fs => ret fs
                  | None => raise
                  end
    | None => ret PA
    end = ret fs).
  { destruct (select_attributes_class p) as [[[fs|]]|]; try discriminate; eauto. }
  destruct Hfields as (fs & ->).
  rewrite bind_ret, bind_new_controller, bind_set_attributes.
  match goal with |- context [bind ?m _ ?s] =>
    assert (Hex : exists c, attributes_of s e = Some c);
    [|assert (Hm : exists s', m s = (s', [], Ok tt))] end.
  { eexists. apply set_attributes_only.
    unfold allocated, set_attributes, modify, set_engine. simpl.
    rewrite length_insert. exact Ha. }
  { destruct (select_attributes_class p); [eauto|].
    destruct p as [info cfg|info cfg nodes graph]; [eauto|].
    apply merge_nodes_returns. }
  destruct Hm as (s' & Em).
  assert (Hex' : exists c, attributes_of s' e = Some c).
  { revert Em. destruct (select_attributes_class p);
      [intros [= <-]; exact Hex|].
    destruct p as [info cfg|info cfg nodes graph];
      [intros [= <-]; exact Hex|].
    intros Em.
    match type of Em with for_each _ _ ?s = _ =>
      pose proof (merge_nodes_keep _ _ e (p_name info) nodes s
                    (closed_attributes_exist e) Logic.I Hex) as Hk end.
    rewrite Em in Hk. exact Hk. }
  destruct Hex' as (c' & Hc').
  rewrite (bind_run _ _ _ _ _ _ Em), bind_gets, Hc'. discriminate.
Qed.

(** An unbuildable process leaves the default [Controller()] on the
    engine. *)
Lemma get_attribute_values_failed p e st :
  attributes_of st e = None -> allocated st e -> buildable p = false ->
  exists st1 c0,
    get_attribute_values PA p e st = (st1, [], Raised)
    /\ attributes_of st1 e = Some c0 /\ c_fields c0 = [].
Proof.
  intros Hnone Ha Hb.
  assert (E : get_attribute_values PA p e st
              = ((set_attributes e (Controller (next_oid st) [] false)
                    (Store (procs st) (engines st) (S (next_oid st)))).1.1,
                 [], Raised)).
  { rewrite get_attribute_values_unfold, bind_gets, Hnone.
    unfold build_attribute_values.
    rewrite bind_new_controller, bind_set_attributes.
    unfold buildable in Hb.
    destruct (schemas_found (config_of p)); [|reflexivity].
    rewrite bind_ret. simpl in Hb.
    destruct (select_attributes_class p) as [[[fs|]]|]; try discriminate.
    reflexivity. }
  eexists _, (Controller (next_oid st) [] false).
  split; [exact E|]. split; [|reflexivity].
  apply set_attributes_only. exact Ha.
Qed.

Lemma get_attribute_values_outcome p e st :
  allocated st e ->
  exists st1 r sub,
    get_attribute_values PA p e st = (st1, [], r)
    /\ attributes_of st1 e = Some sub
    /\ (r = Ok sub \/ (r = Raised /\ c_fields sub = [] /\ buildable p = false)).
Proof.
  intros Ha. destruct (attributes_of st e) as [sub|] eqn:E.
  - exists st, (Ok sub), sub. split; [|auto].
    apply get_attribute_values_cached. assumption.
  - destruct (buildable p) eqn:Hb.
    + destruct (get_attribute_values_built p e st E Ha Hb) as (st1 & a & E1).
      exists st1, (Ok a), a. split; [exact E1|]. split; [|auto].
      eapply get_attribute_values_returns. eassumption.
    + destruct (get_attribute_values_failed p e st E Ha Hb)
        as (st1 & c0 & E1 & H1 & H2).
      exists st1, Raised, c0. split; [exact E1|]. split; [exact H1|].
      right. auto.
Qed.

Lemma get_completion_engine_spec c name e st :
  well_attached st -> allocated st e -> ~ attached st (p_id (info_of c)) e ->
  exists sa ce,
    get_completion_engine c name st = (sa, [], Ok ce)
    /\ attached sa (p_id (info_of c)) ce /\ allocated sa ce /\ ce <> e.
Proof.
  intros Hw Ha Hn. unfold get_completion_engine. rewrite bind_gets.
  destruct (completion_engine (get_proc st (p_id (info_of c)))) as [ce|] eqn:E.
  - exists st, ce. split; [reflexivity|]. split; [exact E|].
    split; [apply (Hw _ _ E)|]. intros ->. apply Hn. exact E.
  - eexists _, (length (engines st)). split; [reflexivity|].
    unfold attached, allocated in *. simpl. rewrite get_proc_set_proc.
    rewrite decide_True by reflexivity. simpl. rewrite length_app. simpl.
    split; [reflexivity|]. split; lia.
Qed.

Lemma fallback_keeps I touch c st :
  closed_under_building I touch -> I st ->
  I ((subprocess_compl <- new_engine None ;;
      get_attribute_values PA c subprocess_compl) st).1.1.
Proof.
  intros HI Hst.
  apply (preserves_bind I (fun _ => True) ltac:(auto)
           (new_engine None) (fun f => get_attribute_values PA c f)); [| |exact Hst].
  - apply (preserves_new_engine I touch (fun _ => True) HI Logic.I).
  - intros f. apply (get_attribute_values_preserves PA I touch (fun _ => True) HI
                       Logic.I ltac:(auto)).
Qed.

Lemma fallback_unbuildable c st :
  buildable c = false ->
  ((subprocess_compl <- new_engine None ;;
    get_attribute_values PA c subprocess_compl) st).1.2 = []
  /\ ((subprocess_compl <- new_engine None ;;
       get_attribute_values PA c subprocess_compl) st).2 = Raised.
Proof.
  intros Hb. unfold bind, new_engine.
  match goal with |- context [get_attribute_values PA c ?f ?s] =>
    pose proof (get_attribute_values_unbuildable c f s Hb) as Hr;
    destruct (get_attribute_values_run c f s) as (s1 & r & E & _) end.
  rewrite E in *. simpl in *. rewrite Hr; [|].
  - destruct r; auto.
  - unfold attributes_of, get_engine. simpl.
    rewrite lookup_total_app_r by lia. rewrite Nat.sub_diag. reflexivity.
Qed.

Lemma attempt_run {A} (m : M A) st s r :
  m st = (s, [], r) ->
  attempt m st
  = (s, [], match r with
            | Ok a => Ok (Some a)
            | Raised => Ok None
            | OutOfFuel => OutOfFuel
            end).
Proof.
  intros E. unfold attempt, try_except, bind. rewrite E.
  destruct r; reflexivity.
Qed.

Lemma child_attribute_values_keeps I touch pname c st :
  closed_under_building I touch -> I st ->
  I (child_attribute_values (get_attribute_values PA) pname c st).1.1.
Proof.
  intros HI Hst.
  apply (preserves_child_attribute_values I touch (fun _ => True) HI Logic.I
           ltac:(auto) (get_attribute_values PA) pname c); [|exact Hst].
  intros e. apply (get_attribute_values_preserves PA I touch (fun _ => True) HI
                     Logic.I ltac:(auto)).
Qed.

Lemma child_attribute_values_stable e pname c st :
  let st1 := (child_attribute_values (get_attribute_values PA) pname c st).1.1 in
  stable e st st1
  /\ (forall ce sub, attributes_of st ce = Some sub -> attributes_of st1 ce = Some sub)
  /\ (allocated st e -> allocated st1 e).
Proof.
  cbv zeta. split; [repeat split|split].
  - apply (child_attribute_values_keeps _ _ pname c st closed_well_attached).
  - intros q ce.
    apply (child_attribute_values_keeps _ _ pname c st (closed_attached q ce)).
  - intros ce sub H _.
    apply (child_attribute_values_keeps _ _ pname c st
             (closed_attributes_fixed ce sub) H).
  - intros Ha q Hq. unfold attached in *.
    destruct (decide (completion_engine (get_proc st q) = Some e)) as [|Hn];
      [assumption|].
    exfalso.
    apply (child_attribute_values_keeps _ _ pname c st (closed_unserved q e)
             (conj Ha Hn)).
    exact Hq.
  - intros ce sub.
    apply (child_attribute_values_keeps _ _ pname c st
             (closed_attributes_fixed ce sub)).
  - apply (child_attribute_values_keeps _ _ pname c st (closed_allocated e)).
Qed.

(** What a child gives to the merge: the attribute set of its engine, or,
    when that set cannot be built, nothing, the engine being left with an
    empty set. *)
Lemma child_attribute_values_spec pname c e st :
  well_attached st -> allocated st e -> ~ attached st (p_id (info_of c)) e ->
  exists st1 osub ce sub,
    child_attribute_values (get_attribute_values PA) pname c st
    = (st1, [], Ok osub)
    /\ attached st1 (p_id (info_of c)) ce /\ ce <> e
    /\ attributes_of st1 ce = Some sub
    /\ (osub = Some sub \/ (osub = None /\ c_fields sub = [])).
Proof.
  intros Hw Ha Hn.
  destruct (get_completion_engine_spec c (Some pname) e st Hw Ha Hn)
    as (sa & ce & Ea & Hatt & Hal & Hne).
  unfold child_attribute_values. rewrite (bind_run _ _ _ _ _ _ Ea).
  destruct (get_attribute_values_outcome c ce sa Hal)
    as (sb & r & sub & Eb & Hsub & Hr).
  pose proof (get_attribute_values_keeps PA _ _ c ce sa (closed_attached _ ce) Hatt)
    as Hatt_b.
  rewrite Eb in Hatt_b. simpl in Hatt_b.
  destruct Hr as [->|(-> & Hempty & Hb)].
  - assert (Et : try_except (get_attribute_values PA c ce)
                   (subprocess_compl <- new_engine None ;;
                    get_attribute_values PA c subprocess_compl) sa
                 = (sb, [], Ok sub)).
    { unfold try_except. rewrite Eb. reflexivity. }
    rewrite (attempt_run _ _ _ _ Et).
    exists sb, (Some sub), ce, sub. repeat split; auto.
  - destruct (fallback_unbuildable c sb Hb) as [Hl Hraised].
    pose proof (fallback_keeps _ _ c sb (closed_attached _ ce) Hatt_b) as Hatt_d.
    pose proof (fallback_keeps _ _ c sb (closed_attributes_fixed ce sub) Hsub)
      as Hsub_d.
    destruct ((subprocess_compl <- new_engine None ;;
               get_attribute_values PA c subprocess_compl) sb)
      as [[sd ld] rd] eqn:Ed.
    simpl in *. subst ld rd.
    assert (Et : try_except (get_attribute_values PA c ce)
                   (subprocess_compl <- new_engine None ;;
                    get_attribute_values PA c subprocess_compl) sa
                 = (sd, [], Raised)).
    { unfold try_except. rewrite Eb, Ed. reflexivity. }
    rewrite (attempt_run _ _ _ _ Et).
    exists sd, None, ce, sub. repeat split; auto.
Qed.

Lemma merge_first_wins_nil parent : merge_first_wins parent [] = parent.
Proof. reflexivity. Qed.

(** One node with a process: its engine ends with an attribute set, which
    is what the parent has merged. *)
Lemma merge_node_spec e name node_name c st a :
  String.eqb node_name "" = false ->
  attributes_of st e = Some a ->
  well_attached st ->
  ~ attached st (p_id (info_of c)) e ->
  exists st' ce sub,
    merge_node (get_attribute_values PA) e name (node_name, Some c) st
    = (st', [], Ok tt)
    /\ attached st' (p_id (info_of c)) ce /\ ce <> e
    /\ attributes_of st' ce = Some sub
    /\ attributes_of st' e
       = Some (Controller (c_oid a)
                 (merge_first_wins (c_fields a) (c_fields sub)) (c_observed a))
    /\ stable e st st'.
Proof.
  intros Hname Ha Hw Hn.
  pose proof (attributes_allocated _ _ _ Ha) as Hal.
  destruct (child_attribute_values_spec (name +:+ "." +:+ node_name) c e st
              Hw Hal Hn) as (st1 & osub & ce & sub & E1 & Hatt & Hne & Hsub & Hcase).
  destruct (child_attribute_values_stable e (name +:+ "." +:+ node_name) c st)
    as (Hst & Hkeep & Hal1).
  rewrite E1 in Hst, Hkeep, Hal1. simpl in Hst, Hkeep, Hal1.
  pose proof (Hkeep e a Ha) as Ha1.
  unfold merge_node. cbn [fst snd]. rewrite Hname, (bind_run _ _ _ _ _ _ E1).
  destruct Hcase as [->|[-> Hempty]].
  - destruct (merge_attributes_run e sub st1 a Ha1) as (st' & E' & Ha' & Hch).
    rewrite E'. exists st', ce, sub. split; [reflexivity|].
    pose proof (only_attributes_changed_stable e st1 st' Hch)
      as (_ & A2 & S2 & _).
    split; [apply A2; exact Hatt|]. split; [exact Hne|].
    split; [apply S2; assumption|]. split; [exact Ha'|].
    eapply stable_trans; [exact Hal1 | exact Hst |].
    apply only_attributes_changed_stable. exact Hch.
  - exists st1, ce, sub. split; [reflexivity|].
    split; [exact Hatt|]. split; [exact Hne|]. split; [exact Hsub|].
    split; [|exact Hst].
    rewrite Hempty, merge_first_wins_nil, Ha1. destruct a. reflexivity.
Qed.

Lemma contribution_skipped st nn :
  String.eqb (fst nn) "" = true \/ snd nn = None -> contribution st nn = None.
Proof.
  unfold contribution. intros [->| ->]; [reflexivity|].
  destruct (String.eqb (fst nn) ""); reflexivity.
Qed.

Lemma merge_node_skipped e name nn st :
  String.eqb (fst nn) "" = true \/ snd nn = None ->
  merge_node (get_attribute_values PA) e name nn st = (st, [], Ok tt).
Proof.
  unfold merge_node. intros [->| ->]; [reflexivity|].
  destruct (String.eqb (fst nn) ""); reflexivity.
Qed.

Lemma contributions_cons st nn nodes :
  contributions st (nn :: nodes)
  = match contribution st nn with
    | Some sub => sub :: contributions st nodes
    | None => contributions st nodes
    end.
Proof. reflexivity. Qed.

(** The loop over the nodes, whatever the state of the children. *)
Lemma merge_nodes_spec e name nodes st a :
  attributes_of st e = Some a ->
  well_attached st ->
  (forall node_name c,
     (node_name, Some c) ∈ nodes -> ~ attached st (p_id (info_of c)) e) ->
  exists st',
    for_each nodes (merge_node (get_attribute_values PA) e name) st
    = (st', [], Ok tt)
    /\ attributes_of st' e
       = Some (Controller (c_oid a)
                 (fold_left merge_first_wins
                    (map c_fields (contributions st' nodes)) (c_fields a))
                 (c_observed a))
    /\ stable e st st'.
Proof.
  revert st a. induction nodes as [|[node_name oc] nodes IH];
    intros st a Ha Hw Hothers.
  - exists st. destruct a. simpl. auto using stable_refl.
  - pose proof (attributes_allocated _ _ _ Ha) as Hal.
    rewrite for_each_cons.
    destruct (String.eqb node_name "") eqn:Hname;
      [|destruct oc as [c|]].
    + rewrite (bind_run _ _ _ _ _ _
                 (merge_node_skipped e name (node_name, oc) st (or_introl Hname))).
      destruct (IH st a Ha Hw) as (st' & E & Ha' & Hst).
      { intros n c Hin. apply (Hothers n c). right. exact Hin. }
      exists st'. split; [rewrite E; reflexivity|]. split; [|exact Hst].
      rewrite contributions_cons, contribution_skipped by (left; exact Hname).
      exact Ha'.
    + destruct (merge_node_spec e name node_name c st a Hname Ha Hw)
        as (st1 & ce & sub & E1 & Hatt & Hne & Hsub & Ha1 & Hst1).
      { apply (Hothers node_name c). left. }
      destruct Hst1 as (W1 & A1 & S1 & U1).
      destruct (IH st1 _ Ha1 (W1 Hw)) as (st' & E' & Ha' & Hst').
      { intros n c' Hin Hq. apply (Hothers n c'); [right; exact Hin|].
        apply (U1 Hal). exact Hq. }
      rewrite (bind_run _ _ _ _ _ _ E1), E'. exists st'.
      split; [reflexivity|]. split.
      * rewrite Ha'. simpl c_oid. simpl c_observed. simpl c_fields.
        destruct Hst' as (_ & A2 & S2 & _).
        assert (Hc : contribution st' (node_name, Some c) = Some sub).
        { unfold contribution. cbn [fst snd]. rewrite Hname.
          rewrite (A2 _ _ Hatt). apply S2; assumption. }
        rewrite contributions_cons, Hc. reflexivity.
      * eapply stable_trans; [|split; [exact W1|split; [exact A1|split;
                                [exact S1|exact U1]]]|exact Hst'].
        intros _. eapply attributes_allocated. exact Ha1.
    + rewrite (bind_run _ _ _ _ _ _
                 (merge_node_skipped e name (node_name, None) st
                    (or_intror eq_refl))).
      destruct (IH st a Ha Hw) as (st' & E & Ha' & Hst).
      { intros n c Hin. apply (Hothers n c). right. exact Hin. }
      exists st'. split; [rewrite E; reflexivity|]. split; [|exact Hst].
      rewrite contributions_cons, contribution_skipped by (right; reflexivity).
      exact Ha'.
Qed.

(** C1, as the code has it.  For a pipeline without a specialized
    attribute set, [get_attribute_values] builds the parent's set from the
    generic one by merging, in the iteration order of the nodes, the
    attribute sets of the children's engines, each attribute being added
    with the child's value when no attribute of that name is present yet.
    A set that a child already had is left as it was.  An attribute that
    the generic set does not declare takes the value of the first child
    that declares it, whatever the later children hold. *)
Theorem first_declaring_child_wins info cfg nodes graph e st
    (Hnew : attributes_of st e = None)
    (Hengine : allocated st e)
    (Hschemas : schemas_found cfg = true)
    (Hgeneric : select_attributes_class (Pipeline info cfg nodes graph) = None)
    (Hstore : well_attached st)
    (Hothers : forall node_name c,
       (node_name, Some c) ∈ nodes -> ~ attached st (p_id (info_of c)) e) :
  exists st' a,
    get_attribute_values PA (Pipeline info cfg nodes graph) e st = (st', [], Ok a)
    /\ c_fields a
       = fold_left merge_first_wins (map c_fields (contributions st' nodes)) PA
    /\ (forall ce sub,
          attributes_of st ce = Some sub -> attributes_of st' ce = Some sub)
    /\ (forall before sub after name f,
          contributions st' nodes = before ++ sub :: after ->
          lookup_field name PA = None ->
          (forall s, s ∈ before -> trait s name = None) ->
          trait sub name = Some f ->
          trait a name = Some f).
Proof.
  rewrite get_attribute_values_unfold, bind_gets, Hnew.
  unfold build_attribute_values.
  rewrite bind_new_controller, bind_set_attributes.
  cbn [config_of]. rewrite Hschemas, bind_ret, Hgeneric, bind_ret.
  rewrite bind_new_controller, bind_set_attributes.
  set (s1 := Store (procs st) (engines st) (S (next_oid st))).
  assert (A1 : allocated s1 e) by exact Hengine.
  destruct (set_attributes_only e (Controller (next_oid st) [] false) s1 A1)
    as [_ C2].
  set (s2 := (set_attributes e (Controller (next_oid st) [] false) s1).1.1) in *.
  set (s3 := Store (procs s2) (engines s2) (S (next_oid s2))).
  assert (A3 : allocated s3 e).
  { unfold allocated. destruct C2 as (_ & L & _).
    change (e < length (engines s2)). rewrite L. exact A1. }
  destruct (set_attributes_only e (Controller (next_oid s2) PA false) s3 A3)
    as [Ha4 C4].
  assert (Hch : only_attributes_changed e st
                  (set_attributes e (Controller (next_oid s2) PA false) s3).1.1).
  { eapply only_attributes_changed_trans; [|exact C4].
    eapply only_attributes_changed_trans; [|apply only_attributes_changed_oid].
    eapply only_attributes_changed_trans; [|exact C2].
    apply only_attributes_changed_oid. }
  revert Ha4 Hch.
  generalize (set_attributes e (Controller (next_oid s2) PA false) s3).1.1.
  intros s4 Ha4 Hch. clear C2 C4 A3 A1.
  destruct (only_attributes_changed_stable e st s4 Hch) as (W4 & A4 & S4 & U4).
  destruct (merge_nodes_spec e (p_name info) nodes s4 _ Ha4 (W4 Hstore))
    as (st' & E & Ha' & (_ & _ & S' & _)).
  { intros n c Hin Hq. apply (Hothers n c Hin). apply (U4 Hengine). exact Hq. }
  rewrite (bind_run _ _ _ _ _ _ E), bind_gets, Ha'. simpl c_fields in *.
  eexists _, _. split; [reflexivity|]. simpl c_fields.
  split; [reflexivity|]. split.
  - intros ce sub Hsub. assert (Hne : ce <> e) by (intros ->; congruence).
    apply S'; [|exact Hne]. apply S4; assumption.
  - intros before sub after name f Hsplit Hpa Hbefore Hsub. unfold trait.
    simpl c_fields. rewrite Hsplit, map_app. simpl map.
    apply lookup_merged_first; try assumption.
    intros s0 Hs. apply list_elem_of_fmap in Hs. destruct Hs as (s1' & -> & Hs1).
    apply Hbefore. assumption.
Qed.

End GeneralMerge.

(** * The properties on the sample configurations *)

Import Sample.

(** The merge on three children that all declare [A]: the second and the
    third are visited in this order and hold 1 and 2, and the parent gets
    neither: it gets the value of the first. *)
Lemma later_pair_does_not_decide :
  let run := get_attribute_values [] merged 0 merged_store in
  contribution run.1.1 ("y", Some c1)
    = Some (Controller 2 [("A", Field Int (VInt 1))] false)
  /\ contribution run.1.1 ("z", Some c2)
    = Some (Controller 3 [("A", Field Int (VInt 2))] false)
  /\ run.2 = Ok (Controller 5 [("A", Field Int (VInt 0))] false)
  /\ ~ (forall a sa, run.2 = Ok a ->
          contribution run.1.1 ("y", Some c1) = Some sa ->
          getattr a "A" = getattr sa "A").
Proof.
  cbv zeta. repeat split; try (vm_compute; reflexivity).
  intros H.
  specialize (H (Controller 5 [("A", Field Int (VInt 0))] false)
                (Controller 2 [("A", Field Int (VInt 1))] false)
                ltac:(vm_compute; reflexivity) ltac:(vm_compute; reflexivity)).
  vm_compute in H. discriminate H.
Qed.

Lemma merged_store_well_attached : well_attached merged_store.
Proof.
  intros q ce H. unfold attached, get_proc, merged_store in H. simpl in H.
  unfold allocated. simpl.
  repeat (rewrite lookup_total_insert in H;
          destruct (decide _) as [_|_] in H;
          [injection H as <-; lia|]).
  rewrite lookup_total_empty in H. discriminate H.
Qed.

Lemma merged_children_unserved node_name c :
  (node_name, Some c) ∈ merged_nodes -> ~ attached merged_store (p_id (info_of c)) 0.
Proof.
  unfold merged_nodes. intros Hin Hq. apply list_elem_of_In in Hin. simpl in Hin.
  destruct Hin as [H|[H|[H|[H|[]]]]]; inversion H; subst;
    vm_compute in Hq; discriminate Hq.
Qed.

Lemma first_declaring_child_wins_witness :
  exists st' a,
    get_attribute_values [] merged 0 merged_store = (st', [], Ok a)
    /\ trait a "A" = Some (Field Int (VInt 0)).
Proof.
  destruct (first_declaring_child_wins [] (ProcInfo 10 "merged" None) config
              merged_nodes [("x", [c0]); ("y", [c1]); ("z", [c2])] 0 merged_store
              ltac:(vm_compute; reflexivity)
              ltac:(unfold allocated; simpl; lia)
              ltac:(reflexivity)
              ltac:(vm_compute; reflexivity)
              merged_store_well_attached
              merged_children_unserved)
    as (st' & a & E & _ & _ & Hfirst).
  exists st', a. split; [exact E|].
  assert (Hst : st' = (get_attribute_values [] merged 0 merged_store).1.1).
  { unfold merged. rewrite E. reflexivity. }
  apply (Hfirst [] (Controller 1 [("A", Field Int (VInt 0))] false)
           [Controller 2 [("A", Field Int (VInt 1))] false;
            Controller 3 [("A", Field Int (VInt 2))] false]);
    try (vm_compute; reflexivity).
  - rewrite Hst. vm_compute. reflexivity.
  - intros s Hs. inversion Hs.
Defined.

Lemma children_completed_in_topological_order_witness :
  map (fun c => (call_target c, call_inputs c))
      (calls_by Child (complete_parameters [] always 4 pipe 0 subject_s1 pipe_store).1.2)
  = [(1, subject_s1); (2, subject_s1); (3, subject_s1)].
Proof.
  apply (children_completed_in_topological_order [] always 3 pipe 0 subject_s1
           pipe_store
           (set_parameters [] always 3 pipe 0 subject_s1 pipe_store).1.1
           (set_parameters [] always 3 pipe 0 subject_s1 pipe_store).1.2
           (Controller 2 [("subject", Field Str (VStr "s1"))] false)).
  - simpl. lia.
  - vm_compute. reflexivity.
  - vm_compute. reflexivity.
Defined.

Lemma attributes_changed_runs_one_pass_witness :
  count_notified 0
    (attributes_changed [] always 1 solo 0 "subject" (VStr "s0") (VStr "s2")
       solo_store).1.2 = 1.
Proof.
  destruct (attributes_changed_runs_one_pass [] always 1 solo 0 "subject"
              (VStr "s0") (VStr "s2") solo_store
              ltac:(discriminate) ltac:(discriminate)
              ltac:(vm_compute; reflexivity)
              ltac:(unfold allocated; simpl; lia)
              ltac:(simpl; lia))
    as (st' & nested & r & _ & _ & _ & H & _).
  exact H.
Defined.

(** C5, on the code.  When the pass started by the handler raises, the
    guard stays set, and the next change of an attribute starts nothing. *)
Theorem guard_left_set_when_the_pass_raises :
  let run := attributes_changed [] always 1 broken 0 "subject"
               (VStr "s0") (VStr "s2") broken_store in
  run.2 = Raised
  /\ guard run.1.1 0 = true
  /\ attributes_changed [] always 1 broken 0 "subject"
       (VStr "s2") (VStr "s3") run.1.1 = (run.1.1, [], Ok tt).
Proof. vm_compute. repeat split. Qed.

(** No path completion is configured: the pure-virtual factory is invoked
    for the parameter of the process and raises, and the pass returns to
    its caller all the same. *)
Lemma structural_misuse_does_not_propagate :
  get_path_completion_engine bare_solo = Raises
  /\ user_trait_names (parameters_of solo_store 1) = ["output"]
  /\ attributes_to_path bare_solo "output" solo_attributes = Raises
  /\ (complete_parameters [] always 2 bare_solo 0 [] solo_store).2 = Ok tt
  /\ ~ (get_path_completion_engine bare_solo = Raises ->
        (complete_parameters [] always 2 bare_solo 0 [] solo_store).2 = Raised).
Proof.
  repeat split; try (vm_compute; reflexivity).
  intros H. specialize (H eq_refl). vm_compute in H. discriminate H.
Qed.

Lemma parameter_failures_never_abort_the_pass_witness :
  (complete_parameters [] always 2 bare_solo 0 [] solo_store).2 = Ok tt.
Proof.
  apply (parameter_failures_never_abort_the_pass [] always 1 bare_solo 0 []
           solo_store
           (set_parameters [] always 1 bare_solo 0 [] solo_store).1.1
           (set_parameters [] always 1 bare_solo 0 [] solo_store).1.2).
  - simpl. lia.
  - vm_compute. reflexivity.
Defined.

Lemma get_attribute_values_idempotent_witness :
  let first := get_attribute_values [] pipe 0 pipe_store in
  attributes_of first.1.1 0
    = Some (Controller 2 [("subject", Field Str (VStr "s0"))] false)
  /\ get_attribute_values [] pipe 0 first.1.1
     = (first.1.1, [], Ok (Controller 2 [("subject", Field Str (VStr "s0"))] false)).
Proof.
  cbv zeta.
  destruct (get_attribute_values_idempotent [] pipe 0 pipe_store
              (get_attribute_values [] pipe 0 pipe_store).1.1 []
              (Controller 2 [("subject", Field Str (VStr "s0"))] false)
              ltac:(vm_compute; reflexivity)) as (H1 & H2 & _).
  split; assumption.
Defined.

Lemma set_parameters_drops_unknown_attributes_witness :
  let run := set_parameters [] always 1 solo 0
               [("capsul_attributes", VDict [("unknown_name", VInt 1)]);
                ("output", VStr "/tmp/out.nii")] solo_store in
  attributes_of run.1.1 0 = Some solo_attributes
  /\ run.1.2 = []
  /\ getattr (parameters_of run.1.1 1) "output" = Some (VStr "/tmp/out.nii").
Proof.
  cbv zeta.
  destruct (set_parameters_drops_unknown_attributes [] always 1 solo 0 solo_store
              solo_attributes [("unknown_name", VInt 1)] []
              [("capsul_attributes", VDict [("unknown_name", VInt 1)]);
               ("output", VStr "/tmp/out.nii")]
              ltac:(vm_compute; reflexivity)) as [_ H].
  destruct (H ltac:(reflexivity)
              ltac:(intros kv Hin; apply list_elem_of_singleton in Hin; subst kv;
                    intros Hd; apply list_elem_of_In in Hd;
                    destruct Hd as [Hd|[]]; discriminate Hd))
    as (_ & Hl & Ha & _ & Hp).
  split; [assumption|]. split; [assumption|].
  change (p_id (info_of solo)) with 1 in Hp. rewrite Hp.
  vm_compute. reflexivity.
Defined.

Lemma base_path_completion_resolves_nothing_witness :
  attributes_to_path base_solo "output" solo_attributes = Returns VNone
  /\ parameters_of (complete_own_parameters [] base_solo 0 solo_store).1.1 1
     = parameters_of solo_store 1.
Proof.
  destruct (base_path_completion_resolves_nothing [] base_solo 0 solo_store
              ltac:(reflexivity)) as (_ & H2 & H3).
  split; [apply H2 | apply H3].
Defined.

(** * Further properties *)

(** ** get_completion_engine *)

Lemma get_completion_engine_new p name st :
  completion_engine (get_proc st (p_id (info_of p))) = None ->
  get_completion_engine p name st
  = (set_proc (Store (procs st) (engines st ++ [Engine name false None])
                     (next_oid st))
       (p_id (info_of p))
       (ProcState (p_controller (get_proc st (p_id (info_of p))))
                  (Some (length (engines st)))),
     [], Ok (length (engines st))).
Proof.
  intros H. unfold get_completion_engine. rewrite bind_gets, H. reflexivity.
Qed.

Lemma get_completion_engine_attached p name st e :
  attached st (p_id (info_of p)) e ->
  get_completion_engine p name st = (st, [], Ok e).
Proof.
  intros H. unfold get_completion_engine. rewrite bind_gets, H. reflexivity.
Qed.

(** X1.  [get_completion_engine] attaches an engine to a process once.
    The call returns the engine already attached, or allocates a new one,
    named as asked, with its guard clear and no attribute set, and attaches
    it.  Either way every later call, whatever name it is given, returns
    that same engine and leaves the store alone.  No parameter, no other
    process and no engine that existed is changed. *)
Theorem get_completion_engine_attaches_once p name st :
  exists st1 e,
    get_completion_engine p name st = (st1, [], Ok e)
    /\ attached st1 (p_id (info_of p)) e
    /\ (forall name', get_completion_engine p name' st1 = (st1, [], Ok e))
    /\ (forall e', attached st (p_id (info_of p)) e' -> e' = e /\ st1 = st)
    /\ (completion_engine (get_proc st (p_id (info_of p))) = None ->
        e = length (engines st) /\ get_engine st1 e = Engine name false None)
    /\ (forall q, parameters_of st1 q = parameters_of st q)
    /\ (forall q, q <> p_id (info_of p) -> get_proc st1 q = get_proc st q)
    /\ (forall e', allocated st e' -> get_engine st1 e' = get_engine st e').
Proof.
  destruct (completion_engine (get_proc st (p_id (info_of p)))) as [e|] eqn:E.
  - exists st, e. split; [apply get_completion_engine_attached; exact E|].
    split; [exact E|]. split.
    { intros name'. apply get_completion_engine_attached. exact E. }
    split.
    { unfold attached. intros e' He'. split; congruence. }
    split; [discriminate|]. auto.
  - eexists _, _. split; [apply get_completion_engine_new; exact E|].
    assert (Hatt : attached
              (set_proc (Store (procs st) (engines st ++ [Engine name false None])
                               (next_oid st))
                 (p_id (info_of p))
                 (ProcState (p_controller (get_proc st (p_id (info_of p))))
                            (Some (length (engines st)))))
              (p_id (info_of p)) (length (engines st))).
    { unfold attached. rewrite get_proc_set_proc, decide_True by reflexivity.
      reflexivity. }
    split; [exact Hatt|]. split.
    { intros name'. apply get_completion_engine_attached. exact Hatt. }
    split.
    { unfold attached. intros e' He'. congruence. }
    split.
    { intros _. split; [reflexivity|].
      rewrite get_engine_set_proc. unfold get_engine. simpl.
      rewrite lookup_total_app_r by lia. rewrite Nat.sub_diag. reflexivity. }
    split.
    { intros q. unfold parameters_of. rewrite get_proc_set_proc.
      destruct (decide (p_id (info_of p) = q)) as [<-|]; reflexivity. }
    split.
    { intros q Hq. rewrite get_proc_set_proc, decide_False by congruence.
      reflexivity. }
    intros e' He'. rewrite get_engine_set_proc. apply get_engine_app.
    exact He'.
Qed.

(** ** What a pass never undoes *)

Lemma closed_completion_attached q ce :
  closed_under_completion (fun st => attached st q ce) (fun _ => True).
Proof.
  split; auto.
  - apply closed_attached.
  - unfold attached. intros st p name v H. rewrite get_proc_set_proc.
    destruct (decide (p = q)) as [->|]; [simpl|]; exact H.
Qed.

Section Permanence.

Variable PA : list (string * field).
Variable notifies : value -> value -> bool.

(** X2.  A pass undoes nothing.  Whatever the process, the engine, the
    argument and the fuel, an engine attached to a process stays attached
    to it (the source: "this will assign permanently the
    ProcessCompletionEngine object to its associated process"), an engine
    of the store stays one, and an engine that has an attribute set keeps
    one. *)
Theorem a_pass_undoes_nothing fuel p e inputs st :
  let st' := (complete_parameters PA notifies fuel p e inputs st).1.1 in
  (forall q ce, attached st q ce -> attached st' q ce)
  /\ (forall e0, allocated st e0 -> allocated st' e0)
  /\ (forall e0 a, attributes_of st e0 = Some a ->
        exists a', attributes_of st' e0 = Some a').
Proof.
  cbv zeta. split; [|split].
  - intros q ce Hattached.
    apply (complete_parameters_preserves PA notifies _ _ (fun _ => True)
             (closed_completion_attached q ce) (closed_calls_trivial _)
             fuel p e inputs st Hattached).
  - intros e0.
    apply (complete_parameters_preserves PA notifies _ _ (fun _ => True)
             (closed_completion_allocated e0) (closed_calls_trivial _)
             fuel p e inputs st).
  - intros e0 a Ha.
    apply (complete_parameters_preserves PA notifies _ _ (fun _ => True)
             (closed_completion_attributes_exist e0) (closed_calls_trivial _)
             fuel p e inputs st). eauto.
Qed.

End Permanence.

(** ** get_attribute_values *)

Section Values.

Variable PA : list (string * field).

(** X3.  A failed build is not retried.  When the schemas or the
    constructor of the attribute class raise, [get_attribute_values]
    raises, but the empty [Controller()] that it installed first stays on
    the engine: the next call returns that empty set instead of raising. *)
Theorem failed_build_leaves_an_empty_attribute_set p e st
    (Hnew : attributes_of st e = None)
    (Hengine : allocated st e)
    (Hbroken : buildable p = false) :
  exists st1 c0,
    get_attribute_values PA p e st = (st1, [], Raised)
    /\ c_fields c0 = []
    /\ get_attribute_values PA p e st1 = (st1, [], Ok c0).
Proof.
  destruct (get_attribute_values_failed PA p e st Hnew Hengine Hbroken)
    as (st1 & c0 & E & Ha & Hempty).
  exists st1, c0. split; [exact E|]. split; [exact Hempty|].
  apply get_attribute_values_cached. exact Ha.
Qed.

(** X4.  On an engine without attribute set, [get_attribute_values]
    returns exactly when the set of the process itself can be built (the
    schemas are found and the constructor of the selected class does not
    raise): the children of a pipeline never make it fail. *)
Theorem get_attribute_values_returns_iff_buildable p e st
    (Hnew : attributes_of st e = None)
    (Hengine : allocated st e) :
  (exists st1 a, get_attribute_values PA p e st = (st1, [], Ok a))
  <-> buildable p = true.
Proof.
  split.
  - intros (st1 & a & E). destruct (buildable p) eqn:Hb; [reflexivity|].
    pose proof (get_attribute_values_unbuildable PA p e st Hb Hnew) as H.
    rewrite E in H. discriminate H.
  - apply get_attribute_values_built; assumption.
Qed.

(** X5.  [get_attribute_values] only fills in what is missing: it makes
    no completion call, assigns no parameter of any process, leaves the
    guard of every engine as it is, keeps every attachment, and does not
    touch an attribute set that exists already, on any engine. *)
Theorem get_attribute_values_only_fills_in p e st :
  let run := get_attribute_values PA p e st in
  run.1.2 = []
  /\ (forall q, parameters_of run.1.1 q = parameters_of st q)
  /\ (forall e0, allocated st e0 -> guard run.1.1 e0 = guard st e0)
  /\ (forall q ce, attached st q ce -> attached run.1.1 q ce)
  /\ (forall e0 a, attributes_of st e0 = Some a -> attributes_of run.1.1 e0 = Some a).
Proof.
  cbv zeta. split; [apply get_attribute_values_no_call|].
  split; [apply get_attribute_values_parameters|]. split; [|split].
  - intros e0 Ha.
    apply (get_attribute_values_keeps PA _ _ p e st (closed_guard e0 (guard st e0))).
    auto.
  - intros q ce Ha.
    apply (get_attribute_values_keeps PA _ _ p e st (closed_attached q ce)).
    exact Ha.
  - intros e0 a Ha.
    apply (get_attribute_values_keeps PA _ _ p e st (closed_attributes_fixed e0 a)).
    exact Ha.
Qed.

(** X6.  A process with an attribute class of its own, and a process that
    is not a pipeline, get the attribute set that the constructor builds
    and nothing else: the children are not visited (no engine is created
    or attached, only the attribute set of this engine changes), and the
    new set has no handler. *)
Theorem own_attribute_class_replaces_the_merge p e st fs
    (Hnew : attributes_of st e = None)
    (Hengine : allocated st e)
    (Hschemas : schemas_found (config_of p) = true)
    (Hown : match select_attributes_class p with
            | Some cls => ac_new cls = Some fs
            | None => is_pipeline p = false /\ fs = PA
            end) :
  exists st1 c,
    get_attribute_values PA p e st = (st1, [], Ok c)
    /\ c_fields c = fs
    /\ c_observed c = false
    /\ only_attributes_changed e st st1.
Proof.
  rewrite get_attribute_values_unfold, bind_gets, Hnew.
  unfold build_attribute_values.
  rewrite bind_new_controller, bind_set_attributes, Hschemas, bind_ret.
  set (s1 := Store (procs st) (engines st) (S (next_oid st))).
  assert (A1 : allocated s1 e) by exact Hengine.
  destruct (set_attributes_only e (Controller (next_oid st) [] false) s1 A1)
    as [_ C2].
  set (s2 := (set_attributes e (Controller (next_oid st) [] false) s1).1.1) in *.
  assert (Hfields :
    match select_attributes_class p with
    | Some cls => match ac_new cls with
                  | Some fs => ret fs
                  | None => raise
                  end
    | None => ret PA
    end = ret fs).
  { destruct (select_attributes_class p) as [cls|].
    - rewrite Hown. reflexivity.
    - destruct Hown as [_ ->]. reflexivity. }
  rewrite Hfields, bind_ret, bind_new_controller, bind_set_attributes.
  set (s3 := Store (procs s2) (engines s2) (S (next_oid s2))).
  assert (A3 : allocated s3 e).
  { unfold allocated. destruct C2 as (_ & L & _).
    change (e < length (engines s2)). rewrite L. exact A1. }
  destruct (set_attributes_only e (Controller (next_oid s2) fs false) s3 A3)
    as [Ha4 C4].
  assert (Hch : only_attributes_changed e st
                  (set_attributes e (Controller (next_oid s2) fs false) s3).1.1).
  { eapply only_attributes_changed_trans; [|exact C4].
    eapply only_attributes_changed_trans; [|apply only_attributes_changed_oid].
    eapply only_attributes_changed_trans; [|exact C2].
    apply only_attributes_changed_oid. }
  revert Ha4 Hch.
  generalize (set_attributes e (Controller (next_oid s2) fs false) s3).1.1.
  intros s4 Ha4 Hch.
  assert (Hskip :
    match select_attributes_class p, p with
    | None, Pipeline info _ nodes _ =>
        for_each nodes (merge_node (get_attribute_values PA) e (p_name info))
    | _, _ => ret tt
    end = ret tt).
  { destruct (select_attributes_class p); [reflexivity|].
    destruct Hown as [Hp _]. destruct p; [reflexivity | discriminate Hp]. }
  rewrite Hskip, bind_ret, bind_gets, Ha4.
  eexists _, _. split; [reflexivity|]. auto.
Qed.

End Values.

(** ** Fuel *)

Lemma settles_refl {A} (m : M A) : settles m m.
Proof. intros st _. reflexivity. Qed.

Lemma settles_bind {A B} (m m' : M A) (k k' : A -> M B) :
  settles m m' -> (forall a, settles (k a) (k' a)) ->
  settles (bind m k) (bind m' k').
Proof.
  intros Hm Hk st H. unfold bind in *.
  destruct (m st) as [[s1 l1] r] eqn:E.
  assert (Hr : r <> OutOfFuel).
  { intros ->. apply H. reflexivity. }
  rewrite (Hm st) by (rewrite E; exact Hr). rewrite E.
  destruct r as [a| |]; try reflexivity.
  rewrite (Hk a s1); [reflexivity|].
  intros Hf. apply H. destruct (k a s1) as [[s2 l2] r2]. exact Hf.
Qed.

Lemma settles_try_except {A} (m m' h h' : M A) :
  settles m m' -> settles h h' -> settles (try_except m h) (try_except m' h').
Proof.
  intros Hm Hh st H. unfold try_except in *.
  destruct (m st) as [[s1 l1] r] eqn:E.
  assert (Hr : r <> OutOfFuel).
  { intros ->. apply H. reflexivity. }
  rewrite (Hm st) by (rewrite E; exact Hr). rewrite E.
  destruct r as [a| |]; try reflexivity.
  rewrite (Hh s1); [reflexivity|].
  intros Hf. apply H. destruct (h s1) as [[s2 l2] r2]. exact Hf.
Qed.

Lemma settles_for_each {A} (l : list A) (body body' : A -> M unit) :
  (forall a, settles (body a) (body' a)) ->
  settles (for_each l body) (for_each l body').
Proof.
  intros Hb. induction l as [|a l IH]; [apply settles_refl|].
  rewrite !for_each_cons. apply settles_bind; [apply Hb | intros _; exact IH].
Qed.

Lemma settles_recorded h t e i (m m' : M unit) :
  settles m m' -> settles (recorded h t e i m) (recorded h t e i m').
Proof.
  intros Hm st H. unfold recorded in *.
  rewrite (Hm st); [reflexivity|].
  intros Hf. apply H. destruct (m st) as [[s l] r]. exact Hf.
Qed.

Ltac settle :=
  match goal with
  | |- settles (bind _ _) (bind _ _) => apply settles_bind; [|intro]
  | |- settles (try_except _ _) (try_except _ _) => apply settles_try_except
  | |- settles (for_each _ _) (for_each _ _) => apply settles_for_each; intro
  | |- settles (recorded _ _ _ _ _) (recorded _ _ _ _ _) => apply settles_recorded
  | |- settles (match ?x with _ => _ end) (match ?x with _ => _ end) => destruct x
  | |- settles (if ?x then _ else _) (if ?x then _ else _) => destruct x
  | |- settles ?m ?m => apply settles_refl
  | |- settles _ _ => solve [auto]
  end.

Section Fuel.

Variable PA : list (string * field).
Variable notifies : value -> value -> bool.

Lemma settles_pass (c c' : process -> eid -> dict -> M unit) p e inputs :
  (forall p e i, settles (c p e i) (c' p e i)) ->
  settles (complete_parameters_with PA notifies c p e inputs)
          (complete_parameters_with PA notifies c' p e inputs).
Proof.
  intros Hc.
  unfold complete_parameters_with, set_parameters_with,
    attributes_import_from_dict, attributes_setattr, attributes_changed_with,
    complete_children, complete_child.
  repeat settle.
Qed.

Lemma complete_parameters_settles_step fuel p e inputs :
  settles (complete_parameters PA notifies fuel p e inputs)
          (complete_parameters PA notifies (S fuel) p e inputs).
Proof.
  revert p e inputs. induction fuel as [|fuel IH]; intros p e inputs.
  - intros st H. exfalso. apply H. reflexivity.
  - change (settles
              (complete_parameters_with PA notifies
                 (complete_parameters PA notifies fuel) p e inputs)
              (complete_parameters_with PA notifies
                 (complete_parameters PA notifies (S fuel)) p e inputs)).
    apply settles_pass. exact IH.
Qed.

Lemma complete_parameters_settles fuel fuel' p e inputs :
  fuel <= fuel' ->
  settles (complete_parameters PA notifies fuel p e inputs)
          (complete_parameters PA notifies fuel' p e inputs).
Proof.
  induction 1 as [|fuel' _ IH]; [apply settles_refl|].
  intros st H. rewrite <- (IH st H).
  apply complete_parameters_settles_step. rewrite (IH st H). exact H.
Qed.

(** X7.  A pass ends.  Thanks to the guard, fuel of twice the nesting
    depth of the process plus two is enough for [complete_parameters] not
    to run out of fuel, and with any larger amount the result (store,
    calls and outcome) is the same. *)
Theorem complete_parameters_needs_bounded_fuel fuel fuel' p e inputs st
    (Hfuel : 2 * height p + 2 <= fuel)
    (Hmore : fuel <= fuel') :
  (complete_parameters PA notifies fuel p e inputs st).2 <> OutOfFuel
  /\ complete_parameters PA notifies fuel' p e inputs st
     = complete_parameters PA notifies fuel p e inputs st.
Proof.
  pose proof (complete_parameters_total PA notifies fuel p e inputs st Hfuel) as H.
  split; [exact H|].
  apply complete_parameters_settles; assumption.
Qed.

(** X8.  While the guard of an engine is set, nothing but the handler
    that set it clears it: a pass on any process and engine leaves the
    guard set and records no notified pass of that engine, and every
    notification to that engine is dropped.  An engine whose guard was
    left set is never completed again on a change of its attributes. *)
Theorem a_set_guard_silences_its_engine fuel p e inputs e0 st
    (Hguard : guard st e0 = true) :
  let run := complete_parameters PA notifies fuel p e inputs st in
  guard run.1.1 e0 = true
  /\ count_notified e0 run.1.2 = 0
  /\ (forall name old new,
        attributes_changed PA notifies fuel p e0 name old new run.1.1
        = (run.1.1, [], Ok tt)).
Proof.
  cbv zeta.
  pose proof (complete_parameters_preserves PA notifies _ _ _
                (closed_guarded e0) (closed_calls_unnotified e0) fuel p e inputs st
                (conj (guard_allocated st e0 Hguard) Hguard))
    as [[Ha Hg] Hq].
  split; [exact Hg|]. split; [exact Hq|].
  intros name old new. apply guarded_attributes_changed. split; assumption.
Qed.

End Fuel.

(** ** set_parameters on an attribute set without handler *)

Lemma assign_all_names c d : user_trait_names (assign_all c d) = user_trait_names c.
Proof.
  unfold assign_all. revert c. induction d as [|kv d IH]; intros c; [reflexivity|].
  simpl. rewrite IH. unfold user_trait_names. simpl. apply assign_field_names.
Qed.

Lemma assign_all_observed c d : c_observed (assign_all c d) = c_observed c.
Proof.
  unfold assign_all. revert c. induction d as [|kv d IH]; intros c; [reflexivity|].
  simpl. rewrite IH. reflexivity.
Qed.

Lemma trait_assign c k v name f :
  trait c name = Some f ->
  trait (assign c k v) name
  = Some (Field (ftrait f) (if String.eqb name k then v else fvalue f)).
Proof.
  unfold trait, assign. simpl. intros H.
  destruct (String.eqb name k) eqn:E.
  - apply String.eqb_eq in E. subst k. apply lookup_assign_field_eq. exact H.
  - apply String.eqb_neq in E. rewrite lookup_assign_field_ne by exact E.
    rewrite H. destruct f. reflexivity.
Qed.

Lemma trait_assign_all c d name f :
  trait c name = Some f ->
  trait (assign_all c d) name
  = Some (Field (ftrait f) (assigned d name (fvalue f))).
Proof.
  unfold assign_all, assigned. revert c f.
  induction d as [|kv d IH]; intros c f H; simpl.
  - rewrite H. destruct f. reflexivity.
  - rewrite (IH _ _ (trait_assign c (fst kv) (snd kv) name f H)). reflexivity.
Qed.

Lemma trait_assign_all_None c d name :
  trait c name = None -> trait (assign_all c d) name = None.
Proof.
  unfold trait. intros H. apply lookup_field_None.
  change (map fst (c_fields (assign_all c d))) with (user_trait_names (assign_all c d)).
  rewrite assign_all_names. apply lookup_field_None. exact H.
Qed.

Lemma assigned_declared c attrs name old :
  trait c name <> None ->
  assigned (declared_in c attrs) name old = assigned attrs name old.
Proof.
  intros Hd. unfold assigned, declared_in. revert old.
  induction attrs as [|kv attrs IH]; intros old; [reflexivity|].
  rewrite filter_cons. simpl.
  destruct (decide (fst kv ∈ user_trait_names c)) as [Hin|Hout].
  - simpl. apply IH.
  - rewrite IH. destruct (String.eqb name (fst kv)) eqn:E; [|reflexivity].
    apply String.eqb_eq in E. subst name. exfalso. apply Hd.
    apply lookup_field_None. exact Hout.
Qed.

Lemma assigned_absent d name old : dict_get name d = None -> assigned d name old = old.
Proof.
  unfold assigned. revert old. induction d as [|[k v] d IH]; intros old; simpl;
    [reflexivity|].
  destruct (String.eqb name k); [discriminate|]. apply IH.
Qed.

Lemma assigned_last d k v after old :
  dict_get k after = None -> assigned (d ++ (k, v) :: after) k old = v.
Proof.
  intros H. unfold assigned. rewrite fold_left_app. simpl.
  rewrite String.eqb_refl. apply assigned_absent. exact H.
Qed.

Lemma only_attributes_changed_guard e st st' :
  only_attributes_changed e st st' ->
  forall e', e' <> e -> guard st' e' = guard st e'.
Proof. intros (_ & _ & H) e' Hne. unfold guard. rewrite H by assumption. reflexivity. Qed.

Lemma only_completed_refl e q st : only_completed e q st st.
Proof. repeat split. Qed.

Lemma only_completed_trans e q st1 st2 st3 :
  only_completed e q st1 st2 -> only_completed e q st2 st3 ->
  only_completed e q st1 st3.
Proof.
  intros (L1 & E1 & G1 & P1 & C1) (L2 & E2 & G2 & P2 & C2).
  repeat split; try congruence.
  - intros e' He'. rewrite E2, E1 by assumption. reflexivity.
  - intros q' Hq'. rewrite P2, P1 by assumption. reflexivity.
Qed.

Lemma only_attributes_changed_completed e q st st' :
  only_attributes_changed e st st' -> guard st' e = guard st e ->
  only_completed e q st st'.
Proof.
  intros (P & L & E) G. unfold only_completed, get_proc. rewrite P.
  repeat split; auto.
Qed.

Lemma process_setattr_completed e q name v st :
  only_completed e q st (process_setattr q name v st).1.1.
Proof.
  unfold process_setattr, modify. cbn [fst]. repeat split.
  - intros q' Hq'. rewrite get_proc_set_proc, decide_False by congruence.
    reflexivity.
  - rewrite get_proc_set_proc, decide_True by reflexivity. reflexivity.
Qed.

Lemma parameters_of_process_setattr q name v st :
  parameters_of (process_setattr q name v st).1.1 q
  = assign (parameters_of st q) name v.
Proof.
  unfold process_setattr, modify, parameters_of. cbn [fst].
  rewrite get_proc_set_proc, decide_True by reflexivity. reflexivity.
Qed.

Lemma process_import_from_dict_completed e q d st :
  exists st',
    process_import_from_dict q d st = (st', [], Ok tt)
    /\ only_completed e q st st'
    /\ engines st' = engines st
    /\ parameters_of st' q = assign_all (parameters_of st q) d.
Proof.
  revert st. unfold process_import_from_dict, assign_all.
  induction d as [|kv d IH]; intros st.
  - exists st. repeat split.
  - rewrite for_each_cons.
    assert (E1 : process_setattr q (fst kv) (snd kv) st
                 = ((process_setattr q (fst kv) (snd kv) st).1.1, [], Ok tt))
      by reflexivity.
    rewrite (bind_run _ _ _ _ _ _ E1).
    destruct (IH (process_setattr q (fst kv) (snd kv) st).1.1)
      as (st' & E & Hc & He & Hp).
    exists st'. split; [rewrite E; reflexivity|]. split.
    { eapply only_completed_trans; [apply process_setattr_completed | exact Hc]. }
    split; [rewrite He; reflexivity|].
    rewrite Hp, parameters_of_process_setattr. reflexivity.
Qed.

Section Imports.

Variable PA : list (string * field).
Variable notifies : value -> value -> bool.

Lemma attributes_setattr_unobserved complete p e name v st c :
  attributes_of st e = Some c -> c_observed c = false ->
  exists st',
    attributes_setattr notifies complete p e name v st = (st', [], Ok tt)
    /\ attributes_of st' e = Some (assign c name v)
    /\ guard st' e = guard st e
    /\ only_attributes_changed e st st'.
Proof.
  intros Hc Hobs. unfold attributes_setattr. rewrite bind_gets, Hc.
  rewrite bind_update_attributes.
  destruct (update_attributes_only e (fun a => assign a name v) c st Hc)
    as (Ev & Hv & Hch).
  exists (update_attributes e (fun a => assign a name v) st).1.1.
  split.
  { rewrite Hobs. destruct (getattr c name); reflexivity. }
  split; [exact Hv|]. split; [|exact Hch].
  rewrite Ev. cbn [fst]. unfold guard.
  rewrite get_engine_set_eq by (eapply attributes_allocated; eassumption).
  reflexivity.
Qed.

Lemma attributes_import_unobserved complete p e d st c :
  attributes_of st e = Some c -> c_observed c = false ->
  exists st',
    attributes_import_from_dict notifies complete p e d st = (st', [], Ok tt)
    /\ attributes_of st' e = Some (assign_all c d)
    /\ guard st' e = guard st e
    /\ only_attributes_changed e st st'.
Proof.
  unfold attributes_import_from_dict. revert st c.
  induction d as [|kv d IH]; intros st c Hc Hobs.
  - exists st. repeat split; auto.
  - destruct (attributes_setattr_unobserved complete p e (fst kv) (snd kv) st c
                Hc Hobs) as (st1 & E1 & Hc1 & Hg1 & Hch1).
    destruct (IH st1 (assign c (fst kv) (snd kv)) Hc1 Hobs)
      as (st' & E' & Hc' & Hg' & Hch').
    exists st'. rewrite for_each_cons, (bind_run _ _ _ _ _ _ E1), E'.
    split; [reflexivity|]. split; [exact Hc'|]. split; [congruence|].
    eapply only_attributes_changed_trans; eassumption.
Qed.

(** The attribute part of [set_parameters], on an attribute set without
    handler. *)
Lemma attribute_part_unobserved complete p e st c inputs attrs :
  attributes_of st e = Some c -> c_observed c = false ->
  dict_get "capsul_attributes" inputs = Some (VDict attrs)
  \/ dict_get "capsul_attributes" inputs = None /\ attrs = [] ->
  exists st',
    match dict_get "capsul_attributes" inputs with
    | Some attributes =>
        if truthy attributes then
          match attributes with
          | VDict attributes =>
              attributes_import_from_dict notifies complete p e
                (filter (fun kv => fst kv ∈ user_trait_names c) attributes)
          | _ => raise
          end
        else ret tt
    | None => ret tt
    end st = (st', [], Ok tt)
    /\ attributes_of st' e = Some (assign_all c (declared_in c attrs))
    /\ guard st' e = guard st e
    /\ only_attributes_changed e st st'.
Proof.
  intros Hc Hobs [-> | [-> ->]].
  - destruct attrs as [|kv attrs].
    + exists st. simpl. auto using only_attributes_changed_refl.
    + change (truthy (VDict (kv :: attrs))) with true. cbv iota.
      apply attributes_import_unobserved; assumption.
  - exists st. simpl. auto using only_attributes_changed_refl.
Qed.

(** [set_parameters] on an attribute set without handler: the import of
    the declared attributes, then of the plain parameters. *)
Lemma set_parameters_unobserved fuel p e st c attrs inputs :
  attributes_of st e = Some c -> c_observed c = false ->
  dict_get "capsul_attributes" inputs = Some (VDict attrs)
  \/ dict_get "capsul_attributes" inputs = None /\ attrs = [] ->
  exists st',
    set_parameters PA notifies fuel p e inputs st = (st', [], Ok tt)
    /\ only_completed e (p_id (info_of p)) st st'
    /\ attributes_of st' e = Some (assign_all c (declared_in c attrs))
    /\ parameters_of st' (p_id (info_of p))
       = assign_all (parameters_of st (p_id (info_of p))) (plain_parameters inputs).
Proof.
  intros Hattributes Hunobserved Hget.
  rewrite (set_parameters_cached PA notifies fuel p e c inputs st Hattributes).
  destruct (attribute_part_unobserved (complete_parameters PA notifies fuel)
              p e st c inputs attrs Hattributes Hunobserved Hget)
    as (st1 & E1 & Ha1 & Hg1 & Hch1).
  rewrite (bind_run _ _ _ _ _ _ E1).
  destruct (process_import_from_dict_completed e (p_id (info_of p))
              (filter (fun kv => fst kv ≠ "capsul_attributes") inputs) st1)
    as (st2 & E2 & Hc2 & He2 & Hp2).
  rewrite E2. exists st2. split; [reflexivity|]. split.
  { eapply only_completed_trans; [|exact Hc2].
    apply only_attributes_changed_completed; assumption. }
  split; [unfold attributes_of, get_engine; rewrite He2; exact Ha1|].
  rewrite Hp2. destruct Hch1 as (Hprocs & _ & _).
  unfold parameters_of, get_proc. rewrite Hprocs. reflexivity.
Qed.

Lemma only_completed_guard e q st st' e' :
  only_completed e q st st' -> guard st' e' = guard st e'.
Proof.
  intros (_ & E & G & _). destruct (decide (e' = e)) as [->|Hne]; [exact G|].
  unfold guard. rewrite E by exact Hne. reflexivity.
Qed.

Lemma only_completed_parameters e q st st' q' :
  only_completed e q st st' -> q' <> q -> parameters_of st' q' = parameters_of st q'.
Proof.
  intros (_ & _ & _ & P & _) Hne. unfold parameters_of. rewrite P by exact Hne.
  reflexivity.
Qed.

Lemma only_completed_attributes e q st st' e' :
  only_completed e q st st' -> e' <> e -> attributes_of st' e' = attributes_of st e'.
Proof.
  intros (_ & E & _) Hne. unfold attributes_of. rewrite E by exact Hne.
  reflexivity.
Qed.

Lemma only_completed_attached e q st st' q' ce :
  only_completed e q st st' -> attached st q' ce -> attached st' q' ce.
Proof.
  intros (_ & _ & _ & P & C) H. unfold attached in *.
  destruct (decide (q' = q)) as [->|Hne]; [congruence|].
  rewrite P by exact Hne. exact H.
Qed.

(** X9.  [set_parameters] on an attribute set that no handler observes.
    The entries of ['capsul_attributes'] whose name is declared are
    assigned in order: each declared attribute ends with the last value
    given for it, the others keep theirs, and no attribute is created.  The
    other entries of the argument are assigned to the process.  No call is
    made, no guard changes, and no other engine or process is touched. *)
Theorem set_parameters_imports_the_declared_attributes fuel p e st c attrs inputs
    (Hattributes : attributes_of st e = Some c)
    (Hunobserved : c_observed c = false)
    (Hget : dict_get "capsul_attributes" inputs = Some (VDict attrs)
            \/ dict_get "capsul_attributes" inputs = None /\ attrs = []) :
  let run := set_parameters PA notifies fuel p e inputs st in
  let c' := assign_all c (declared_in c attrs) in
  run.2 = Ok tt
  /\ run.1.2 = []
  /\ attributes_of run.1.1 e = Some c'
  /\ user_trait_names c' = user_trait_names c
  /\ (forall name f, trait c name = Some f ->
        trait c' name = Some (Field (ftrait f) (assigned attrs name (fvalue f))))
  /\ (forall e', guard run.1.1 e' = guard st e')
  /\ (forall e', e' <> e -> attributes_of run.1.1 e' = attributes_of st e')
  /\ parameters_of run.1.1 (p_id (info_of p))
     = assign_all (parameters_of st (p_id (info_of p))) (plain_parameters inputs)
  /\ (forall q, q <> p_id (info_of p) ->
        parameters_of run.1.1 q = parameters_of st q).
Proof.
  cbv zeta.
  destruct (set_parameters_unobserved fuel p e st c attrs inputs
              Hattributes Hunobserved Hget) as (st' & -> & Hc & Ha & Hp).
  cbn [fst snd]. split; [reflexivity|]. split; [reflexivity|].
  split; [exact Ha|]. split; [apply assign_all_names|]. split.
  { intros name f Hf. rewrite (trait_assign_all _ _ _ _ Hf).
    rewrite assigned_declared by congruence. reflexivity. }
  split; [intros e'; eapply only_completed_guard; exact Hc|].
  split; [intros e' Hne; eapply only_completed_attributes; eassumption|].
  split; [exact Hp|].
  intros q Hq. eapply only_completed_parameters; eassumption.
Qed.

Lemma dict_get_plain inputs :
  dict_get "capsul_attributes" (plain_parameters inputs) = None.
Proof.
  unfold plain_parameters. induction inputs as [|[k v] inputs IH]; [reflexivity|].
  rewrite filter_cons. cbn [fst].
  destruct (decide (k ≠ "capsul_attributes")) as [Hk|Hk]; [|exact IH].
  cbn [dict_get]. destruct (String.eqb "capsul_attributes" k) eqn:E; [|exact IH].
  apply String.eqb_eq in E. congruence.
Qed.

Lemma plain_parameters_idem inputs :
  plain_parameters (plain_parameters inputs) = plain_parameters inputs.
Proof. apply filter_filter_same. Qed.

(** X10.  The value under ['capsul_attributes'] has to be a dictionary:
    a truthy value of another kind makes [set_parameters], and with it the
    pass, raise before anything is assigned; a falsy one ([None], [0], the
    empty string) is ignored as if the key were absent. *)
Theorem set_parameters_wants_a_dictionary_of_attributes fuel p e st c v inputs
    (Hattributes : attributes_of st e = Some c)
    (Hget : dict_get "capsul_attributes" inputs = Some v)
    (Hother : forall attrs, v <> VDict attrs) :
  (truthy v = true ->
     set_parameters PA notifies fuel p e inputs st = (st, [], Raised)
     /\ complete_parameters PA notifies (S fuel) p e inputs st = (st, [], Raised))
  /\ (truthy v = false ->
     set_parameters PA notifies fuel p e inputs st
     = set_parameters PA notifies fuel p e (plain_parameters inputs) st).
Proof.
  split; intros Ht.
  - assert (E : set_parameters PA notifies fuel p e inputs st = (st, [], Raised)).
    { rewrite (set_parameters_cached PA notifies fuel p e c inputs st Hattributes).
      rewrite Hget, Ht. destruct v; try reflexivity.
      exfalso. apply (Hother d). reflexivity. }
    split; [exact E|].
    change (complete_parameters PA notifies (S fuel))
      with (complete_parameters_with PA notifies (complete_parameters PA notifies fuel)).
    unfold complete_parameters_with. unfold set_parameters in E.
    unfold bind at 1. rewrite E. reflexivity.
  - rewrite !(set_parameters_cached PA notifies fuel p e c _ st Hattributes).
    rewrite Hget, Ht, dict_get_plain.
    fold (plain_parameters inputs). fold (plain_parameters (plain_parameters inputs)).
    rewrite plain_parameters_idem. reflexivity.
Qed.

(** ** The last phase, parameter by parameter *)

Lemma resolved_twice p a pname old :
  resolved p a pname (resolved p a pname old) = resolved p a pname old.
Proof. unfold resolved. destruct (attributes_to_path p pname a) as [[]|]; reflexivity. Qed.

Lemma process_setattr_run q name v st :
  process_setattr q name v st
  = (set_proc st q (ProcState (assign (parameters_of st q) name v)
                              (completion_engine (get_proc st q))), [], Ok tt).
Proof. reflexivity. Qed.

(** One parameter of the loop. *)
Lemma own_parameter_run p e a pname st :
  exists st',
    match attributes_to_path p pname a with
    | Returns VNone => ret tt
    | Returns value => process_setattr (p_id (info_of p)) pname value
    | Raises => ret tt
    end st = (st', [], Ok tt)
    /\ engines st' = engines st
    /\ only_completed e (p_id (info_of p)) st st'
    /\ user_trait_names (parameters_of st' (p_id (info_of p)))
       = user_trait_names (parameters_of st (p_id (info_of p)))
    /\ (forall name f,
          trait (parameters_of st (p_id (info_of p))) name = Some f ->
          trait (parameters_of st' (p_id (info_of p))) name
          = Some (Field (ftrait f)
                    (if String.eqb name pname then resolved p a pname (fvalue f)
                     else fvalue f))).
Proof.
  assert (Hsame : exists st',
            @ret unit tt st = (st', [], Ok tt)
            /\ engines st' = engines st
            /\ only_completed e (p_id (info_of p)) st st'
            /\ user_trait_names (parameters_of st' (p_id (info_of p)))
               = user_trait_names (parameters_of st (p_id (info_of p)))
            /\ (forall name f,
                  trait (parameters_of st (p_id (info_of p))) name = Some f ->
                  trait (parameters_of st' (p_id (info_of p))) name
                  = Some (Field (ftrait f)
                            (if String.eqb name pname then fvalue f else fvalue f)))).
  { exists st. split; [reflexivity|]. split; [reflexivity|].
    split; [apply only_completed_refl|]. split; [reflexivity|].
    intros name f ->. destruct f, (String.eqb name pname); reflexivity. }
  assert (Hset : forall v, exists st',
            process_setattr (p_id (info_of p)) pname v st = (st', [], Ok tt)
            /\ engines st' = engines st
            /\ only_completed e (p_id (info_of p)) st st'
            /\ user_trait_names (parameters_of st' (p_id (info_of p)))
               = user_trait_names (parameters_of st (p_id (info_of p)))
            /\ (forall name f,
                  trait (parameters_of st (p_id (info_of p))) name = Some f ->
                  trait (parameters_of st' (p_id (info_of p))) name
                  = Some (Field (ftrait f)
                            (if String.eqb name pname then v else fvalue f)))).
  { intros v. exists (process_setattr (p_id (info_of p)) pname v st).1.1.
    split; [reflexivity|]. split; [reflexivity|].
    split; [apply process_setattr_completed|].
    rewrite parameters_of_process_setattr. split.
    { unfold user_trait_names. simpl. apply assign_field_names. }
    intros name f Hf. apply trait_assign. exact Hf. }
  unfold resolved.
  destruct (attributes_to_path p pname a) as [[]|]; solve [exact Hsame | apply Hset].
Qed.

Lemma own_parameters_loop p e a names st :
  exists st',
    for_each names (fun pname =>
      match attributes_to_path p pname a with
      | Returns VNone => ret tt
      | Returns value => process_setattr (p_id (info_of p)) pname value
      | Raises => ret tt
      end) st = (st', [], Ok tt)
    /\ engines st' = engines st
    /\ only_completed e (p_id (info_of p)) st st'
    /\ user_trait_names (parameters_of st' (p_id (info_of p)))
       = user_trait_names (parameters_of st (p_id (info_of p)))
    /\ (forall name f,
          trait (parameters_of st (p_id (info_of p))) name = Some f ->
          trait (parameters_of st' (p_id (info_of p))) name
          = Some (Field (ftrait f)
                    (if decide (name ∈ names) then resolved p a name (fvalue f)
                     else fvalue f))).
Proof.
  revert st. induction names as [|pname names IH]; intros st.
  - exists st. split; [reflexivity|]. split; [reflexivity|].
    split; [apply only_completed_refl|]. split; [reflexivity|].
    intros name f ->.
    rewrite decide_False by (intros H; inversion H). destruct f. reflexivity.
  - destruct (own_parameter_run p e a pname st) as (st1 & E1 & He1 & Ho1 & Hn1 & Ht1).
    destruct (IH st1) as (st' & E' & He' & Ho' & Hn' & Ht').
    exists st'. rewrite for_each_cons, (bind_run _ _ _ _ _ _ E1), E'.
    split; [reflexivity|]. split; [congruence|]. split.
    { eapply only_completed_trans; eassumption. }
    split; [congruence|].
    intros name f Hf. rewrite (Ht' _ _ (Ht1 _ _ Hf)). simpl. f_equal. f_equal.
    destruct (String.eqb name pname) eqn:E.
    + apply String.eqb_eq in E. subst pname.
      rewrite (decide_True (P := name ∈ name :: names)) by left.
      destruct (decide (name ∈ names)); [apply resolved_twice | reflexivity].
    + apply String.eqb_neq in E.
      destruct (decide (name ∈ names)) as [Hin|Hout].
      * rewrite decide_True by (right; exact Hin). reflexivity.
      * rewrite decide_False; [reflexivity|].
        intros H. apply elem_of_cons in H. destruct H; [congruence | auto].
Qed.

Lemma trait_declared c name f : trait c name = Some f -> name ∈ user_trait_names c.
Proof.
  intros H. destruct (decide (name ∈ user_trait_names c)) as [Hin|Hout]; [exact Hin|].
  apply lookup_field_None in Hout. unfold trait in H. congruence.
Qed.

(** The last phase on an engine that has its attribute set [a]. *)
Lemma complete_own_parameters_resolved p e a st :
  attributes_of st e = Some a ->
  exists st',
    complete_own_parameters PA p e st = (st', [], Ok tt)
    /\ engines st' = engines st
    /\ only_completed e (p_id (info_of p)) st st'
    /\ user_trait_names (parameters_of st' (p_id (info_of p)))
       = user_trait_names (parameters_of st (p_id (info_of p)))
    /\ (forall pname f,
          trait (parameters_of st (p_id (info_of p))) pname = Some f ->
          trait (parameters_of st' (p_id (info_of p))) pname
          = Some (Field (ftrait f) (resolved p a pname (fvalue f)))).
Proof.
  intros Hattributes. unfold complete_own_parameters.
  rewrite (bind_run _ _ _ _ _ _ (get_attribute_values_cached PA p e st a Hattributes)).
  rewrite bind_gets.
  destruct (own_parameters_loop p e a
              (user_trait_names (parameters_of st (p_id (info_of p)))) st)
    as (st' & E & He & Ho & Hn & Ht).
  exists st'. rewrite E. split; [reflexivity|].
  split; [exact He|]. split; [exact Ho|]. split; [exact Hn|].
  intros pname f Hf. rewrite (Ht _ _ Hf).
  rewrite decide_True by (eapply trait_declared; exact Hf). reflexivity.
Qed.

(** X11.  The last phase of a pass, on an engine that has its attribute
    set: each parameter of the process for which [attributes_to_path]
    returns a value other than [None] gets that value, and each other
    keeps its own (a resolution that raises changes nothing).  No trait is
    added or removed, and no engine and no other process changes. *)
Theorem last_phase_assigns_the_resolved_paths p e a st
    (Hattributes : attributes_of st e = Some a) :
  let run := complete_own_parameters PA p e st in
  run.2 = Ok tt
  /\ run.1.2 = []
  /\ engines run.1.1 = engines st
  /\ (forall q, q <> p_id (info_of p) -> parameters_of run.1.1 q = parameters_of st q)
  /\ user_trait_names (parameters_of run.1.1 (p_id (info_of p)))
     = user_trait_names (parameters_of st (p_id (info_of p)))
  /\ (forall pname f,
        trait (parameters_of st (p_id (info_of p))) pname = Some f ->
        trait (parameters_of run.1.1 (p_id (info_of p))) pname
        = Some (Field (ftrait f)
                  (match attributes_to_path p pname a with
                   | Returns VNone => fvalue f
                   | Returns path => path
                   | Raises => fvalue f
                   end))).
Proof.
  cbv zeta.
  destruct (complete_own_parameters_resolved p e a st Hattributes)
    as (st' & -> & He & Ho & Hn & Ht).
  cbn [fst snd]. split; [reflexivity|]. split; [reflexivity|].
  split; [exact He|]. split.
  { intros q Hq. eapply only_completed_parameters; eassumption. }
  split; [exact Hn|]. exact Ht.
Qed.

(** A pass on a process that is not a pipeline, whose engine has an
    attribute set without handler. *)
Lemma atomic_pass_run fuel info cfg e st c attrs inputs :
  attributes_of st e = Some c -> c_observed c = false ->
  dict_get "capsul_attributes" inputs = Some (VDict attrs)
  \/ dict_get "capsul_attributes" inputs = None /\ attrs = [] ->
  exists st',
    complete_parameters PA notifies (S fuel) (Atomic info cfg) e inputs st
    = (st', [], Ok tt)
    /\ only_completed e (p_id info) st st'
    /\ attributes_of st' e = Some (assign_all c (declared_in c attrs))
    /\ (forall pname f,
          trait (parameters_of st (p_id info)) pname = Some f ->
          trait (parameters_of st' (p_id info)) pname
          = Some (Field (ftrait f)
                    (resolved (Atomic info cfg)
                       (assign_all c (declared_in c attrs)) pname
                       (assigned (plain_parameters inputs) pname (fvalue f))))).
Proof.
  intros Hattributes Hunobserved Hget.
  destruct (set_parameters_unobserved fuel (Atomic info cfg) e st c attrs inputs
              Hattributes Hunobserved Hget) as (st1 & E1 & Hc1 & Ha1 & Hp1).
  destruct (complete_own_parameters_resolved (Atomic info cfg) e _ st1 Ha1)
    as (st' & E' & He' & Hc' & _ & Ht').
  exists st'.
  change (complete_parameters PA notifies (S fuel))
    with (complete_parameters_with PA notifies (complete_parameters PA notifies fuel)).
  unfold complete_parameters_with. unfold set_parameters in E1.
  rewrite (bind_run _ _ _ _ _ _ E1). cbn [complete_children].
  rewrite bind_ret, E'. split; [reflexivity|]. split.
  { eapply only_completed_trans; eassumption. }
  split; [unfold attributes_of, get_engine; rewrite He'; exact Ha1|].
  intros pname f Hf. cbn [info_of] in *.
  apply (Ht' pname (Field (ftrait f)
                      (assigned (plain_parameters inputs) pname (fvalue f)))).
  rewrite Hp1. apply trait_assign_all. exact Hf.
Qed.

(** X12.  A whole pass on a process that is not a pipeline, its
    attribute set being unobserved: the declared attributes of the argument
    are imported, then every parameter is resolved from the updated set.  A
    parameter given in the argument keeps the given value only when the
    resolution yields nothing for it: the completed path overwrites it
    otherwise. *)
Theorem a_pass_on_a_process_completes_its_parameters fuel info cfg e st c attrs inputs
    (Hattributes : attributes_of st e = Some c)
    (Hunobserved : c_observed c = false)
    (Hget : dict_get "capsul_attributes" inputs = Some (VDict attrs)
            \/ dict_get "capsul_attributes" inputs = None /\ attrs = []) :
  let c' := assign_all c (declared_in c attrs) in
  exists st',
    complete_parameters PA notifies (S fuel) (Atomic info cfg) e inputs st
    = (st', [], Ok tt)
    /\ attributes_of st' e = Some c'
    /\ (forall name f, trait c name = Some f ->
          trait c' name = Some (Field (ftrait f) (assigned attrs name (fvalue f))))
    /\ (forall pname f,
          trait (parameters_of st (p_id info)) pname = Some f ->
          trait (parameters_of st' (p_id info)) pname
          = Some (Field (ftrait f)
                    (resolved (Atomic info cfg) c' pname
                       (assigned (plain_parameters inputs) pname (fvalue f)))))
    /\ (forall q, q <> p_id info -> parameters_of st' q = parameters_of st q).
Proof.
  cbv zeta.
  destruct (atomic_pass_run fuel info cfg e st c attrs inputs
              Hattributes Hunobserved Hget) as (st' & E & Hc & Ha & Ht).
  exists st'.
  split; [exact E|]. split; [exact Ha|]. split.
  { intros name f Hf. rewrite (trait_assign_all _ _ _ _ Hf).
    rewrite assigned_declared by congruence. reflexivity. }
  split; [exact Ht|].
  intros q Hq. eapply only_completed_parameters; eassumption.
Qed.

End Imports.

(** ** Loops *)

Lemma bind_assoc {A B C} (m : M A) (k : A -> M B) (h : B -> M C) st :
  bind (bind m k) h st = bind m (fun a => bind (k a) h) st.
Proof.
  unfold bind. destruct (m st) as [[s1 l1] [a| |]]; try reflexivity.
  destruct (k a s1) as [[s2 l2] [b| |]]; try reflexivity.
  destruct (h b s2) as [[s3 l3] r3]. rewrite app_assoc. reflexivity.
Qed.

Lemma bind_ext {A B} (m : M A) (k k' : A -> M B) st :
  (forall a s, k a s = k' a s) -> bind m k st = bind m k' st.
Proof.
  intros H. unfold bind. destruct (m st) as [[s1 l1] [a| |]]; try reflexivity.
  rewrite H. reflexivity.
Qed.

Lemma bind_ret_r {A} (m : M A) st : bind m ret st = m st.
Proof.
  unfold bind, ret. destruct (m st) as [[s1 l1] [a| |]]; try reflexivity.
  rewrite app_nil_r. reflexivity.
Qed.

Lemma for_each_app {A} (l1 l2 : list A) (body : A -> M unit) st :
  for_each (l1 ++ l2) body st
  = bind (for_each l1 body) (fun _ => for_each l2 body) st.
Proof.
  revert st. induction l1 as [|a l1 IH]; intros st.
  - rewrite for_each_nil, bind_ret. reflexivity.
  - simpl app. rewrite !for_each_cons, bind_assoc. apply bind_ext.
    intros _ s. apply IH.
Qed.

Lemma for_each_map {A B} (f : A -> B) (l : list A) (body : B -> M unit) :
  for_each (map f l) body = for_each l (fun a => body (f a)).
Proof.
  induction l as [|a l IH]; [reflexivity|].
  simpl map. rewrite for_each_cons, (for_each_cons a l), IH. reflexivity.
Qed.

Lemma for_each_steps graph (body : string -> process -> M unit) st :
  for_each graph (fun g => for_each (snd g) (body (fst g))) st
  = for_each (steps graph) (fun nc => body (fst nc) (snd nc)) st.
Proof.
  unfold steps. revert st. induction graph as [|g graph IH]; intros st;
    [reflexivity|].
  cbn [map concat]. rewrite for_each_cons, for_each_app, for_each_map. apply bind_ext.
  intros _ s. apply IH.
Qed.

Lemma steps_children info cfg nodes graph :
  map snd (steps graph) = children (Pipeline info cfg nodes graph).
Proof.
  unfold steps. simpl. induction graph as [|g graph IH]; [reflexivity|].
  simpl. rewrite map_app, IH, map_map. simpl. rewrite map_id. reflexivity.
Qed.

(** ** A pass on a pipeline whose children are ready *)

Lemma assigned_nil name old : assigned [] name old = old.
Proof. reflexivity. Qed.

Lemma plain_parameters_attributes_only v :
  plain_parameters [("capsul_attributes", v)] = [].
Proof.
  unfold plain_parameters. rewrite filter_cons, decide_False; [reflexivity|].
  intros H. apply H. reflexivity.
Qed.

Section Flow.

Variable PA : list (string * field).
Variable notifies : value -> value -> bool.

Lemma complete_child_ready fuel name node_name av c e q st :
  ready st e q c ->
  exists ce sc st',
    complete_child (complete_parameters PA notifies (S fuel)) name node_name av c st
    = (st', [Call Child (p_id (info_of c)) ce
               [("capsul_attributes", VDict av)] [] (Ok tt)], Ok tt)
    /\ attached st (p_id (info_of c)) ce
    /\ attributes_of st ce = Some sc
    /\ only_completed ce (p_id (info_of c)) st st'
    /\ child_completed av c ce sc st st'.
Proof.
  intros (Hp & Hq & ce & sc & Hatt & Hne & Hsc & Hobs).
  destruct c as [info cfg|]; [|discriminate Hp].
  destruct (atomic_pass_run PA notifies fuel info cfg ce st sc av
              [("capsul_attributes", VDict av)] Hsc Hobs
              ltac:(left; reflexivity))
    as (st' & E & Hc & Ha & Ht).
  exists ce, sc, st'. unfold complete_child.
  rewrite (bind_run _ _ _ _ _ _
             (get_completion_engine_attached _ _ _ _ Hatt)).
  unfold try_except, recorded. rewrite E.
  split; [reflexivity|]. split; [exact Hatt|]. split; [exact Hsc|].
  split; [exact Hc|]. split; [exact Ha|].
  intros pname f Hf. cbn [info_of] in *. rewrite (Ht pname f Hf).
  rewrite plain_parameters_attributes_only, assigned_nil. reflexivity.
Qed.

Lemma ready_frame e q c st st' :
  ready st e q c ->
  get_proc st' (p_id (info_of c)) = get_proc st (p_id (info_of c)) ->
  (forall ce, attached st (p_id (info_of c)) ce ->
     get_engine st' ce = get_engine st ce) ->
  ready st' e q c.
Proof.
  intros (Hp & Hq & ce & sc & Hatt & Hne & Hsc & Hobs) Hproc Heng.
  split; [exact Hp|]. split; [exact Hq|]. exists ce, sc.
  unfold attached, attributes_of in *. rewrite Hproc, (Heng ce Hatt). auto.
Qed.

(** The traversal of children that are ready and apart: each is completed
    at its first attempt, and nothing else changes. *)
Lemma complete_children_ready fuel name av e q items :
  forall st,
    Forall (ready st e q) (map snd items) ->
    apart st (map snd items) ->
    exists st' l,
      for_each items (fun nc =>
        complete_child (complete_parameters PA notifies (S fuel)) name
          (fst nc) av (snd nc)) st = (st', l, Ok tt)
      /\ l = map (fun c =>
                   Call Child (p_id (info_of c))
                     (default 0 (completion_engine (get_proc st (p_id (info_of c)))))
                     [("capsul_attributes", VDict av)] [] (Ok tt))
                (map snd items)
      /\ (forall e', (forall c, c ∈ map snd items ->
                        ~ attached st (p_id (info_of c)) e') ->
            get_engine st' e' = get_engine st e')
      /\ (forall q', q' ∉ map (fun c => p_id (info_of c)) (map snd items) ->
            get_proc st' q' = get_proc st q')
      /\ (forall c ce sc,
            c ∈ map snd items -> attached st (p_id (info_of c)) ce ->
            attributes_of st ce = Some sc ->
            child_completed av c ce sc st st').
Proof.
  induction items as [|[n c] items IH]; intros st Hready Hapart.
  - exists st, []. split; [reflexivity|]. split; [reflexivity|].
    split; [reflexivity|]. split; [reflexivity|].
    intros c ce sc Hin. inversion Hin.
  - unfold apart in Hapart. rewrite !map_cons in Hready, Hapart. cbn [snd] in Hready, Hapart.
    apply Forall_cons in Hready.
    destruct Hready as [Hc Hrest]. destruct Hapart as [Hpids Hengs].
    apply NoDup_cons in Hpids, Hengs.
    destruct Hpids as [Hpid Hpids]. destruct Hengs as [Heng Hengs].
    destruct (complete_child_ready fuel name n av c e q st Hc)
      as (ce & sc & st1 & E1 & Hatt & Hsc & Hoc & Hdone).
    assert (Hothers : forall c2, c2 ∈ map snd items ->
              p_id (info_of c2) <> p_id (info_of c)
              /\ ~ attached st (p_id (info_of c2)) ce).
    { intros c2 Hin. split.
      - intros Heq. apply Hpid. rewrite <- Heq.
        apply (list_elem_of_fmap_2 (fun c => p_id (info_of c))). exact Hin.
      - intros Hatt2. apply Heng. unfold attached in Hatt, Hatt2.
        rewrite Hatt, <- Hatt2.
        apply (list_elem_of_fmap_2
                 (fun c => completion_engine (get_proc st (p_id (info_of c))))).
        exact Hin. }
    assert (Hproc : forall c2, c2 ∈ map snd items ->
              get_proc st1 (p_id (info_of c2)) = get_proc st (p_id (info_of c2))).
    { intros c2 Hin. destruct Hoc as (_ & _ & _ & P & _). apply P.
      apply (Hothers c2 Hin). }
    assert (Hengine : forall e', e' <> ce -> get_engine st1 e' = get_engine st e').
    { destruct Hoc as (_ & E & _). exact E. }
    destruct (IH st1) as (st' & l' & E' & Hl' & F1 & F2 & F5).
    { apply Forall_forall. intros c2 Hin.
      rewrite Forall_forall in Hrest.
      apply (ready_frame e q c2 st st1 (Hrest c2 Hin) (Hproc c2 Hin)).
      intros ce2 Hatt2. apply Hengine. intros ->.
      apply (Hothers c2 Hin). exact Hatt2. }
    { split; [exact Hpids|].
      erewrite map_ext_in; [exact Hengs|].
      intros c2 Hin. rewrite Hproc; [reflexivity|].
      apply list_elem_of_In. exact Hin. }
    exists st', (Call Child (p_id (info_of c)) ce
                   [("capsul_attributes", VDict av)] [] (Ok tt) :: l').
    rewrite for_each_cons. cbn [fst snd].
    rewrite (bind_run _ _ _ _ _ _ E1), E'. split; [reflexivity|].
    split.
    { rewrite !map_cons, Hl'. cbn [snd]. unfold attached in Hatt. rewrite Hatt.
      cbn [default].
      f_equal. apply map_ext_in. intros c2 Hin.
      rewrite Hproc by (apply list_elem_of_In; exact Hin). reflexivity. }
    assert (Hceframe : get_engine st' ce = get_engine st1 ce).
    { apply F1. intros c2 Hin Hatt2. apply (Hothers c2 Hin).
      unfold attached in *. rewrite <- (Hproc c2 Hin). exact Hatt2. }
    assert (Hcframe : get_proc st' (p_id (info_of c)) = get_proc st1 (p_id (info_of c))).
    { apply F2. exact Hpid. }
    split.
    { intros e' He'. rewrite map_cons in He'. cbn [snd] in He'.
      assert (e' <> ce).
      { intros ->. apply (He' c); [left | exact Hatt]. }
      rewrite F1; [apply Hengine; assumption|].
      intros c2 Hin Hatt2. apply (He' c2); [right; exact Hin|].
      unfold attached in *. rewrite <- (Hproc c2 Hin). exact Hatt2. }
    split.
    { intros q' Hq'. rewrite !map_cons in Hq'. cbn [snd] in Hq'.
      apply not_elem_of_cons in Hq'.
      destruct Hq' as [Hne Hout]. rewrite F2 by exact Hout.
      destruct Hoc as (_ & _ & _ & P & _). apply P. exact Hne. }
    intros c0 ce0 sc0 Hin Hatt0 Hsc0. rewrite map_cons in Hin. cbn [snd] in Hin.
    apply elem_of_cons in Hin. destruct Hin as [->|Hin].
    + assert (ce0 = ce) by (unfold attached in *; congruence). subst ce0.
      assert (sc0 = sc) by congruence. subst sc0.
      destruct Hdone as [Ha Ht]. split.
      * unfold attributes_of. rewrite Hceframe. exact Ha.
      * intros pname f Hf. unfold parameters_of at 1. rewrite Hcframe.
        apply (Ht pname f Hf).
    + destruct (Hothers c0 Hin) as [Hpne Hnatt].
      assert (Hce0 : ce0 <> ce) by (intros ->; apply Hnatt; exact Hatt0).
      destruct (F5 c0 ce0 sc0 Hin) as [Ha Ht].
      { unfold attached in *. rewrite (Hproc c0 Hin). exact Hatt0. }
      { unfold attributes_of. rewrite Hengine by exact Hce0. exact Hsc0. }
      split; [exact Ha|].
      intros pname f Hf. apply Ht. unfold parameters_of.
      rewrite (Hproc c0 Hin). exact Hf.
Qed.

(** X13.  Attributes flow down one level.  On a pipeline whose engine
    holds an unobserved attribute set and whose children are processes
    served by engines of their own, each with an unobserved set, a pass
    returns after calling every child once, in the order of the graph and
    at the first attempt, with the parent's values as they are after the
    import.  Each child's set takes the parent's value for every attribute
    that it declares, each child's parameters are resolved from its own
    updated set, and the parent's parameters are resolved last, from the
    parent's set. *)
Theorem attributes_flow_down_to_the_children fuel info cfg nodes graph e st a
    attrs inputs
    (Hattributes : attributes_of st e = Some a)
    (Hunobserved : c_observed a = false)
    (Hget : dict_get "capsul_attributes" inputs = Some (VDict attrs)
            \/ dict_get "capsul_attributes" inputs = None /\ attrs = [])
    (Hready : Forall (ready st e (p_id info))
                (children (Pipeline info cfg nodes graph)))
    (Hapart : apart st (children (Pipeline info cfg nodes graph))) :
  let p := Pipeline info cfg nodes graph in
  let a' := assign_all a (declared_in a attrs) in
  exists st' l,
    complete_parameters PA notifies (S (S fuel)) p e inputs st = (st', l, Ok tt)
    /\ map (fun c => (call_how c, call_target c, call_inputs c, call_result c)) l
       = map (fun c => (Child, p_id (info_of c),
                        [("capsul_attributes", VDict (export_to_dict a'))], Ok tt))
           (children p)
    /\ attributes_of st' e = Some a'
    /\ (forall c ce sc,
          c ∈ children p -> attached st (p_id (info_of c)) ce ->
          attributes_of st ce = Some sc ->
          child_completed (export_to_dict a') c ce sc st st')
    /\ (forall pname f,
          trait (parameters_of st (p_id info)) pname = Some f ->
          trait (parameters_of st' (p_id info)) pname
          = Some (Field (ftrait f)
                    (resolved p a' pname
                       (assigned (plain_parameters inputs) pname (fvalue f))))).
Proof.
  cbv zeta.
  set (p := Pipeline info cfg nodes graph) in *.
  set (a' := assign_all a (declared_in a attrs)).
  destruct (set_parameters_unobserved PA notifies (S fuel) p e st a attrs inputs
              Hattributes Hunobserved Hget) as (st1 & E1 & Hc1 & Ha1 & Hp1).
  fold a' in Ha1. change (p_id (info_of p)) with (p_id info) in *.
  rewrite Forall_forall in Hready.
  assert (Hproc : forall c, c ∈ children p ->
            get_proc st1 (p_id (info_of c)) = get_proc st (p_id (info_of c))).
  { intros c Hin. destruct (Hready c Hin) as (_ & Hq & _).
    destruct Hc1 as (_ & _ & _ & P & _). apply P. exact Hq. }
  assert (Hunserved : forall c, c ∈ children p -> ~ attached st (p_id (info_of c)) e).
  { intros c Hin Hatt. destruct (Hready c Hin) as (_ & _ & ce & sc & Hce & Hne & _).
    unfold attached in *. congruence. }
  assert (Hengine : forall ce, ce <> e -> get_engine st1 ce = get_engine st ce).
  { destruct Hc1 as (_ & E & _). exact E. }
  assert (Hready1 : Forall (ready st1 e (p_id info)) (map snd (steps graph))).
  { rewrite (steps_children info cfg nodes graph). apply Forall_forall.
    intros c Hin. apply (ready_frame e (p_id info) c st st1 (Hready c Hin) (Hproc c Hin)).
    intros ce Hatt. apply Hengine. intros ->. apply (Hunserved c Hin). exact Hatt. }
  assert (Hapart1 : apart st1 (map snd (steps graph))).
  { rewrite (steps_children info cfg nodes graph). destruct Hapart as [H1 H2].
    split; [exact H1|]. erewrite map_ext_in; [exact H2|].
    intros c Hin. rewrite Hproc; [reflexivity|]. apply list_elem_of_In. exact Hin. }
  destruct (complete_children_ready fuel (p_name info) (export_to_dict a') e
              (p_id info) (steps graph) st1 Hready1 Hapart1)
    as (st2 & l2 & E2 & Hl2 & F1 & F2 & F5).
  rewrite (steps_children info cfg nodes graph) in Hl2, F1, F2, F5.
  fold p in Hl2, F1, F2, F5.
  assert (Ha2 : attributes_of st2 e = Some a').
  { unfold attributes_of. rewrite F1; [exact Ha1|].
    intros c Hin Hatt. apply (Hunserved c Hin). unfold attached in *.
    rewrite <- (Hproc c Hin). exact Hatt. }
  destruct (complete_own_parameters_resolved PA p e a' st2 Ha2)
    as (st3 & E3 & He3 & Hc3 & _ & Ht3).
  change (p_id (info_of p)) with (p_id info) in *.
  exists st3, l2. split.
  { change (complete_parameters PA notifies (S (S fuel)))
      with (complete_parameters_with PA notifies
              (complete_parameters PA notifies (S fuel))).
    unfold complete_parameters_with. unfold set_parameters in E1.
    rewrite (bind_run _ _ _ _ _ _ E1).
    assert (Ec : complete_children PA (complete_parameters PA notifies (S fuel)) p e st1
                 = (st2, l2, Ok tt)).
    { unfold p, complete_children. fold p.
      rewrite (bind_run _ _ _ _ _ _ (get_attribute_values_cached PA p e st1 a' Ha1)).
      rewrite (for_each_steps graph
                 (fun n c => complete_child (complete_parameters PA notifies (S fuel))
                               (p_name info) n (export_to_dict a') c)).
      rewrite E2. reflexivity. }
    rewrite (bind_run _ _ _ _ _ _ Ec), E3. rewrite app_nil_r. reflexivity. }
  split.
  { rewrite Hl2, map_map. reflexivity. }
  split; [unfold attributes_of, get_engine; rewrite He3; exact Ha2|].
  split.
  - intros c ce sc Hin Hatt Hsc.
    destruct (Hready c Hin) as (_ & Hq & ce' & sc' & Hce' & Hne & _).
    assert (ce' = ce) by (unfold attached in *; congruence). subst ce'.
    destruct (F5 c ce sc Hin) as [Ha Ht].
    { unfold attached in *. rewrite (Hproc c Hin). exact Hatt. }
    { unfold attributes_of. rewrite Hengine by exact Hne. exact Hsc. }
    split.
    + unfold attributes_of, get_engine. rewrite He3. exact Ha.
    + intros pname f Hf.
      rewrite (only_completed_parameters e (p_id info) st2 st3 _ Hc3 Hq).
      apply Ht. unfold parameters_of. rewrite (Hproc c Hin). exact Hf.
  - intros pname f Hf.
    apply (Ht3 pname (Field (ftrait f)
                        (assigned (plain_parameters inputs) pname (fvalue f)))).
    unfold parameters_of. rewrite F2.
    + fold (parameters_of st1 (p_id info)). rewrite Hp1.
      apply trait_assign_all. exact Hf.
    + intros Hin. apply list_elem_of_fmap in Hin. destruct Hin as (c & Heq & Hin).
      destruct (Hready c Hin) as (_ & Hq & _). congruence.
Qed.

End Flow.

(** ** config_utils: the lines of an environment *)


Lemma all_chars_app P s1 s2 :
  all_chars P (s1 +:+ s2) = all_chars P s1 && all_chars P s2.
Proof.
  induction s1 as [|c s1 IH]; simpl; [reflexivity|].
  rewrite IH, andb_assoc. reflexivity.
Qed.

Lemma word_is_not_space c : is_word c = true -> is_space c = false.
Proof.
  unfold is_word, is_space. cbv zeta. generalize (nat_of_ascii c). intros n H.
  apply orb_false_iff. split.
  - apply Nat.eqb_neq. intros ->. discriminate H.
  - apply andb_false_iff.
    destruct (Nat.leb_spec 9 n), (Nat.leb_spec n 13); auto.
    exfalso. assert (Hn : n = 9 \/ n = 10 \/ n = 11 \/ n = 12 \/ n = 13) by lia.
    destruct Hn as [->|[->|[->|[->| ->]]]]; discriminate H.
Qed.

Lemma word_prefix_spec s :
  let '(w, rest) := word_prefix s in
  s = w +:+ rest
  /\ all_chars is_word w = true
  /\ match rest with
     | EmptyString => True
     | String c _ => is_word c = false
     end.
Proof.
  induction s as [|c s IH]; simpl; [auto|].
  destruct (is_word c) eqn:E.
  - destruct (word_prefix s) as [w rest]. destruct IH as (-> & Hw & Hr).
    simpl. rewrite E, Hw. auto.
  - simpl. auto.
Qed.

(** The decomposition that the pattern asks for is unique. *)
Lemma word_prefix_unique w rest :
  all_chars is_word w = true ->
  match rest with
  | EmptyString => True
  | String c _ => is_word c = false
  end ->
  word_prefix (w +:+ rest) = (w, rest).
Proof.
  intros Hw Hr. induction w as [|c w IH]; simpl in *.
  - destruct rest as [|c rest]; [reflexivity|]. simpl. rewrite Hr. reflexivity.
  - apply andb_prop in Hw. destruct Hw as [Hc Hw]. rewrite Hc, (IH Hw).
    reflexivity.
Qed.

Lemma chomp_no_newline s : all_chars (fun c => negb (Ascii.eqb c newline)) s = true -> chomp s = s.
Proof.
  induction s as [|c s IH]; [reflexivity|]. simpl. intros H.
  apply andb_prop in H. destruct H as [Hc Hs].
  destruct s as [|c' s]; [|rewrite (IH Hs); reflexivity].
  apply negb_true_iff in Hc. rewrite Hc. reflexivity.
Qed.

Lemma token_no_newline s :
  is_token s = true -> all_chars (fun c => negb (Ascii.eqb c newline)) s = true.
Proof.
  unfold is_token. induction s as [|c s IH]; [reflexivity|]. simpl.
  intros H. apply andb_prop in H. destruct H as [Hc Hs].
  rewrite (IH Hs), andb_true_r. apply negb_true_iff.
  destruct (Ascii.eqb c newline) eqn:E; [|reflexivity].
  apply Ascii.eqb_eq in E. subst c. discriminate Hc.
Qed.

Lemma no_newline_app s1 s2 :
  all_chars (fun c => negb (Ascii.eqb c newline)) (s1 +:+ s2) = true ->
  all_chars (fun c => negb (Ascii.eqb c newline)) s2 = true.
Proof. rewrite all_chars_app. intros H. apply andb_prop in H. apply H. Qed.

(** What a match gives, whatever the line. *)
Lemma match_assignment_groups line name value :
  match_assignment line = Some (name, value) ->
  is_name name = true /\ is_token value = true
  /\ exists rest, line = name +:+ "=" +:+ rest /\ value = chomp rest.
Proof.
  unfold match_assignment. pose proof (word_prefix_spec line) as H.
  destruct (word_prefix line) as [w rest]. destruct H as (-> & Hw & _).
  destruct w as [|c w]; [discriminate|]. destruct rest as [|sep rest]; [discriminate|].
  destruct (Ascii.eqb sep "=") eqn:Hsep; [|discriminate].
  destruct (all_chars (fun c0 => negb (is_space c0)) (chomp rest)) eqn:Ht;
    [|discriminate].
  simpl. intros [= <- <-]. apply Ascii.eqb_eq in Hsep. subst sep.
  split; [exact Hw|]. split; [exact Ht|]. exists rest. auto.
Qed.

Lemma match_assignment_token name value :
  is_name name = true -> is_token value = true ->
  match_assignment (name +:+ "=" +:+ value) = Some (name, value).
Proof.
  unfold is_name. intros Hn Ht. apply andb_prop in Hn. destruct Hn as [Hne Hw].
  unfold match_assignment.
  rewrite (word_prefix_unique name ("=" +:+ value) Hw eq_refl).
  destruct name as [|c w]; [discriminate Hne|].
  change ("=" +:+ value) with (String "=" value). cbv iota.
  rewrite (chomp_no_newline value (token_no_newline value Ht)).
  unfold is_token in Ht. rewrite Ht. reflexivity.
Qed.

(** X14.  The pattern of [environment] accepts a line (a string without
    newline) exactly when it is a non-empty name of letters, digits and
    underscores, followed by [=] and by a value without whitespace; the
    groups are then that name and that value.  A line whose value holds a
    blank is not read. *)
Theorem a_line_is_read_when_it_is_a_name_and_a_token line name value
    (Hline : all_chars (fun c => negb (Ascii.eqb c newline)) line = true) :
  match_assignment line = Some (name, value)
  <-> line = name +:+ "=" +:+ value
      /\ is_name name = true /\ is_token value = true.
Proof.
  split.
  - intros H. destruct (match_assignment_groups line name value H)
      as (Hn & Ht & rest & -> & ->).
    assert (Hrest : all_chars (fun c => negb (Ascii.eqb c newline)) rest = true).
    { apply no_newline_app in Hline. apply (no_newline_app "=" rest) in Hline.
      exact Hline. }
    rewrite (chomp_no_newline rest Hrest) in *. auto.
  - intros (-> & Hn & Ht). apply match_assignment_token; assumption.
Qed.

Lemma parse_line_well_read env line : well_read env -> well_read (parse_line env line).
Proof.
  intros [Hpwd Hall]. unfold parse_line.
  destruct (match_assignment _) as [[name value]|] eqn:E; [|split; assumption].
  destruct (String.eqb name "PWD") eqn:Hname; [split; assumption|].
  apply String.eqb_neq in Hname.
  apply match_assignment_groups in E. destruct E as (Hn & Ht & _).
  split.
  - rewrite lookup_insert_ne by exact Hname. exact Hpwd.
  - intros name' value'. destruct (decide (name = name')) as [<-|Hne].
    + rewrite lookup_insert_eq. intros [= <-]. auto.
    + rewrite lookup_insert_ne by exact Hne. apply Hall.
Qed.

(** X15.  What [environment] returns: it raises exactly when the return
    code of the shell is not 0; otherwise the dictionary has no key
    ['PWD'], its keys are non-empty names of word characters and its
    values hold no whitespace. *)
Theorem environment_holds_names_and_tokens returncode stdout :
  match environment returncode stdout with
  | Returns env =>
      returncode = 0%Z
      /\ env !! "PWD" = None
      /\ forall name value,
           env !! name = Some value ->
           is_name name = true /\ is_token value = true
  | Raises => returncode <> 0%Z
  end.
Proof.
  unfold environment. destruct (Z.eqb_spec returncode 0) as [->|Hne];
    [|exact Hne].
  cbn [negb]. split; [reflexivity|].
  assert (H : well_read (fold_left parse_line (split_lines stdout) ∅)).
  { generalize (split_lines stdout). intros lines.
    assert (H0 : well_read (∅ : gmap string string)).
    { split; [apply lookup_empty|]. intros name value.
      rewrite lookup_empty. discriminate. }
    revert H0. generalize (∅ : gmap string string).
    induction lines as [|line lines IH]; intros env Henv; [exact Henv|].
    simpl. apply IH, parse_line_well_read, Henv. }
  exact H.
Qed.

(** ** Reading back what printenv prints *)

Lemma string_append_assoc (s1 s2 s3 : string) : (s1 +:+ s2) +:+ s3 = s1 +:+ (s2 +:+ s3).
Proof.
  induction s1 as [|c s1 IH]; [reflexivity|].
  change (String c ((s1 +:+ s2) +:+ s3) = String c (s1 +:+ (s2 +:+ s3))).
  rewrite IH. reflexivity.
Qed.

Lemma split_lines_line line rest :
  all_chars (fun c => negb (Ascii.eqb c newline)) line = true ->
  split_lines (line +:+ String newline rest) = line :: split_lines rest.
Proof.
  induction line as [|c line IH]; intros H.
  - reflexivity.
  - simpl in H. apply andb_prop in H. destruct H as [Hc Hl].
    apply negb_true_iff in Hc. simpl. rewrite Hc, (IH Hl). reflexivity.
Qed.

Lemma name_no_newline s :
  all_chars is_word s = true ->
  all_chars (fun c => negb (Ascii.eqb c newline)) s = true.
Proof.
  induction s as [|c s IH]; [reflexivity|]. simpl. intros H.
  apply andb_prop in H. destruct H as [Hc Hs]. rewrite (IH Hs), andb_true_r.
  apply negb_true_iff. destruct (Ascii.eqb c newline) eqn:E; [|reflexivity].
  apply Ascii.eqb_eq in E. subst c. discriminate Hc.
Qed.

Lemma split_lines_printenv vars :
  Forall (fun nv => is_name (fst nv) = true /\ is_token (snd nv) = true) vars ->
  split_lines (printenv vars) = map printed vars ++ [EmptyString].
Proof.
  induction 1 as [|[name value] vars [Hn Ht] _ IH]; [reflexivity|].
  cbn [printenv fold_right fst snd] in *. fold (printenv vars).
  replace (name +:+ "=" +:+ value +:+ String newline (printenv vars))
    with ((name +:+ "=" +:+ value) +:+ String newline (printenv vars))
    by (rewrite !string_append_assoc; reflexivity).
  rewrite split_lines_line, IH; [reflexivity|].
  unfold is_name in Hn. apply andb_prop in Hn. destruct Hn as [_ Hw].
  rewrite !all_chars_app, (name_no_newline _ Hw), (token_no_newline _ Ht).
  reflexivity.
Qed.

(** [s.replace(c, empty)] for a single character. *)
Lemma remove_char_cons q c s :
  remove_all (String q EmptyString) (String c s)
  = if Ascii.eqb q c then remove_all (String q EmptyString) s
    else String c (remove_all (String q EmptyString) s).
Proof.
  unfold remove_all. simpl. destruct (ascii_dec q c) as [->|Hne].
  - rewrite Ascii.eqb_refl. destruct s; reflexivity.
  - apply Ascii.eqb_neq in Hne. rewrite Hne. reflexivity.
Qed.

Lemma remove_char_app q s1 s2 :
  remove_all (String q EmptyString) (s1 +:+ s2)
  = remove_all (String q EmptyString) s1 +:+ remove_all (String q EmptyString) s2.
Proof.
  induction s1 as [|c s1 IH]; [reflexivity|].
  change (String c s1 +:+ s2) with (String c (s1 +:+ s2)).
  rewrite !remove_char_cons, IH.
  destruct (Ascii.eqb q c); reflexivity.
Qed.

Lemma remove_char_absent q s :
  all_chars (fun c => negb (Ascii.eqb q c)) s = true ->
  remove_all (String q EmptyString) s = s.
Proof.
  induction s as [|c s IH]; [reflexivity|]. simpl. intros H.
  apply andb_prop in H. destruct H as [Hc Hs]. apply negb_true_iff in Hc.
  rewrite remove_char_cons, Hc, (IH Hs). reflexivity.
Qed.

Lemma remove_char_token q s :
  is_token s = true -> is_token (remove_all (String q EmptyString) s) = true.
Proof.
  unfold is_token. induction s as [|c s IH]; [reflexivity|]. simpl. intros H.
  apply andb_prop in H. destruct H as [Hc Hs]. rewrite remove_char_cons.
  destruct (Ascii.eqb q c); [apply IH, Hs|]. simpl. rewrite Hc, (IH Hs).
  reflexivity.
Qed.

Lemma prefix_has_chars P p s :
  String.prefix p s = true -> all_chars P s = true -> all_chars P p = true.
Proof.
  revert p. induction s as [|c s IH]; intros [|a p]; simpl; try reflexivity;
    try discriminate.
  destruct (ascii_dec a c) as [->|]; [|discriminate].
  intros Hp H. apply andb_prop in H. destruct H as [Hc Hs].
  rewrite Hc, (IH p Hp Hs). reflexivity.
Qed.

(** A string without whitespace holds no occurrence of ["export "]. *)
Lemma remove_export_token s :
  is_token s = true -> remove_all "export " s = s.
Proof.
  unfold remove_all, is_token. induction s as [|c s IH]; [reflexivity|].
  intros H. cbn [remove_from].
  destruct (String.prefix "export " (String c s)) eqn:E.
  - pose proof (prefix_has_chars _ _ _ E H) as Habs. discriminate Habs.
  - simpl in H. apply andb_prop in H. destruct H as [_ Hs].
    rewrite (IH Hs). reflexivity.
Qed.

Lemma word_is_token s : all_chars is_word s = true -> is_token s = true.
Proof.
  unfold is_token. induction s as [|c s IH]; [reflexivity|]. simpl. intros H.
  apply andb_prop in H. destruct H as [Hc Hs].
  rewrite (word_is_not_space c Hc), (IH Hs). reflexivity.
Qed.

Lemma word_has_no_quote s :
  all_chars is_word s = true ->
  all_chars (fun c => negb (Ascii.eqb "'" c)) s = true.
Proof.
  induction s as [|c s IH]; [reflexivity|]. cbn [all_chars]. intros H.
  apply andb_prop in H. destruct H as [Hc Hs]. rewrite (IH Hs), andb_true_r.
  apply negb_true_iff. destruct (Ascii.eqb "'" c) eqn:E; [|reflexivity].
  apply Ascii.eqb_eq in E. subst c. discriminate Hc.
Qed.

Lemma printed_token name value :
  is_name name = true -> is_token value = true ->
  is_token (name +:+ "=" +:+ value) = true.
Proof.
  unfold is_name. intros Hn Ht. apply andb_prop in Hn. destruct Hn as [_ Hw].
  pose proof (word_is_token _ Hw) as Hnt.
  unfold is_token in *. rewrite !all_chars_app, Hnt, Ht. reflexivity.
Qed.

Lemma parse_line_printed env name value :
  is_name name = true -> is_token value = true ->
  parse_line env (name +:+ "=" +:+ value)
  = if String.eqb name "PWD" then env
    else <[name := read_back name value]> env.
Proof.
  intros Hn Ht. unfold parse_line, read_back.
  destruct (String.prefix "export" (name +:+ "=" +:+ value)).
  - rewrite (remove_export_token _ (printed_token name value Hn Ht)).
    rewrite !remove_char_app.
    assert (Hw : all_chars is_word name = true).
    { unfold is_name in Hn. apply andb_prop in Hn. apply Hn. }
    rewrite (remove_char_absent "'" name (word_has_no_quote name Hw)).
    change (remove_all "'" "=") with "=".
    rewrite (match_assignment_token name _ Hn (remove_char_token "'" value Ht)).
    reflexivity.
  - rewrite (match_assignment_token name value Hn Ht). reflexivity.
Qed.

(** X16.  [environment] reads back what [printenv] prints.  For
    variables with well-formed names and values without whitespace, the
    result is the dictionary of these variables, the last line winning for
    a name printed twice, without ['PWD'], a variable whose line starts
    with [export] having lost the single quotes of its value. *)
Theorem environment_reads_back_what_printenv_prints vars
    (Hvars : Forall (fun nv => is_name (fst nv) = true /\ is_token (snd nv) = true)
               vars) :
  environment 0 (printenv vars)
  = Returns
      (fold_left
         (fun env nv =>
            if String.eqb (fst nv) "PWD" then env
            else <[fst nv := read_back (fst nv) (snd nv)]> env)
         vars ∅).
Proof.
  unfold environment. cbn [Z.eqb negb]. f_equal.
  rewrite (split_lines_printenv vars Hvars), fold_left_app.
  cbn [fold_left]. generalize (∅ : gmap string string).
  induction Hvars as [|[name value] vars [Hn Ht] _ IH]; intros env.
  - reflexivity.
  - cbn [map fold_left]. cbn [fst snd] in Hn, Ht |- *.
    change (printed (name, value)) with (name +:+ "=" +:+ value).
    rewrite (parse_line_printed env name value Hn Ht). apply IH.
Qed.

Lemma string_prefix_app p rest : String.prefix p (p +:+ rest) = true.
Proof.
  induction p as [|a p IH]; [destruct rest; reflexivity|].
  change (String a p +:+ rest) with (String a (p +:+ rest)). cbn [String.prefix].
  destruct (ascii_dec a a) as [_|Hne]; [exact IH | congruence].
Qed.

Lemma remove_from_skip old s1 s2 :
  remove_from old (String.length s1) (s1 +:+ s2) = remove_from old 0 s2.
Proof.
  induction s1 as [|c s1 IH]; [reflexivity|].
  change (String c s1 +:+ s2) with (String c (s1 +:+ s2)).
  cbn [remove_from String.length]. exact IH.
Qed.

(** An occurrence at the start of the string is removed. *)
Lemma remove_all_prefix a old rest :
  remove_all (String a old) (String a old +:+ rest) = remove_all (String a old) rest.
Proof.
  unfold remove_all.
  change (String a old +:+ rest) with (String a (old +:+ rest)).
  cbn [remove_from].
  change (String a (old +:+ rest)) with (String a old +:+ rest).
  rewrite string_prefix_app.
  replace (String.length (String a old) - 1) with (String.length old)
    by (cbn [String.length]; lia).
  apply remove_from_skip.
Qed.

Lemma remove_export_prefix rest :
  remove_all "export " ("export " +:+ rest) = remove_all "export " rest.
Proof. apply remove_all_prefix. Qed.

Lemma export_prefix rest : String.prefix "export" ("export " +:+ rest) = true.
Proof. apply (string_prefix_app "export" (" " +:+ rest)). Qed.

(** X17.  A line [export NAME=value] is read as [NAME] with the value
    stripped of its single quotes, and dropped when the name is [PWD]. *)
Theorem an_export_line_is_read_without_its_quotes env name value
    (Hname : is_name name = true)
    (Hvalue : is_token value = true) :
  parse_line env ("export " +:+ name +:+ "=" +:+ value)
  = if String.eqb name "PWD" then env
    else <[name := remove_all "'" value]> env.
Proof.
  unfold parse_line. rewrite export_prefix, remove_export_prefix.
  rewrite (remove_export_token _ (printed_token name value Hname Hvalue)).
  rewrite !remove_char_app.
  assert (Hw : all_chars is_word name = true).
  { unfold is_name in Hname. apply andb_prop in Hname. apply Hname. }
  rewrite (remove_char_absent "'" name (word_has_no_quote name Hw)).
  change (remove_all "'" "=") with "=".
  rewrite (match_assignment_token name _ Hname (remove_char_token "'" value Hvalue)).
  reflexivity.
Qed.

(** ** find_spm *)

Lemma before_spec c s :
  exists junk,
    s = before c s +:+ junk
    /\ all_chars (fun c' => negb (Ascii.eqb c' c)) (before c s) = true
    /\ match junk with
       | EmptyString => True
       | String c' _ => c' = c
       end.
Proof.
  induction s as [|c' s IH]; [exists EmptyString; auto|].
  simpl. destruct (Ascii.eqb c' c) eqn:E.
  - apply Ascii.eqb_eq in E. subst c'. exists (String c s). auto.
  - destruct IH as (junk & Hs & Hb & Hj). exists junk. split.
    + change (String c' (before c s) +:+ junk)
        with (String c' (before c s +:+ junk)).
      rewrite <- Hs. reflexivity.
    + split; [|exact Hj]. cbn [all_chars]. rewrite E, Hb. reflexivity.
Qed.

Lemma before_no_newline c s :
  all_chars (fun c' => negb (Ascii.eqb c' newline)) s = true ->
  all_chars (fun c' => negb (Ascii.eqb c' newline)) (before c s) = true.
Proof.
  induction s as [|c' s IH]; [reflexivity|]. simpl. intros H.
  apply andb_prop in H. destruct H as [Hc Hs].
  destruct (Ascii.eqb c' c); [reflexivity|]. simpl. rewrite Hc, (IH Hs).
  reflexivity.
Qed.

(** The last line of the output: what follows its last newline. *)
Lemma split_lines_last out :
  exists lines line,
    split_lines out = lines ++ [line]
    /\ all_chars (fun c => negb (Ascii.eqb c newline)) line = true
    /\ exists head, out = head +:+ line
       /\ match lines with
          | [] => head = EmptyString
          | _ :: _ => exists h, head = h +:+ String newline EmptyString
          end.
Proof.
  induction out as [|c out IH].
  - exists [], EmptyString. split; [reflexivity|]. split; [reflexivity|].
    exists EmptyString. auto.
  - destruct IH as (lines & line & E & Hl & head & Hout & Hhead).
    cbn [split_lines]. destruct (Ascii.eqb c newline) eqn:Hc.
    + apply Ascii.eqb_eq in Hc. subst c.
      exists (EmptyString :: lines), line. rewrite E.
      split; [reflexivity|]. split; [exact Hl|].
      exists (String newline head). split; [rewrite Hout; reflexivity|].
      destruct lines as [|l lines].
      * subst head. exists EmptyString. reflexivity.
      * destruct Hhead as (h & ->). exists (String newline h). reflexivity.
    + rewrite E. destruct lines as [|l lines].
      * exists [], (String c line). split; [reflexivity|]. split.
        { simpl. rewrite Hc, Hl. reflexivity. }
        exists EmptyString. subst head. rewrite Hout. auto.
      * exists (String c l :: lines), line. split; [reflexivity|].
        split; [exact Hl|]. destruct Hhead as (h & ->).
        exists (String c (h +:+ String newline EmptyString)).
        split; [rewrite Hout; reflexivity|]. exists (String c h). reflexivity.
Qed.

Lemma find_spm_found stdout dir :
  find_spm (Some stdout) = Returns dir ->
  dir <> EmptyString
  /\ all_chars (fun c => negb (Ascii.eqb c newline)) dir = true
  /\ all_chars (fun c => negb (Ascii.eqb c escape)) dir = true
  /\ exists head junk,
       stdout = head +:+ dir +:+ junk
       /\ (head = EmptyString \/ exists h, head = h +:+ String newline EmptyString)
       /\ all_chars (fun c => negb (Ascii.eqb c newline)) junk = true
       /\ match junk with
          | EmptyString => True
          | String c _ => c = escape
          end.
Proof.
  intros Hfound. unfold find_spm in Hfound.
  destruct (split_lines_last stdout)
    as (lines & line & E & Hl & head & Hout & Hhead).
  cbv zeta in Hfound. rewrite E, last_snoc in Hfound.
  change (default EmptyString (Some line)) with line in Hfound.
  destruct (String.eqb (before escape line) "") eqn:Hne; [discriminate|].
  apply String.eqb_neq in Hne.
  injection Hfound as <-. split; [exact Hne|].
  split; [apply before_no_newline; exact Hl|].
  destruct (before_spec escape line) as (junk & Hline & Hb & Hj).
  split; [exact Hb|]. exists head, junk.
  split; [rewrite Hout, Hline at 1; reflexivity|]. split.
  { destruct lines; [left; exact Hhead | right; exact Hhead]. }
  split; [|exact Hj].
  rewrite Hline in Hl. apply no_newline_app in Hl. exact Hl.
Qed.


Lemma split_lines_no_newline line :
  all_chars (fun c => negb (Ascii.eqb c newline)) line = true ->
  split_lines line = [line].
Proof.
  induction line as [|c line IH]; [reflexivity|]. cbn [all_chars split_lines].
  intros H. apply andb_prop in H. destruct H as [Hc Hl].
  apply negb_true_iff in Hc. rewrite Hc, (IH Hl). reflexivity.
Qed.

Lemma split_lines_nonempty s : split_lines s <> [].
Proof.
  destruct s as [|c s]; [discriminate|]. cbn [split_lines].
  destruct (Ascii.eqb c newline); [discriminate|].
  destruct (split_lines s); discriminate.
Qed.

Lemma split_lines_app h rest :
  split_lines (h +:+ String newline rest) = split_lines h ++ split_lines rest.
Proof.
  induction h as [|c h IH]; [reflexivity|].
  change (String c h +:+ String newline rest)
    with (String c (h +:+ String newline rest)).
  cbn [split_lines]. rewrite IH. destruct (Ascii.eqb c newline); [reflexivity|].
  destruct (split_lines h) as [|l ls] eqn:E; [|reflexivity].
  exfalso. exact (split_lines_nonempty _ E).
Qed.

Lemma before_app c s junk :
  all_chars (fun c' => negb (Ascii.eqb c' c)) s = true ->
  match junk with
  | EmptyString => True
  | String c' _ => c' = c
  end ->
  before c (s +:+ junk) = s.
Proof.
  intros Hs Hj. induction s as [|c' s IH].
  - destruct junk as [|c' junk]; [reflexivity|]. subst c'.
    change (EmptyString +:+ String c junk) with (String c junk).
    cbn [before]. rewrite Ascii.eqb_refl. reflexivity.
  - cbn [all_chars] in Hs. apply andb_prop in Hs. destruct Hs as [Hc Hs].
    apply negb_true_iff in Hc.
    change (String c' s +:+ junk) with (String c' (s +:+ junk)).
    cbn [before]. rewrite Hc, (IH Hs). reflexivity.
Qed.

(** X18.  [find_spm] returns [dir] exactly when the output of MATLAB is
    made of complete lines followed by [dir] and possibly by an escape
    character and more, [dir] being non-empty and free of newlines and
    escapes.  So an output that ends with a newline, or whose last line
    starts with an escape, raises. *)
Theorem find_spm_returns_the_last_line_up_to_an_escape stdout dir :
  find_spm (Some stdout) = Returns dir
  <-> dir <> EmptyString
      /\ all_chars (fun c => negb (Ascii.eqb c newline)) dir = true
      /\ all_chars (fun c => negb (Ascii.eqb c escape)) dir = true
      /\ exists head junk,
           stdout = head +:+ dir +:+ junk
           /\ (head = EmptyString
               \/ exists h, head = h +:+ String newline EmptyString)
           /\ all_chars (fun c => negb (Ascii.eqb c newline)) junk = true
           /\ match junk with
              | EmptyString => True
              | String c _ => c = escape
              end.
Proof.
  split; [apply find_spm_found|].
  intros (Hne & Hn & He & head & junk & -> & Hhead & Hjn & Hj).
  assert (Hline : all_chars (fun c => negb (Ascii.eqb c newline)) (dir +:+ junk)
                  = true).
  { rewrite all_chars_app, Hn, Hjn. reflexivity. }
  assert (Hlast : last (split_lines (head +:+ dir +:+ junk)) = Some (dir +:+ junk)).
  { destruct Hhead as [->|(h & ->)].
    - change (EmptyString +:+ dir +:+ junk) with (dir +:+ junk).
      rewrite (split_lines_no_newline _ Hline). reflexivity.
    - rewrite string_append_assoc.
      change (String newline EmptyString +:+ dir +:+ junk)
        with (String newline (dir +:+ junk)).
      rewrite split_lines_app, (split_lines_no_newline _ Hline).
      apply last_snoc. }
  unfold find_spm. cbv zeta. rewrite Hlast.
  change (default EmptyString (Some (dir +:+ junk))) with (dir +:+ junk).
  rewrite (before_app escape dir junk He Hj).
  apply String.eqb_neq in Hne. rewrite Hne. reflexivity.
Qed.

(** ** Process.__call__ *)


Lemma set_keywords_declared c kwargs :
  Forall (fun kv => fst kv ∈ user_trait_names c) kwargs ->
  set_keywords c kwargs = (assign_all c kwargs, Done tt).
Proof.
  revert c. induction kwargs as [|[k v] kwargs IH]; intros c H; [reflexivity|].
  apply Forall_cons in H. destruct H as [Hk Hrest]. cbn [set_keywords].
  rewrite decide_True by exact Hk. rewrite IH; [reflexivity|].
  eapply Forall_impl; [exact Hrest|]. intros kv Hkv.
  unfold user_trait_names in *. simpl. rewrite assign_field_names. exact Hkv.
Qed.

Lemma set_keywords_app c before rest :
  Forall (fun kv => fst kv ∈ user_trait_names c) before ->
  set_keywords c (before ++ rest) = set_keywords (assign_all c before) rest.
Proof.
  revert c. induction before as [|[k v] before IH]; intros c H; [reflexivity|].
  apply Forall_cons in H. destruct H as [Hk Hrest].
  cbn [app set_keywords]. rewrite decide_True by exact Hk. apply IH.
  eapply Forall_impl; [exact Hrest|]. intros kv Hkv.
  unfold user_trait_names in *. simpl. rewrite assign_field_names. exact Hkv.
Qed.

(** X19.  A keyword that is not a user trait does not raise the
    [TypeError] that the docstring of [__call__] announces: building its
    message fails first, with an [AttributeError] ([str] has no attribute
    [foramt]).  The keywords that come before it in the iteration are
    already assigned when this happens, and the process is not run. *)
Theorem an_undeclared_keyword_raises_attribute_error ctx cls c before name v after
    (Hbefore : Forall (fun kv => fst kv ∈ user_trait_names c) before)
    (Hundeclared : name ∉ user_trait_names c) :
  __call__ ctx cls c (before ++ (name, v) :: after)
  = (assign_all c before, Raise AttributeError).
Proof.
  unfold __call__. rewrite (set_keywords_app c before _ Hbefore).
  cbn [set_keywords]. rewrite decide_False; [reflexivity|].
  rewrite assign_all_names. exact Hundeclared.
Qed.

(** X20.  Keywords that are all user traits are assigned in order
    before the run: a call with keywords is a call without them on the
    instance so updated.  For a class that redefines neither
    [_run_process] nor [get_commandline] that call raises
    [NotImplementedError], the parameters staying assigned. *)
Theorem declared_keywords_are_set_before_the_run ctx cls c kwargs
    (Hdeclared : Forall (fun kv => fst kv ∈ user_trait_names c) kwargs) :
  __call__ ctx cls c kwargs = __call__ ctx cls (assign_all c kwargs) []
  /\ (run_process cls = None -> get_commandline cls = None ->
      __call__ ctx cls c kwargs = (assign_all c kwargs, Raise NotImplementedError)).
Proof.
  unfold __call__. rewrite (set_keywords_declared c kwargs Hdeclared).
  cbn [set_keywords]. split; [reflexivity|].
  intros Hr Hc. unfold _run_process. rewrite Hr, Hc. reflexivity.
Qed.

(** * The further properties on the sample configurations *)

Import Study.

(** The attribute class of ["broken"] raises: the first call raises and the
    second returns an empty set. *)
Lemma failed_build_leaves_an_empty_attribute_set_witness :
  exists st1 c0,
    get_attribute_values [] broken 0 broken_store = (st1, [], Raised)
    /\ c_fields c0 = []
    /\ get_attribute_values [] broken 0 st1 = (st1, [], Ok c0).
Proof.
  apply (failed_build_leaves_an_empty_attribute_set [] broken 0 broken_store).
  - vm_compute. reflexivity.
  - unfold allocated. simpl. lia.
  - vm_compute. reflexivity.
Defined.

(** The pipeline has a child whose set cannot be built, and its own set
    is built all the same. *)
Lemma get_attribute_values_returns_iff_buildable_witness :
  (exists st1 a, get_attribute_values [] pipe 0 pipe_store = (st1, [], Ok a))
  <-> buildable pipe = true.
Proof.
  apply (get_attribute_values_returns_iff_buildable [] pipe 0 pipe_store).
  - vm_compute. reflexivity.
  - unfold allocated. simpl. lia.
Defined.

Lemma own_attribute_class_replaces_the_merge_witness :
  exists st1 c,
    get_attribute_values [] pipe 0 pipe_store = (st1, [], Ok c)
    /\ c_fields c = [("subject", Field Str (VStr "s0"))]
    /\ c_observed c = false
    /\ only_attributes_changed 0 pipe_store st1.
Proof.
  apply (own_attribute_class_replaces_the_merge [] pipe 0 pipe_store
           [("subject", Field Str (VStr "s0"))]).
  - vm_compute. reflexivity.
  - unfold allocated. simpl. lia.
  - reflexivity.
  - vm_compute. reflexivity.
Defined.

Lemma complete_parameters_needs_bounded_fuel_witness :
  (complete_parameters [] always 4 pipe 0 subject_s1 pipe_store).2 <> OutOfFuel
  /\ complete_parameters [] always 9 pipe 0 subject_s1 pipe_store
     = complete_parameters [] always 4 pipe 0 subject_s1 pipe_store.
Proof.
  apply (complete_parameters_needs_bounded_fuel [] always 4 9 pipe 0 subject_s1
           pipe_store); simpl; lia.
Defined.

Lemma a_set_guard_silences_its_engine_witness :
  let run := complete_parameters [] always 3 broken 0 subject_s1 stuck_store in
  guard run.1.1 0 = true /\ count_notified 0 run.1.2 = 0.
Proof.
  cbv zeta.
  destruct (a_set_guard_silences_its_engine [] always 3 broken 0 subject_s1 0
              stuck_store ltac:(vm_compute; reflexivity)) as (H1 & H2 & _).
  split; assumption.
Defined.

Lemma set_parameters_imports_the_declared_attributes_witness :
  let run := set_parameters [] always 0 flow 0 flow_inputs flow_store in
  run.2 = Ok tt
  /\ attributes_of run.1.1 0
     = Some (Controller 1 [("subject", Field Str (VStr "s1"))] false)
  /\ parameters_of run.1.1 (p_id (info_of flow))
     = Controller 0 [("report", Field File (VStr "/tmp/report"))] false.
Proof.
  cbv zeta.
  destruct (set_parameters_imports_the_declared_attributes [] always 0 flow 0
              flow_store flow_attributes
              [("subject", VStr "s1"); ("unknown", VInt 1)] flow_inputs
              ltac:(vm_compute; reflexivity) ltac:(reflexivity)
              ltac:(left; reflexivity))
    as (H1 & _ & H3 & _ & _ & _ & _ & H8 & _).
  split; [exact H1|]. split.
  - rewrite H3. vm_compute. reflexivity.
  - rewrite H8. vm_compute. reflexivity.
Defined.

(** A string where the dictionary of attributes is expected. *)
Lemma set_parameters_wants_a_dictionary_of_attributes_witness :
  set_parameters [] always 0 flow 0
    [("capsul_attributes", VStr "s1"); ("report", VStr "/tmp/report")] flow_store
  = (flow_store, [], Raised).
Proof.
  apply (set_parameters_wants_a_dictionary_of_attributes [] always 0 flow 0
           flow_store flow_attributes (VStr "s1")
           [("capsul_attributes", VStr "s1"); ("report", VStr "/tmp/report")]
           ltac:(vm_compute; reflexivity) ltac:(reflexivity)
           ltac:(intros attrs H; discriminate H)).
  reflexivity.
Defined.

Lemma last_phase_assigns_the_resolved_paths_witness :
  let run := complete_own_parameters [] segment 1 flow_store in
  run.2 = Ok tt
  /\ trait (parameters_of run.1.1 (p_id (info_of segment))) "output"
     = Some (Field File (VStr "/data/s0/segment_output")).
Proof.
  cbv zeta.
  destruct (last_phase_assigns_the_resolved_paths [] segment 1 segment_attributes
              flow_store ltac:(vm_compute; reflexivity))
    as (H1 & _ & _ & _ & _ & H6).
  split; [exact H1|].
  rewrite (H6 "output" (Field File VUndefined) ltac:(vm_compute; reflexivity)).
  vm_compute. reflexivity.
Defined.

(** The value given for [output] is overwritten by the completed path. *)
Lemma a_pass_on_a_process_completes_its_parameters_witness :
  exists st',
    complete_parameters [] always 1 segment 1
      [("capsul_attributes", VDict [("subject", VStr "s1")]);
       ("output", VStr "/tmp/given")] flow_store = (st', [], Ok tt)
    /\ trait (parameters_of st' 21) "output"
       = Some (Field File (VStr "/data/s1/segment_output")).
Proof.
  destruct (a_pass_on_a_process_completes_its_parameters [] always 0
              (ProcInfo 21 "segment" None) config 1 flow_store segment_attributes
              [("subject", VStr "s1")]
              [("capsul_attributes", VDict [("subject", VStr "s1")]);
               ("output", VStr "/tmp/given")]
              ltac:(vm_compute; reflexivity) ltac:(reflexivity)
              ltac:(left; reflexivity))
    as (st' & E & _ & _ & Hp & _).
  exists st'. split; [exact E|].
  change (p_id (ProcInfo 21 "segment" None)) with 21 in Hp.
  rewrite (Hp "output" (Field File VUndefined) ltac:(vm_compute; reflexivity)).
  vm_compute. reflexivity.
Defined.

Lemma flow_children_ready :
  Forall (ready flow_store 0 (p_id flow_info)) (children flow).
Proof.
  repeat constructor; try discriminate.
  - exists 1, segment_attributes. repeat split; try (vm_compute; reflexivity).
    discriminate.
  - exists 2, smooth_attributes. repeat split; try (vm_compute; reflexivity).
    discriminate.
Qed.

Lemma flow_children_apart : apart flow_store (children flow).
Proof.
  split; [refine (bool_decide_unpack (NoDup _) _) | refine (bool_decide_unpack (NoDup _) _)];
    vm_compute; reflexivity.
Qed.

Lemma attributes_flow_down_to_the_children_witness :
  exists st' l,
    complete_parameters [] always 2 flow 0 flow_inputs flow_store = (st', l, Ok tt)
    /\ attributes_of st' 1
       = Some (Controller 2 [("subject", Field Str (VStr "s1"));
                             ("session", Field Str (VStr "a"))] false)
    /\ trait (parameters_of st' (p_id (info_of segment))) "output"
       = Some (Field File (VStr "/data/s1/segment_output"))
    /\ trait (parameters_of st' (p_id flow_info)) "report"
       = Some (Field File (VStr "/data/s1/flow_report")).
Proof.
  destruct (attributes_flow_down_to_the_children [] always 0 flow_info config
              flow_nodes flow_graph 0 flow_store flow_attributes
              [("subject", VStr "s1"); ("unknown", VInt 1)] flow_inputs
              ltac:(vm_compute; reflexivity) ltac:(reflexivity)
              ltac:(left; reflexivity)
              flow_children_ready flow_children_apart)
    as (st' & l & E & _ & _ & Hchildren & Hown).
  exists st', l. split; [exact E|].
  destruct (Hchildren segment 1 segment_attributes ltac:(left)
              ltac:(vm_compute; reflexivity) ltac:(vm_compute; reflexivity))
    as [Ha Ht].
  split; [rewrite Ha; vm_compute; reflexivity|]. split.
  - rewrite (Ht "output" (Field File VUndefined) ltac:(vm_compute; reflexivity)).
    vm_compute. reflexivity.
  - rewrite (Hown "report" (Field File VUndefined) ltac:(vm_compute; reflexivity)).
    vm_compute. reflexivity.
Defined.

Lemma a_line_is_read_when_it_is_a_name_and_a_token_witness :
  match_assignment "FSLDIR=/usr/share/fsl" = Some ("FSLDIR", "/usr/share/fsl").
Proof.
  apply (proj2 (a_line_is_read_when_it_is_a_name_and_a_token
                  "FSLDIR=/usr/share/fsl" "FSLDIR" "/usr/share/fsl"
                  ltac:(vm_compute; reflexivity))).
  repeat split; vm_compute; reflexivity.
Defined.

(** The second line for [FSLDIR] wins and [PWD] is left out. *)
Lemma environment_reads_back_what_printenv_prints_witness :
  exists env,
    environment 0
      (printenv [("FSLDIR", "/usr/share/fsl"); ("PWD", "/home");
                 ("FSLDIR", "/opt/fsl")]) = Returns env
    /\ env !! "FSLDIR" = Some "/opt/fsl"
    /\ env !! "PWD" = None.
Proof.
  eexists. split.
  - apply (environment_reads_back_what_printenv_prints
             [("FSLDIR", "/usr/share/fsl"); ("PWD", "/home");
              ("FSLDIR", "/opt/fsl")]).
    repeat constructor.
  - split; vm_compute; reflexivity.
Defined.

Lemma an_export_line_is_read_without_its_quotes_witness :
  parse_line ∅ ("export " +:+ "FSLDIR" +:+ "=" +:+ "'/usr/share/fsl'")
  = <["FSLDIR" := "/usr/share/fsl"]> ∅.
Proof.
  rewrite (an_export_line_is_read_without_its_quotes ∅ "FSLDIR" "'/usr/share/fsl'"
             ltac:(vm_compute; reflexivity) ltac:(vm_compute; reflexivity)).
  vm_compute. reflexivity.
Defined.

(** A misspelt keyword after a good one. *)
Lemma an_undeclared_keyword_raises_attribute_error_witness :
  __call__ context plain_class threshold
    ([("threshold", VInt 5)] ++ ("treshold", VInt 7) :: [("image", VStr "/tmp/a.nii")])
  = (assign_all threshold [("threshold", VInt 5)], Raise AttributeError).
Proof.
  apply (an_undeclared_keyword_raises_attribute_error context plain_class threshold
           [("threshold", VInt 5)] "treshold" (VInt 7)
           [("image", VStr "/tmp/a.nii")]).
  - repeat constructor.
  - intros H. apply list_elem_of_In in H. simpl in H.
    destruct H as [H|[H|[]]]; discriminate H.
Defined.

Lemma declared_keywords_are_set_before_the_run_witness :
  __call__ context plain_class threshold [("threshold", VInt 5)]
  = (assign_all threshold [("threshold", VInt 5)], Raise NotImplementedError).
Proof.
  apply (proj2 (declared_keywords_are_set_before_the_run context plain_class
                  threshold [("threshold", VInt 5)] ltac:(repeat constructor)));
    reflexivity.
Defined.

(** * Completion engines from a registered factory *)

(** ** Computations that do the same *)

Lemma bind_cong {A B} (m m' : M A) (k k' : A -> M B) st :
  (forall s, m s = m' s) -> (forall a s, k a s = k' a s) ->
  bind m k st = bind m' k' st.
Proof.
  intros Hm Hk. unfold bind. rewrite Hm.
  destruct (m' st) as [[s1 l1] [a| |]]; try reflexivity.
  rewrite Hk. reflexivity.
Qed.

Lemma try_except_cong {A} (m m' h h' : M A) st :
  (forall s, m s = m' s) -> (forall s, h s = h' s) ->
  try_except m h st = try_except m' h' st.
Proof.
  intros Hm Hh. unfold try_except. rewrite Hm.
  destruct (m' st) as [[s1 l1] [a| |]]; try reflexivity.
  rewrite Hh. reflexivity.
Qed.

Lemma recorded_cong h t e i (m m' : M unit) st :
  (forall s, m s = m' s) -> recorded h t e i m st = recorded h t e i m' st.
Proof. intros Hm. unfold recorded. rewrite Hm. reflexivity. Qed.

Lemma for_each_cong {A} (l : list A) (body body' : A -> M unit) st :
  (forall a s, a ∈ l -> body a s = body' a s) ->
  for_each l body st = for_each l body' st.
Proof.
  revert st. induction l as [|a l IH]; intros st H; [reflexivity|].
  rewrite for_each_cons, (for_each_cons a l). apply bind_cong.
  - intros s. apply H. left.
  - intros _ s. apply IH. intros b s' Hb. apply H. right. assumption.
Qed.

Ltac same_step :=
  match goal with
  | |- ?x = ?x => reflexivity
  | |- bind _ _ _ = bind _ _ _ => apply bind_cong; [intros ?|intros ? ?]
  | |- try_except _ _ _ = try_except _ _ _ => apply try_except_cong; intros ?
  | |- recorded _ _ _ _ _ _ = recorded _ _ _ _ _ _ => apply recorded_cong; intros ?
  | |- for_each _ _ _ = for_each _ _ _ => apply for_each_cong; intros ? ? ?
  | |- (match ?x with _ => _ end) _ = (match ?x with _ => _ end) _ => destruct x
  | |- (if ?x then _ else _) _ = (if ?x then _ else _) _ => destruct x
  end.

(** ** The engine of a process *)

Section Engines.

Variable process_completion : study_config -> option completion_factory.

Lemma attach_attached st q e :
  attached st q e ->
  set_proc st q (ProcState (p_controller (get_proc st q)) (Some e)) = st.
Proof.
  unfold attached, get_proc, set_proc. intros H.
  destruct (procs st !! q) as [ps|] eqn:E.
  - rewrite (lookup_total_correct _ _ _ E) in *.
    destruct ps as [c ce]. simpl in H. subst ce. simpl.
    rewrite insert_id by exact E. destruct st. reflexivity.
  - rewrite lookup_total_alt, E in H. discriminate H.
Qed.

(** The default factory followed by the assignment to the process. *)
Lemma default_factory_and_attach p name st :
  bind (e <- ProcessCompletionEngineFactory_get_completion_engine p name ;;
        ret (Some e))
       (fun completion_engine =>
          match completion_engine with
          | Some e =>
              modify (fun st =>
                let ps := get_proc st (p_id (info_of p)) in
                set_proc st (p_id (info_of p))
                  (ProcState (p_controller ps) (Some e))) ;;;
              ret (Some e)
          | None => ret None
          end) st
  = bind (get_completion_engine p name) (fun e => ret (Some e)) st.
Proof.
  unfold ProcessCompletionEngineFactory_get_completion_engine,
    get_completion_engine.
  rewrite !bind_assoc, !bind_gets.
  destruct (completion_engine (get_proc st (p_id (info_of p)))) as [e|] eqn:E.
  - unfold bind, ret, modify. cbn [app].
    rewrite attach_attached by exact E. reflexivity.
  - unfold bind, ret, modify, new_engine. reflexivity.
Qed.

Lemma get_completion_engine_registered_raises p name st :
  construction_raises process_completion p name = true ->
  get_completion_engine_registered process_completion p (Some name) st
  = (st, [], Raised).
Proof.
  unfold construction_raises, get_completion_engine_registered. cbv zeta.
  destruct (attributes_config (config_of p)); [|discriminate].
  destruct (process_completion (config_of p)) as [factory|]; [|discriminate].
  destruct (factory (info_of p) (Some name)); try discriminate. reflexivity.
Qed.

Lemma get_completion_engine_registered_returns p name st :
  construction_raises process_completion p name = false ->
  exists st' r,
    get_completion_engine_registered process_completion p (Some name) st
    = (st', [], Ok r).
Proof.
  unfold construction_raises, get_completion_engine_registered. cbv zeta.
  intros H.
  assert (Hdefault : exists st' r,
    bind (e <- ProcessCompletionEngineFactory_get_completion_engine p (Some name) ;;
          ret (Some e))
         (fun completion_engine =>
            match completion_engine with
            | Some e =>
                modify (fun st =>
                  let ps := get_proc st (p_id (info_of p)) in
                  set_proc st (p_id (info_of p))
                    (ProcState (p_controller ps) (Some e))) ;;;
                ret (Some e)
            | None => ret None
            end) st = (st', [], Ok r)).
  { rewrite default_factory_and_attach.
    destruct (get_completion_engine_returns p (Some name) st) as (st' & e & E).
    rewrite (bind_run _ _ _ _ _ _ E). eexists _, _. reflexivity. }
  destruct (attributes_config (config_of p)); [|exact Hdefault].
  destruct (process_completion (config_of p)) as [factory|]; [|exact Hdefault].
  destruct (factory (info_of p) (Some name)); try discriminate.
  - eexists _, _. reflexivity.
  - exact Hdefault.
Qed.

Lemma get_completion_engine_registered_base p name st :
  factories_return_engines process_completion ->
  get_completion_engine_registered process_completion p name st
  = bind (get_completion_engine p name) (fun e => ret (Some e)) st.
Proof.
  intros Hbase. unfold get_completion_engine_registered. cbv zeta.
  destruct (attributes_config (config_of p));
    [|apply default_factory_and_attach].
  destruct (process_completion (config_of p)) as [factory|] eqn:E;
    [|apply default_factory_and_attach].
  rewrite (Hbase _ _ (info_of p) name E). apply default_factory_and_attach.
Qed.

End Engines.

(** ** Factories that return engines *)

Section ReturnedEngines.

Variable process_completion : study_config -> option completion_factory.
Variable PA : list (string * field).
Variable notifies : value -> value -> bool.

Hypothesis Hbase : factories_return_engines process_completion.

Lemma get_attribute_values_registered_unfold p e :
  get_attribute_values_registered process_completion PA p e =
  (t <- gets (fun st => attributes_of st e) ;;
   match t with
   | Some c => ret c
   | None =>
       build_attribute_values_registered process_completion PA
         (get_attribute_values_registered process_completion PA) p e
   end).
Proof. destruct p; reflexivity. Qed.

Lemma child_attribute_values_registered_base values_of values_of' pname c st :
  (forall e s, values_of c e s = values_of' c e s) ->
  child_attribute_values_registered process_completion values_of pname c st
  = child_attribute_values values_of' pname c st.
Proof.
  intros H. unfold child_attribute_values_registered, child_attribute_values.
  rewrite (bind_cong _ _ _ _ st
             (fun s => get_completion_engine_registered_base _ c _ s Hbase)
             (fun a s => eq_refl)).
  rewrite bind_assoc. apply bind_cong; [reflexivity|]. intros ce s.
  rewrite bind_ret. unfold attempt.
  repeat (same_step; try apply H).
Qed.

Lemma get_attribute_values_registered_base p :
  forall e st,
    get_attribute_values_registered process_completion PA p e st
    = get_attribute_values PA p e st.
Proof.
  induction p as [info cfg|info cfg nodes graph IHnodes _]
    using process_nesting_ind; intros e st;
    rewrite get_attribute_values_registered_unfold, get_attribute_values_unfold;
    unfold build_attribute_values_registered, build_attribute_values;
    repeat same_step.
  match goal with Hin : ?nn ∈ nodes |- _ =>
    destruct nn as [node_name [c|]];
    unfold merge_node_registered, merge_node; cbn [fst snd];
    destruct (String.eqb node_name ""); try reflexivity;
    apply bind_cong; [|reflexivity]; intros s';
    apply child_attribute_values_registered_base; intros e' s'';
    eapply IHnodes; exact Hin
  end.
Qed.

Lemma complete_child_registered_base complete complete' name node_name av c st :
  (forall p e i s, complete p e i s = complete' p e i s) ->
  complete_child_registered process_completion complete name node_name av c st
  = complete_child complete' name node_name av c st.
Proof.
  intros H. unfold complete_child_registered, complete_child. cbv zeta.
  rewrite (bind_cong _ _ _ _ st
             (fun s => get_completion_engine_registered_base _ c _ s Hbase)
             (fun a s => eq_refl)).
  rewrite bind_assoc. apply bind_cong; [reflexivity|]. intros ce s.
  rewrite bind_ret.
  repeat (same_step; try apply H).
Qed.

Lemma attributes_import_from_dict_cong complete complete' p e d st :
  (forall p e i s, complete p e i s = complete' p e i s) ->
  attributes_import_from_dict notifies complete p e d st
  = attributes_import_from_dict notifies complete' p e d st.
Proof.
  intros H. unfold attributes_import_from_dict, attributes_setattr,
    attributes_changed_with.
  repeat (same_step; try apply H).
Qed.

Lemma complete_parameters_registered_with_base complete complete' p e inputs st :
  (forall p e i s, complete p e i s = complete' p e i s) ->
  complete_parameters_registered_with process_completion PA notifies complete
    p e inputs st
  = complete_parameters_with PA notifies complete' p e inputs st.
Proof.
  intros H.
  unfold complete_parameters_registered_with, complete_parameters_with,
    set_parameters_registered_with, set_parameters_with,
    complete_children_registered, complete_children,
    complete_own_parameters_registered, complete_own_parameters.
  repeat (same_step;
          try apply get_attribute_values_registered_base;
          try (apply attributes_import_from_dict_cong; exact H);
          try (apply complete_child_registered_base; exact H)).
Qed.

Lemma complete_parameters_registered_base fuel :
  forall p e inputs st,
    complete_parameters_registered process_completion PA notifies fuel
      p e inputs st
    = complete_parameters PA notifies fuel p e inputs st.
Proof.
  induction fuel as [|fuel IH]; intros p e inputs st; [reflexivity|].
  apply complete_parameters_registered_with_base. exact IH.
Qed.

Lemma set_parameters_registered_base fuel p e inputs st :
  set_parameters_registered process_completion PA notifies fuel p e inputs st
  = set_parameters PA notifies fuel p e inputs st.
Proof.
  unfold set_parameters_registered, set_parameters,
    set_parameters_registered_with, set_parameters_with.
  repeat (same_step;
          try apply get_attribute_values_registered_base;
          try (apply attributes_import_from_dict_cong;
               apply complete_parameters_registered_base)).
Qed.

End ReturnedEngines.

(** ** One child of the traversal *)

Section ChildRegistered.

Variable process_completion : study_config -> option completion_factory.
Variable complete : process -> eid -> dict -> M unit.

Lemma try_except_dropped (m : M unit) st : (try_except m (ret tt) st).2 <> Raised.
Proof.
  unfold try_except, ret. destruct (m st) as [[s1 l1] [[]| |]]; simpl; discriminate.
Qed.

Lemma try_except_caught {A} (m h : M A) st :
  (forall s, (h s).2 <> Raised) -> (try_except m h st).2 <> Raised.
Proof.
  intros Hh. unfold try_except. destruct (m st) as [[s1 l1] [a| |]];
    simpl; try discriminate.
  specialize (Hh s1). destruct (h s1) as [[s2 l2] r2]. exact Hh.
Qed.

Lemma bind_outcome {A B} (m : M A) (k : A -> M B) st st1 l1 a :
  m st = (st1, l1, Ok a) -> (bind m k st).2 = (k a st1).2.
Proof.
  intros H. unfold bind. rewrite H. destruct (k a st1) as [[s2 l2] r2].
  reflexivity.
Qed.

(** A child whose engine is not refused never makes the traversal raise,
    whatever its completion does. *)
Lemma complete_child_registered_caught name node_name av c st :
  construction_raises process_completion c (name +:+ "." +:+ node_name) = false ->
  (complete_child_registered process_completion complete name node_name av c st).2
  <> Raised.
Proof.
  intros H. unfold complete_child_registered. cbv zeta.
  destruct (get_completion_engine_registered_returns _ c _ st H)
    as (st1 & r & E).
  rewrite (bind_outcome _ _ _ _ _ _ E).
  apply try_except_caught. intros s. apply try_except_dropped.
Qed.

(** A child whose engine is refused: the exception leaves the traversal at
    once. *)
Lemma complete_child_registered_refused name node_name av c st :
  construction_raises process_completion c (name +:+ "." +:+ node_name) = true ->
  complete_child_registered process_completion complete name node_name av c st
  = (st, [], Raised).
Proof.
  intros H. unfold complete_child_registered. cbv zeta.
  unfold bind at 1. rewrite get_completion_engine_registered_raises by exact H.
  reflexivity.
Qed.

End ChildRegistered.

(** ** A loop that is left by an exception *)

Lemma for_each_raises {A} (pre post : list A) (x : A) (body : A -> M unit) st :
  (forall s, body x s = (s, [], Raised)) ->
  for_each (pre ++ x :: post) body st = (for_each pre body ;;; raise) st.
Proof.
  intros Hx. rewrite for_each_app. apply bind_ext. intros _ s.
  rewrite for_each_cons. unfold bind. rewrite Hx. reflexivity.
Qed.

Lemma bind_not_ok {A} (m : M A) (k : A -> M unit) st :
  (forall a s, (k a s).2 <> Ok tt) -> (bind m k st).2 <> Ok tt.
Proof.
  intros Hk. unfold bind. destruct (m st) as [[s1 l1] [a| |]];
    simpl; try discriminate.
  specialize (Hk a s1). destruct (k a s1) as [[s2 l2] r2]. exact Hk.
Qed.

(** ** What the traversal catches *)

Section CaughtFailures.

Variable process_completion : study_config -> option completion_factory.
Variable PA : list (string * field).
Variable notifies : value -> value -> bool.

(** The traversal of a pipeline one of whose children is refused its
    engine: the steps before that child, then the exception. *)
Lemma complete_children_registered_refused complete info cfg nodes graph e
    pre node_name c post (rest : M unit) st :
  steps graph = pre ++ (node_name, c) :: post ->
  construction_raises process_completion c (p_name info +:+ "." +:+ node_name)
  = true ->
  (complete_children_registered process_completion PA complete
     (Pipeline info cfg nodes graph) e ;;; rest) st
  = ((attributes <- get_attribute_values_registered process_completion PA
                      (Pipeline info cfg nodes graph) e ;;
      for_each pre (fun nc =>
        complete_child_registered process_completion complete (p_name info)
          (fst nc) (export_to_dict attributes) (snd nc))) ;;;
     raise) st.
Proof.
  intros Hsteps Hraises. unfold complete_children_registered.
  rewrite !bind_assoc. apply bind_ext. intros attributes s. cbv zeta.
  transitivity
    (bind (for_each pre (fun nc =>
             complete_child_registered process_completion complete (p_name info)
               (fst nc) (export_to_dict attributes) (snd nc)) ;;;
           (raise : M unit))
          (fun _ => rest) s).
  - apply bind_cong; [|reflexivity]. intros s'.
    rewrite (for_each_steps graph
               (fun node_name c =>
                  complete_child_registered process_completion complete
                    (p_name info) node_name (export_to_dict attributes) c)).
    rewrite Hsteps. apply for_each_raises. intros s''.
    apply complete_child_registered_refused. exact Hraises.
  - rewrite bind_assoc. apply bind_ext. intros _ s'. reflexivity.
Qed.

(** C3, as the code has it.  In the traversal of a pipeline the engine of a
    child is asked for before the [try] block, so the [except] clauses catch
    what the completion of the child raises and nothing else.  A child makes
    the traversal raise exactly when [get_completion_engine] raises on it,
    which a registered factory can do; the exception then leaves the
    traversal at once: the pass is the [set_parameters] step, the steps
    before that child and the exception, so that it never returns, no later
    child is visited and the parameters of the pipeline are not completed.
    When the factories return engines, as the default one does, the pass
    returns once its own [set_parameters] step has: every child gets its
    call, a child whose call raised gets a second call on a new engine, and
    a failure of that one is dropped too. *)
Theorem only_completion_failures_are_caught fuel info cfg nodes graph e inputs st :
  let p := Pipeline info cfg nodes graph in
  let complete :=
    complete_parameters_registered process_completion PA notifies fuel in
  let child :=
    complete_child_registered process_completion complete (p_name info) in
  let run :=
    complete_parameters_registered process_completion PA notifies (S fuel)
      p e inputs st in
  (forall node_name attrib_values c s,
     ((child node_name attrib_values c s).2 = Raised
      <-> construction_raises process_completion c
            (p_name info +:+ "." +:+ node_name) = true)
     /\ (construction_raises process_completion c
           (p_name info +:+ "." +:+ node_name) = true ->
         child node_name attrib_values c s = (s, [], Raised)))
  /\ (forall pre node_name c post,
        steps graph = pre ++ (node_name, c) :: post ->
        construction_raises process_completion c
          (p_name info +:+ "." +:+ node_name) = true ->
        run.2 <> Ok tt
        /\ run
           = (set_parameters_registered process_completion PA notifies fuel
                p e inputs ;;;
              (attributes <- get_attribute_values_registered
                               process_completion PA p e ;;
               for_each pre (fun nc =>
                 child (fst nc) (export_to_dict attributes) (snd nc))) ;;;
              raise) st)
  /\ (factories_return_engines process_completion ->
      2 * height p + 2 <= S fuel ->
      forall st1 l1,
        set_parameters_registered process_completion PA notifies fuel
          p e inputs st = (st1, l1, Ok tt) ->
        run.2 = Ok tt
        /\ map call_target (calls_by Child run.1.2)
           = map (fun c => p_id (info_of c)) (children p)
        /\ map call_target (calls_by Fallback run.1.2)
           = map call_target
               (filter (fun c => raised c = true) (calls_by Child run.1.2))).
Proof.
  cbv zeta. split; [|split].
  - intros node_name attrib_values c s.
    pose proof (complete_child_registered_refused process_completion
                  (complete_parameters_registered process_completion PA
                     notifies fuel)
                  (p_name info) node_name attrib_values c s) as Hrefused.
    split; [|exact Hrefused]. split.
    + intros Hraised.
      destruct (construction_raises process_completion c
                  (p_name info +:+ "." +:+ node_name)) eqn:E; [reflexivity|].
      exfalso. revert Hraised. apply complete_child_registered_caught. exact E.
    + intros H. rewrite (Hrefused H). reflexivity.
  - intros pre node_name c post Hsteps Hraises.
    assert (Hrun :
      complete_parameters_registered process_completion PA notifies (S fuel)
        (Pipeline info cfg nodes graph) e inputs st
      = (set_parameters_registered process_completion PA notifies fuel
           (Pipeline info cfg nodes graph) e inputs ;;;
         (attributes <- get_attribute_values_registered process_completion PA
                          (Pipeline info cfg nodes graph) e ;;
          for_each pre (fun nc =>
            complete_child_registered process_completion
              (complete_parameters_registered process_completion PA notifies fuel)
              (p_name info) (fst nc) (export_to_dict attributes) (snd nc))) ;;;
         raise) st).
    { cbn [complete_parameters_registered].
      unfold complete_parameters_registered_with, set_parameters_registered.
      apply bind_ext. intros _ s.
      eapply complete_children_registered_refused; eassumption. }
    split; [|exact Hrun]. rewrite Hrun.
    apply bind_not_ok. intros _ s. apply bind_not_ok. intros _ s'. discriminate.
  - intros Hbase Hfuel st1 l1 Hset.
    rewrite set_parameters_registered_base in Hset by exact Hbase.
    rewrite !complete_parameters_registered_base by exact Hbase.
    destruct (pass_calls _ _ _ _ _ _ _ _ _ Hfuel Hset)
      as (a & l2 & _ & (V1 & V2 & _) & -> & -> & ->).
    split; [reflexivity|]. split; [|exact V2].
    apply (f_equal (map fst)) in V1. rewrite !map_map in V1. exact V1.
Qed.

End CaughtFailures.

(** ** What the merge catches *)

Section RefusedMerge.

Variable process_completion : study_config -> option completion_factory.
Variable PA : list (string * field).




End RefusedMerge.

(** ** The sample pipelines with a registered factory *)


(** The three steps without a registered factory: the second child cannot
    be completed, on its own engine or on a new one; the first and the
    third have their paths.  With a factory that refuses the second child
    its engine, the pass raises after the first step. *)
Lemma only_completion_failures_are_caught_witness :
  (let run :=
     complete_parameters_registered unregistered [] always 4 pipe 0 subject_s1
       pipe_store in
   (run.2 = Ok tt
    /\ map call_target (calls_by Child run.1.2)
       = map (fun c => p_id (info_of c)) (children pipe)
    /\ map call_target (calls_by Fallback run.1.2)
       = map call_target
           (filter (fun c => raised c = true) (calls_by Child run.1.2)))
   /\ map (fun c => (call_target c, call_result c)) (calls_by Child run.1.2)
      = [(1, Ok tt); (2, Raised); (3, Ok tt)]
   /\ map (fun c => (call_target c, call_result c)) (calls_by Fallback run.1.2)
      = [(2, Raised)]
   /\ getattr (parameters_of run.1.1 1) "output"
      = Some (VStr "/data/s1/n1_output")
   /\ getattr (parameters_of run.1.1 2) "output" = Some VUndefined
   /\ getattr (parameters_of run.1.1 3) "input"
      = Some (VStr "/data/s1/n3_input"))
  /\ (let run :=
        complete_parameters_registered registered [] always 4 pipe 0 subject_s1
          pipe_store in
      run.2 <> Ok tt
      /\ run
         = (set_parameters_registered registered [] always 3 pipe 0 subject_s1 ;;;
            (attributes <- get_attribute_values_registered registered [] pipe 0 ;;
             for_each [("a", n1)] (fun nc =>
               complete_child_registered registered
                 (complete_parameters_registered registered [] always 3) "pipe"
                 (fst nc) (export_to_dict attributes) (snd nc))) ;;;
            raise) pipe_store).
Proof.
  split.
  - split; [|vm_compute; repeat split].
    exact (proj2 (proj2 (only_completion_failures_are_caught unregistered []
                           always 3 (ProcInfo 0 "pipe" None) config
                           [("", None); ("a", Some n1); ("b", Some broken);
                            ("c", Some n3)]
                           [("a", [n1]); ("b", [broken]); ("c", [n3])]
                           0 subject_s1 pipe_store))
             ltac:(intros cfg factory info name H; discriminate H)
             ltac:(simpl; lia)
             (set_parameters_registered unregistered [] always 3 pipe 0
                subject_s1 pipe_store).1.1
             (set_parameters_registered unregistered [] always 3 pipe 0
                subject_s1 pipe_store).1.2
             ltac:(vm_compute; reflexivity)).
  - exact (proj1 (proj2 (only_completion_failures_are_caught registered []
                           always 3 (ProcInfo 0 "pipe" None) config
                           [("", None); ("a", Some n1); ("b", Some broken);
                            ("c", Some n3)]
                           [("a", [n1]); ("b", [broken]); ("c", [n3])]
                           0 subject_s1 pipe_store))
             [("a", n1)] "b" broken [("c", n3)]
             ltac:(reflexivity) ltac:(vm_compute; reflexivity)).
Defined.

(** The registered factory raises on the second of three children: nothing
    catches the exception.  The pass raises, the second child is not
    skipped but ends the traversal, and the third child is never visited:
    its parameter stays undefined. *)
Lemma engine_construction_failure_stops_the_traversal :
  let run :=
    complete_parameters_registered registered [] always 4 pipe 0 subject_s1
      pipe_store in
  map (fun c => p_id (info_of c)) (children pipe) = [1; 2; 3]
  /\ construction_raises registered broken "pipe.b" = true
  /\ get_completion_engine_registered registered broken (Some "pipe.b") pipe_store
     = (pipe_store, [], Raised)
  /\ run.2 = Raised
  /\ map (fun c => (call_target c, call_result c)) (calls_by Child run.1.2)
     = [(1, Ok tt)]
  /\ calls_by Fallback run.1.2 = []
  /\ getattr (parameters_of run.1.1 1) "output"
     = Some (VStr "/data/s1/n1_output")
  /\ getattr (parameters_of run.1.1 3) "input" = Some VUndefined
  /\ ~ (run.2 = Ok tt
        /\ map call_target (calls_by Child run.1.2)
           = map (fun c => p_id (info_of c)) (children pipe)).
Proof.
  cbv zeta. repeat split; try (vm_compute; reflexivity).
  intros [H _]. vm_compute in H. discriminate H.
Qed.

